(** * The chunked transcription pipeline of [video_trans_sum.py]

    A shallow embedding of [transcribe_and_summarize_video] and of its local
    helpers ([process_audio_chunk], [audio_to_text_single_call],
    [transcribe_with_openai_whisper]), followed by the properties of the
    splitter, the transcription client, the assembler and the summarizer.

    Conventions of the embedding.
    - A Python [str] is a [string]; a character stands for a code point
      below 256.
    - A Python [float] is a binary64 primitive float; [int] is [Z].
    - The file system, the process environment and the log of outgoing
      requests form the [World] that every effectful helper threads.
    - Decoding, the two remote services and [json.loads] are external: their
      answers are the fields of [Externals].
    - The thread pool is modelled by the order in which its futures settle:
      a run processes the chunks one after the other in that order, which
      is an argument of the entry point. *)

From Stdlib Require Import ZArith Floats Ascii String DecimalString DecimalNat.
From stdpp Require Import base list strings gmap sorting.

Local Open Scope Z_scope.

(** ** Python strings *)

Module Py.

(** The double quote, which the prompt templates contain. *)
Definition dq : string := String "034"%char EmptyString.

(** [str(i)] for a non-negative index. *)
Definition str (n : nat) : string := NilEmpty.string_of_uint (Nat.to_uint n).

(** [sep in s]. *)
Fixpoint contains (sep s : string) : bool :=
  String.prefix sep s
  || match s with
     | EmptyString => false
     | String _ s' => contains sep s'
     end.

(** [s.split(sep)] for a non-empty [sep]: the pieces between the
    occurrences of [sep], scanned from the left without overlap. [skip]
    counts the characters of a matched separator still to be dropped. *)
Fixpoint split_go (sep : string) (skip : nat) (s : string) : list string :=
  match s with
  | EmptyString => [EmptyString]
  | String c s' =>
      match skip with
      | S k => split_go sep k s'
      | O =>
          if String.prefix sep s
          then EmptyString :: split_go sep (Nat.pred (String.length sep)) s'
          else match split_go sep O s' with
               | p :: ps => String c p :: ps
               | [] => [String c EmptyString]
               end
      end
  end.

Definition split (sep s : string) : list string := split_go sep O s.

(** [sep.join(l)]. *)
Fixpoint join (sep : string) (l : list string) : string :=
  match l with
  | [] => EmptyString
  | [x] => x
  | x :: l' => x +:+ sep +:+ join sep l'
  end.

(** Characters that [int] skips around a literal: the ASCII white space
    and, in a non-ASCII string, NEL and NBSP. *)
Definition isspace (c : ascii) : bool :=
  let n := nat_of_ascii c in
  ((9 <=? n)%nat && (n <=? 13)%nat) || (n =? 32)%nat
  || (n =? 133)%nat || (n =? 160)%nat.

Definition digit_val (c : ascii) : option Z :=
  let n := nat_of_ascii c in
  if ((48 <=? n)%nat && (n <=? 57)%nat)%bool
  then Some (Z.of_nat n - 48) else None.

Fixpoint lstrip (s : string) : string :=
  match s with
  | String c s' => if isspace c then lstrip s' else s
  | EmptyString => s
  end.

Fixpoint all_space (s : string) : bool :=
  match s with
  | String c s' => isspace c && all_space s'
  | EmptyString => true
  end.

(** The digits of a literal after its first digit (value so far [acc]):
    more digits, single underscores between digits, then only white
    space. *)
Fixpoint int_digits (acc : Z) (s : string) : option Z :=
  match s with
  | EmptyString => Some acc
  | String c s' =>
      match digit_val c with
      | Some d => int_digits (10 * acc + d) s'
      | None =>
          if Ascii.eqb c "_"%char then
            match s' with
            | String c' s'' =>
                match digit_val c' with
                | Some d => int_digits (10 * acc + d) s''
                | None => None
                end
            | EmptyString => None
            end
          else if all_space s then Some acc else None
      end
  end.

(** [int(s)] in base 10; [None] stands for [ValueError]. The interpreter's
  cap on the number of digits (4300 by default) is far above the length of
  a file name and is left out. *)
Definition int (s : string) : option Z :=
  let s1 := lstrip s in
  let '(sign, s2) :=
    match s1 with
    | String "+"%char r => (1, r)
    | String "-"%char r => (-1, r)
    | _ => (1, s1)
    end in
  match s2 with
  | String c r =>
      match digit_val c with
      | Some d => Z.mul sign <$> int_digits d r
      | None => None
      end
  | EmptyString => None
  end.

End Py.

(** ** Exceptions and chunk results *)

(** What a Python exception carries as far as the pipeline looks at it. *)
Inductive Exn : Type :=
| ValueError (what : string)
| IndexError
| ZeroDivisionError
| FileNotFoundError (path : string)
| IsADirectoryError (path : string)
| FileExistsError (path : string)
| CouldntDecodeError (path : string)
| ExternalError (what : string)
(** [Exception(f"Failed to download file from URL: {cause}")] *)
| DownloadFailed (cause : Exn).

(** The dictionary built by [process_audio_chunk]. *)
Record ChunkResult : Type := mkChunkResult {
  chunk_id : string;
  file_name : string;
  error : option Exn;
  transcript : option string
}.

(** ** Transcript assembler (STEP 4) *)

Definition delimiter : string := "_chunk_".

(** The sort key
    [int(x['chunk_id'].split('_chunk_')[1]) if '_chunk_' in x['chunk_id'] else 0]. *)
Definition sort_key (x : ChunkResult) : Exn + Z :=
  if Py.contains delimiter (chunk_id x) then
    match Py.split delimiter (chunk_id x) !! 1%nat with
    | Some seg =>
        match Py.int seg with
        | Some k => inr k
        | None => inl (ValueError seg)
        end
    | None => inl IndexError
    end
  else inr 0.

(** [sorted(l, key=...)]: every key is computed first, in list order, and
    the first exception aborts; the sort itself is stable. *)
Fixpoint decorate (l : list ChunkResult) : Exn + list (Z * ChunkResult) :=
  match l with
  | [] => inr []
  | x :: l' =>
      match sort_key x with
      | inl e => inl e
      | inr k =>
          match decorate l' with
          | inl e => inl e
          | inr d => inr ((k, x) :: d)
          end
      end
  end.

Fixpoint insert_stable {A} (kx : Z * A) (l : list (Z * A)) : list (Z * A) :=
  match l with
  | [] => [kx]
  | ky :: l' =>
      if ky.1 <? kx.1 then ky :: insert_stable kx l' else kx :: ky :: l'
  end.

Definition stable_sort {A} (l : list (Z * A)) : list (Z * A) :=
  foldr insert_stable [] l.

Definition sorted (l : list ChunkResult) : Exn + list ChunkResult :=
  match decorate l with
  | inl e => inl e
  | inr d => inr ((stable_sort d).*2)
  end.

(** Truth value of [chunk['transcript']]: neither [None] nor empty. *)
Definition truthy (t : option string) : bool :=
  match t with
  | Some (String _ _) => true
  | _ => false
  end.

(** [[chunk['transcript'] for chunk in sorted_chunks if chunk['transcript']]]. *)
Definition transcripts (l : list ChunkResult) : list string :=
  omap (fun x => if truthy (transcript x) then transcript x else None) l.

(** The ways the entry point returns or fails. [Err msg cause] is
    [{"error": msg + str(cause)}]. *)
Inductive Result (J : Type) : Type :=
| Summary (summary : J)
| Err (msg : string) (cause : option Exn)
| ErrRaw (msg : string) (raw_summary : string)
| Uncaught (e : Exn).
Arguments Summary {J} _.
Arguments Err {J} _ _.
Arguments ErrRaw {J} _ _.
Arguments Uncaught {J} _.

Definition NoTranscriptError {J} : Result J :=
  Err "No transcript was generated from any audio chunk" None.
Definition TranscriptMergingFailed {J} (e : Exn) : Result J :=
  Err "Transcript merging failed: " (Some e).

(** STEP 4 as a function of the collected results: the merged transcript,
    or the result returned at once. *)
Definition merge_transcripts {J} (chunks_results : list ChunkResult)
  : Result J + string :=
  match sorted chunks_results with
  | inl e => inl (TranscriptMergingFailed e)
  | inr sorted_chunks =>
      let full_transcript := Py.join " " (transcripts sorted_chunks) in
      match full_transcript with
      | EmptyString => inl NoTranscriptError
      | _ => inr full_transcript
      end
  end.

(** ** Floats as the client uses them *)

Module PyFloat.

(** [float(n)] for a non-negative [n] below 2^63, the range of the byte
    and millisecond counts converted here. *)
Definition of_int (n : Z) : float := PrimFloat.of_uint63 (Uint63.of_Z n).

(** [a / b]: division by zero raises. *)
Definition truediv (a b : float) : Exn + float :=
  if PrimFloat.eqb b 0%float then inl ZeroDivisionError
  else inr (PrimFloat.div a b).

(** The integer nearest to zero of magnitude at most [|f|], and whether
    [f] is that integer. *)
Definition magnitude (m : positive) (e : Z) : Z * bool :=
  if 0 <=? e then (Z.pos m * 2 ^ e, true)
  else (Z.pos m / 2 ^ (- e), Z.pos m mod 2 ^ (- e) =? 0).

(** [math.ceil(f)]; infinities and NaN raise. *)
Definition ceil (f : float) : Exn + Z :=
  match Prim2SF f with
  | S754_zero _ => inr 0
  | S754_finite s m e =>
      let '(q, exact) := magnitude m e in
      inr (if s then - q else if exact then q else q + 1)
  | _ => inl (ValueError "cannot convert float to integer")
  end.

(** [int(f)], truncation toward zero; infinities and NaN raise. *)
Definition to_int (f : float) : Exn + Z :=
  match Prim2SF f with
  | S754_zero _ => inr 0
  | S754_finite s m e =>
      let q := (magnitude m e).1 in inr (if s then - q else q)
  | S754_infinity _ =>
      inl (ExternalError "OverflowError: cannot convert float infinity to integer")
  | S754_nan => inl (ValueError "cannot convert float NaN to integer")
  end.

(** [round(f)]: the nearest integer, a tie going to the even one. *)
Definition round (f : float) : Z :=
  match Prim2SF f with
  | S754_finite s m e =>
      let q :=
        if 0 <=? e then Z.pos m * 2 ^ e
        else
          let d := 2 ^ (- e) in
          let q := Z.pos m / d in
          let r := Z.pos m mod d in
          if 2 * r <? d then q
          else if d <? 2 * r then q + 1
          else if Z.even q then q else q + 1 in
      if s then - q else q
  | _ => 0
  end.

End PyFloat.

(** ** Audio segments as pydub holds them *)

(** A decoded segment: its frame rate (frames per second), the width of a
    frame in bytes (sample width times channels) and the number of whole
    frames of its data. The samples themselves are not observed. *)
Record AudioSegment : Type := mkAudio {
  frame_rate : positive;
  frame_width : positive;
  frame_count : N
}.

(** [len(audio.raw_data)], in bytes. *)
Definition raw_len (audio : AudioSegment) : Z :=
  Z.of_N (frame_count audio) * Z.pos (frame_width audio).

(** [len(audio)], in milliseconds:
    [round(1000 * (self.frame_count() / self.frame_rate))]. *)
Definition len_ms (audio : AudioSegment) : Z :=
  PyFloat.round
    (PyFloat.of_int 1000
     * (PyFloat.of_int (Z.of_N (frame_count audio))
        / PyFloat.of_int (Z.pos (frame_rate audio))))%float.

(** [self.frame_count(ms=ms)]: [ms * (self.frame_rate / 1000.0)]. *)
Definition frames_in (audio : AudioSegment) (ms : float) : float :=
  (ms * (PyFloat.of_int (Z.pos (frame_rate audio)) / PyFloat.of_int 1000))%float.

(** [self._parse_position(val)]: the frame at [val] milliseconds. *)
Definition parse_position (audio : AudioSegment) (val : float) : Exn + Z :=
  let val :=
    if (val <? 0)%float
    then (PyFloat.of_int (len_ms audio) - PrimFloat.abs val)%float
    else val in
  PyFloat.to_int
    (if (val =? infinity)%float
     then frames_in audio (PyFloat.of_int (len_ms audio))
     else frames_in audio val).

(** [min(ms, len(self))]. *)
Definition clamp (audio : AudioSegment) (ms : float) : float :=
  if (PyFloat.of_int (len_ms audio) <? ms)%float
  then PyFloat.of_int (len_ms audio) else ms.

(** An index of [data[start:end]] brought into [0..n]. *)
Definition slice_index (n i : Z) : Z :=
  let i := if i <? 0 then i + n else i in
  Z.max 0 (Z.min i n).

(** [audio[start:stop]] with bounds in milliseconds (held as floats, as
    they enter the frame computation): both are clamped to the length and
    turned into frame positions; the frames between them are taken, and
    when the data ends before the second position the missing frames are
    made up with silence, unless more than two milliseconds are missing. *)
Definition slice (audio : AudioSegment) (start stop : float)
  : Exn + AudioSegment :=
  match parse_position audio (clamp audio start) with
  | inl err => inl err
  | inr s =>
      match parse_position audio (clamp audio stop) with
      | inl err => inl err
      | inr e =>
          let n := Z.of_N (frame_count audio) in
          let data := Z.max 0 (slice_index n e - slice_index n s) in
          let missing_frames := (e - s) - data in
          if missing_frames =? 0 then
            inr (mkAudio (frame_rate audio) (frame_width audio) (Z.to_N data))
          else if (0 <? missing_frames)
                  && (frames_in audio (PyFloat.of_int 2)
                      <? PyFloat.of_int missing_frames)%float
          then inl (ExternalError "TooManyMissingFrames")
          else
            let silence := if 0 <? data then Z.max 0 missing_frames else 0 in
            inr (mkAudio (frame_rate audio) (frame_width audio)
                   (Z.to_N (data + silence)))
      end
  end.

(** [range(0, stop, step)] for a positive step, by repeated addition. *)
Fixpoint range_from (fuel : nat) (start stop step : Z) : list Z :=
  match fuel with
  | O => []
  | S fuel' =>
      if start <? stop then start :: range_from fuel' (start + step) stop step
      else []
  end.

Definition range_step (stop step : Z) : list Z :=
  range_from (Z.to_nat stop) 0 stop step.

(** A list comprehension whose elements may raise: the first exception
    ends it. *)
Fixpoint each {A} (l : list (Exn + A)) : Exn + list A :=
  match l with
  | [] => inr []
  | inl e :: _ => inl e
  | inr x :: l' =>
      match each l' with
      | inl e => inl e
      | inr xs => inr (x :: xs)
      end
  end.

(** [pydub.utils.make_chunks(audio, chunk_length)] with a float length:
    [ceil(len(audio) / float(chunk_length))] slices, the [i]-th from
    [i * chunk_length] to [(i + 1) * chunk_length]. *)
Definition make_chunks (audio : AudioSegment) (chunk_length : float)
  : Exn + list AudioSegment :=
  match PyFloat.truediv (PyFloat.of_int (len_ms audio)) chunk_length with
  | inl e => inl e
  | inr q =>
      match PyFloat.ceil q with
      | inl e => inl e
      | inr number_of_chunks =>
          each
            (map (fun i : nat =>
                    slice audio
                      (PyFloat.of_int (Z.of_nat i) * chunk_length)
                      (PyFloat.of_int (Z.of_nat i + 1) * chunk_length))
                 (seq 0 (Z.to_nat number_of_chunks)))
      end
  end.

(** ** Paths ([os.path], POSIX flavour) *)

Module Path.

(** [s.rpartition(c)] when [c] occurs: the text before and after its last
    occurrence. *)
Fixpoint rsplit1 (c : ascii) (s : string) : option (string * string) :=
  match s with
  | EmptyString => None
  | String a s' =>
      match rsplit1 c s' with
      | Some (h, t) => Some (String a h, t)
      | None => if Ascii.eqb a c then Some (EmptyString, s') else None
      end
  end.

Fixpoint all_char (c : ascii) (s : string) : bool :=
  match s with
  | EmptyString => true
  | String a s' => Ascii.eqb a c && all_char c s'
  end.

Fixpoint ends_with_char (c : ascii) (s : string) : bool :=
  match s with
  | EmptyString => false
  | String a EmptyString => Ascii.eqb a c
  | String _ s' => ends_with_char c s'
  end.

(** [s.rstrip('/')]. *)
Fixpoint rstrip_slash (s : string) : string :=
  match s with
  | EmptyString => EmptyString
  | String a s' =>
      if all_char "/" s then EmptyString else String a (rstrip_slash s')
  end.

Definition basename (p : string) : string :=
  match rsplit1 "/" p with
  | Some (_, t) => t
  | None => p
  end.

Definition dirname (p : string) : string :=
  match rsplit1 "/" p with
  | Some (h, _) =>
      let head := h +:+ "/" in
      if all_char "/" head then head else rstrip_slash head
  | None => EmptyString
  end.

(** [os.path.join(a, b)]. *)
Definition join (a b : string) : string :=
  if String.prefix "/" b then b
  else match a with
       | EmptyString => b
       | _ => if ends_with_char "/" a then a +:+ b else a +:+ "/" +:+ b
       end.

(** [os.path.splitext(p)]: the extension starts at the last dot of the
    last component, unless only dots precede it there. *)
Definition splitext (p : string) : string * string :=
  let '(dir, name) :=
    match rsplit1 "/" p with
    | Some (h, t) => (h +:+ "/", t)
    | None => (EmptyString, p)
    end in
  match rsplit1 "." name with
  | Some (stem, ext) =>
      if all_char "." stem then (p, EmptyString)
      else (dir +:+ stem, "." +:+ ext)
  | None => (p, EmptyString)
  end.

Definition lower_char (c : ascii) : ascii :=
  let n := nat_of_ascii c in
  if ((65 <=? n)%nat && (n <=? 90)%nat)
     || ((192 <=? n)%nat && (n <=? 222)%nat && negb (n =? 215)%nat)
  then ascii_of_nat (n + 32) else c.

(** [s.lower()]. *)
Fixpoint lower (s : string) : string :=
  match s with
  | EmptyString => EmptyString
  | String a s' => String (lower_char a) (lower s')
  end.

(** [s.endswith(suffix)]. *)
Fixpoint endswith (s suffix : string) : bool :=
  String.eqb s suffix
  || match s with
     | EmptyString => false
     | String _ s' => endswith s' suffix
     end.

End Path.

(** ** The world: files, environment, outgoing traffic *)

Inductive FileData : Type :=
| Directory
| Wav (audio : AudioSegment)
| Blob.

(** The body of the chat-completion request ([data]). *)
Record ChatPayload : Type := mkChatPayload {
  model : string;
  messages : list (string * string);
  temperature : float
}.

(** What the pipeline does that is visible from outside, in order. *)
Inductive Event : Type :=
| Export (path : string) (segment : AudioSegment)
| Remove (path : string)
| Rmtree (path : string)
| PostTranscription (bearer file_path : string)
| PostChatCompletion (bearer : string) (data : ChatPayload)
| Head (url : string)
| Get (url : string).

(** The paths that exist, each with what it holds; the value of
    OPENAI_API_KEY; the events so far. The parents of a path are not
    tracked. *)
Record World : Type := mkWorld {
  files : gmap string FileData;
  OPENAI_API_KEY : option string;
  trace : list Event
}.

Definition set_files (f : gmap string FileData → gmap string FileData)
    (w : World) : World :=
  mkWorld (f (files w)) (OPENAI_API_KEY w) (trace w).

Definition log (e : Event) (w : World) : World :=
  mkWorld (files w) (OPENAI_API_KEY w) (trace w ++ [e]).

(** A Python computation: it returns or raises, and its effects stay in
    either case. *)
Definition M (A : Type) : Type := World → (Exn + A) * World.

Definition ret {A} (a : A) : M A := fun w => (inr a, w).
Definition raise {A} (e : Exn) : M A := fun w => (inl e, w).
Definition bind {A B} (m : M A) (k : A → M B) : M B :=
  fun w =>
    match m w with
    | (inr a, w') => k a w'
    | (inl e, w') => (inl e, w')
    end.
(** [try: m  except Exception as e: h e]. *)
Definition try_except {A} (m : M A) (h : Exn → M A) : M A :=
  fun w =>
    match m w with
    | (inr a, w') => (inr a, w')
    | (inl e, w') => h e w'
    end.
Definition lift {A} (r : Exn + A) : M A := fun w => (r, w).
Definition emit (e : Event) : M unit := fun w => (inr tt, log e w).

Notation "'do' x <- m ; k" := (bind m (fun x => k))
  (at level 10, x pattern, m at level 100, k at level 200).
Notation "m ;; k" := (bind m (fun _ => k))
  (at level 100, k at level 200, right associativity).

(** [for x in l: body x], stopping at the first exception. *)
Fixpoint for_each {A} (l : list A) (body : A → M unit) : M unit :=
  match l with
  | [] => ret tt
  | x :: l' => body x ;; for_each l' body
  end.

Module Os.

(** [os.getenv('OPENAI_API_KEY')]; the callers test its truth value, so an
    empty value counts as absent. *)
Definition getenv_api_key : M (option string) :=
  fun w =>
    (inr match OPENAI_API_KEY w with
         | Some (String c k) => Some (String c k)
         | _ => None
         end, w).

(** [os.makedirs(p, exist_ok=True)]. *)
Definition makedirs (p : string) : M unit :=
  fun w =>
    match p with
    | EmptyString => (inl (FileNotFoundError p), w)
    | _ =>
        match files w !! p with
        | Some Directory => (inr tt, w)
        | Some _ => (inl (FileExistsError p), w)
        | None => (inr tt, set_files (insert p Directory) w)
        end
    end.

(** Writing a regular file at [p]. *)
Definition write (p : string) (d : FileData) : M unit :=
  fun w =>
    match files w !! p with
    | Some Directory => (inl (IsADirectoryError p), w)
    | _ => (inr tt, set_files (insert p d) w)
    end.

(** [open(p, "wb")] and what is written through it, for a path taken
    from outside: a last component [.] or [..] names a directory. *)
Definition open_wb (p : string) (d : FileData) : M unit :=
  if bool_decide (Path.basename p ∈ ["."; ".."])
  then raise (IsADirectoryError p)
  else write p d.

(** [open(p, "rb")]. *)
Definition open_rb (p : string) : M FileData :=
  fun w =>
    match files w !! p with
    | Some Directory => (inl (IsADirectoryError p), w)
    | Some d => (inr d, w)
    | None => (inl (FileNotFoundError p), w)
    end.

(** [os.remove(p)]. *)
Definition remove (p : string) : M unit :=
  fun w =>
    match files w !! p with
    | Some Directory => (inl (IsADirectoryError p), w)
    | Some _ => (inr tt, log (Remove p) (set_files (delete p) w))
    | None => (inl (FileNotFoundError p), w)
    end.

(** Whether [q] lies under the directory [d]. *)
Definition under (d q : string) : bool :=
  String.prefix (if Path.ends_with_char "/" d then d else d +:+ "/") q.

(** [shutil.rmtree(d)]. *)
Definition rmtree (d : string) : M unit :=
  fun w =>
    match files w !! d with
    | Some Directory =>
        (inr tt,
         log (Rmtree d)
           (set_files (fun fs => filter (fun kv => negb (under d kv.1)) (delete d fs)) w))
    | Some _ => (inl (ExternalError "NotADirectoryError"), w)
    | None => (inl (FileNotFoundError d), w)
    end.

(** [shutil.copy(src, dst)]. *)
Definition copy (src dst : string) : M unit :=
  do d <- open_rb src;
  fun w =>
    match files w !! dst with
    | Some Directory => write (Path.join dst (Path.basename src)) d w
    | _ => write dst d w
    end.

End Os.

(** [AudioSegment.from_file(p)]. *)
Definition from_file (p : string) : M AudioSegment :=
  do d <- Os.open_rb p;
  match d with
  | Wav a => ret a
  | _ => raise (CouldntDecodeError p)
  end.

(** [segment.export(p, format="wav")]. *)
Definition export (segment : AudioSegment) (p : string) : M unit :=
  Os.write p (Wav segment) ;; emit (Export p segment).

(** ** What lies outside the program *)

(** The answer of the speech-to-text endpoint to one upload: the call or
    the decoding of its body raises, the body carries an [error] member, or
    it carries the recognised [text]. *)
Inductive WhisperReply : Type :=
| WhisperRaises (e : Exn)
| WhisperErrorBody (body : string)
| WhisperText (text : string).

(** The answer of the chat-completion endpoint: anything that raises before
    a text is in hand (transport, HTTP status, shape of the body, a
    content that is no text, at which [json.loads] raises TypeError), or
    the text at [choices[0].message.content]. *)
Inductive ChatReply : Type :=
| ChatRaises (e : Exn)
| ChatContent (text : string).

(** What [json.loads] does with a text: it returns the value, raises
    [JSONDecodeError], or raises something else (RecursionError on a text
    nested too deep). *)
Inductive JsonResult (J : Type) : Type :=
| JsonValue (value : J)
| JSONDecodeError
| JsonRaises (e : Exn).
Arguments JsonValue {J} _.
Arguments JSONDecodeError {J}.
Arguments JsonRaises {J} _.

(** The GET of [download_file_from_url]: the request or its status check
    raises before the output file is opened, or the file is opened and
    holds [written] when the stream ends, with an exception when it
    breaks off. *)
Inductive Download : Type :=
| GetRaises (e : Exn)
| GetStream (written : FileData) (broken : option Exn).

(** The two answers of [get_file_type], ['video'] and ['audio']. *)
Inductive FileType : Type := Video | Audio.

Record Externals (J : Type) : Type := mkExternals {
  (** [mimetypes.guess_type(p)[0]] *)
  guess_type : string → option string;
  (** [urlparse(url).path] *)
  url_path : string → Exn + string;
  (** [str(uuid.uuid4())[:8]] of this run *)
  uuid8 : string;
  (** the HEAD request: it raises, or the extension that
      [mimetypes.guess_extension] finds for the content type of the reply *)
  head_extension : string → Exn + option string;
  (** the GET of [download_file_from_url] *)
  url_get : string → Download;
  (** a run of [ffmpeg] with the given arguments: failure, or what it writes
      at its output path *)
  ffmpeg : list string → Exn + FileData;
  (** the speech-to-text service, per bearer credential and uploaded file *)
  whisper : string → string → WhisperReply;
  (** the chat-completion service, per credential and request body *)
  chat : string → ChatPayload → ChatReply;
  (** [json.loads] *)
  json_loads : string → JsonResult J
}.
Arguments guess_type {J} _ _.
Arguments url_path {J} _ _.
Arguments uuid8 {J} _.
Arguments head_extension {J} _ _.
Arguments url_get {J} _ _.
Arguments ffmpeg {J} _ _.
Arguments whisper {J} _ _ _.
Arguments chat {J} _ _ _.
Arguments json_loads {J} _ _.

(** ** The helpers of the entry point *)

Definition LIMIT : Z := 24 * 1024 * 1024.

(** The first component of what [transcribe_with_openai_whisper] returns. *)
Inductive ResponseJson : Type :=
| KeyNotFound
| ErrorBody (body : string)
| VerboseJson (text : string).

(** The dictionary returned by [audio_to_text_single_call]:
    [{'transcript': t}] or [{'error': str(e)}]. *)
Inductive Content : Type :=
| ContentTranscript (t : string)
| ContentError (e : Exn).

Definition nl : string := String "010"%char EmptyString.
Definition quoted (s : string) : string := Py.dq +:+ s +:+ Py.dq.

Definition system_prompt : string :=
  nl +:+
  "        You are a helpful assistant that summarizes legal call transcripts. Your job is to extract " +:+ nl +:+
  "        the most important information and present it in a clear, structured JSON format. Focus only on " +:+ nl +:+
  "        extracting key points and action items from the transcript. The transcript might contain some transcription errors." +:+ nl +:+
  "        These calls are being made from experts on behalf of Vakilsearch.com. Correct any mis-pronunciations of the name Vakilsearch." +:+ nl +:+
  "        ".

Definition action_item_line (task : string) : string :=
  "      {" +:+ quoted "title" +:+ ": " +:+ quoted "<Action Item Title>" +:+ ", "
  +:+ quoted "task" +:+ ": " +:+ quoted task +:+ ", "
  +:+ quoted "description" +:+ ": " +:+ quoted "<Description>" +:+ ", "
  +:+ quoted "deadline" +:+ ": " +:+ quoted "<Deadline (if applicable)>" +:+ "}".

(** The text of the user instruction before the transcript. *)
Definition user_prompt_head : string :=
  Py.join nl [
    "";
    "Please summarize the following legal call transcript into a structured JSON format.";
    "";
    "Extract and organize the information into the following sections:";
    "";
    "1. **Key Points**: Provide 3-5 bullet points summarizing the most important details discussed.";
    "2. **Action Items**: For each action item, include:";
    "   - **Title**: A short title for the action item.";
    "   - **Task**: The specific task to be completed.";
    "   - **Description**: Additional details about the task.";
    "   - **Deadline**: The deadline, if mentioned.";
    "";
    "Format the response as a JSON object with the structure:";
    "";
    "{";
    "  " +:+ quoted "summary" +:+ ": {";
    "    " +:+ quoted "key_points" +:+ ": [" +:+ quoted "<Point 1>" +:+ ", "
      +:+ quoted "<Point 2>" +:+ ", " +:+ quoted "<Point 3>" +:+ "],";
    "    " +:+ quoted "action_items" +:+ ": [";
    action_item_line "<Action Item 1>" +:+ ",";
    action_item_line "<Action Item 2>";
    "    ]";
    "  }";
    "}";
    "";
    "Return ONLY the JSON object with no additional text or explanation. Ensure it is properly formatted JSON.";
    "";
    "Here's the transcript:";
    ""
  ].

(** The f-string [user_prompt]. *)
Definition user_prompt (full_transcript : string) : string :=
  user_prompt_head +:+ full_transcript +:+ nl.

Definition chat_payload (full_transcript : string) : ChatPayload :=
  mkChatPayload "gpt-4o-mini"
    [("system", system_prompt); ("user", user_prompt full_transcript)]
    (PrimFloat.div (PyFloat.of_int 3) (PyFloat.of_int 10)).

Section Pipeline.

Context {J : Type} (ext : Externals J).

(** [get_file_type(file_path)]. *)
Definition video_extensions : list string :=
  [".mp4"; ".avi"; ".mov"; ".mkv"; ".webm"; ".flv"].
Definition audio_extensions : list string :=
  [".mp3"; ".wav"; ".ogg"; ".m4a"; ".flac"; ".aac"].

Definition get_file_type (file_path : string) : FileType :=
  let file_ext := Path.lower (Path.splitext file_path).2 in
  if bool_decide (file_ext ∈ video_extensions) then Video
  else if bool_decide (file_ext ∈ audio_extensions) then Audio
  else match guess_type ext file_path with
       | Some mime_type =>
           if String.prefix "video/" mime_type then Video
           else if String.prefix "audio/" mime_type then Audio
           else Video
       | None => Video
       end.

(** [transcribe_with_openai_whisper(file_path)]: the pair
    [(response_json, transcript)]. *)
Definition transcribe_with_openai_whisper (file_path : string)
  : M (ResponseJson * string) :=
  do api_key <- Os.getenv_api_key;
  match api_key with
  | None => ret (KeyNotFound, EmptyString)
  | Some key =>
      do _ <- Os.open_rb file_path;
      emit (PostTranscription key file_path) ;;
      match whisper ext key file_path with
      | WhisperRaises e => raise e
      | WhisperErrorBody body => ret (ErrorBody body, EmptyString)
      | WhisperText text => ret (VerboseJson text, text)
      end
  end.

(** The path of the [i]-th sub-window of an oversized chunk. *)
Definition sub_window_path (temp_dir file_path : string) (i : nat) : string :=
  Path.join temp_dir
    (Path.basename file_path +:+ "_chunk_" +:+ Py.str i +:+ ".wav").

(** The loop over [enumerate(chunks)] in [audio_to_text_single_call],
    from index [i] on, with the text gathered so far. *)
Fixpoint transcribe_sub_windows (temp_dir file_path : string) (i : nat)
    (chunks : list AudioSegment) (transcript : string) : M string :=
  match chunks with
  | [] => ret transcript
  | chunk :: rest =>
      let chunk_path := sub_window_path temp_dir file_path i in
      export chunk chunk_path ;;
      do r <- transcribe_with_openai_whisper chunk_path;
      let transcript := transcript +:+ r.2 +:+ " " in
      Os.remove chunk_path ;;
      transcribe_sub_windows temp_dir file_path (S i) rest transcript
  end.

(** [audio_to_text_single_call(file_path, temp_dir)]. *)
Definition audio_to_text_single_call (file_path temp_dir : string)
  : M Content :=
  try_except
    (do audio <- from_file file_path;
     if LIMIT <? raw_len audio then
       do bytes_per_ms <-
         lift (PyFloat.truediv (PyFloat.of_int (raw_len audio))
                               (PyFloat.of_int (len_ms audio)));
       do chunk_duration_ms <-
         lift (PyFloat.truediv (PyFloat.of_int LIMIT) bytes_per_ms);
       do chunks <- lift (make_chunks audio chunk_duration_ms);
       do transcript <-
         transcribe_sub_windows temp_dir file_path 0 chunks EmptyString;
       ret (ContentTranscript transcript)
     else
       do r <- transcribe_with_openai_whisper file_path;
       ret (ContentTranscript r.2))
    (fun e => ret (ContentError e)).

(** [process_audio_chunk(chunk_path)], without the timing. *)
Definition process_audio_chunk (temp_dir chunk_path : string)
  : M ChunkResult :=
  let file_name := Path.basename chunk_path in
  let chunk_id := (Path.splitext file_name).1 in
  do transcription_response <- audio_to_text_single_call chunk_path temp_dir;
  ret match transcription_response with
      | ContentTranscript t => mkChunkResult chunk_id file_name None (Some t)
      | ContentError e => mkChunkResult chunk_id file_name (Some e) None
      end.

(** *** The body of [transcribe_and_summarize_video], step by step

    A step yields [inl r] when the function returns [r] at that point. *)

Definition returning {A B} (m : M (Result J + A)) (k : A → M (Result J + B))
  : M (Result J + B) :=
  do r <- m;
  match r with
  | inl res => ret (inl res)
  | inr a => k a
  end.

(** [download_file_from_url(url, output_path)]. The directory of
    [output_path] is the temp directory, made at the start of the call:
    making it again does nothing. *)
Definition download_file_from_url (url output_path : string) : M string :=
  try_except
    (emit (Get url) ;;
     match url_get ext url with
     | GetRaises e => raise e
     | GetStream written broken =>
         Os.open_wb output_path written ;;
         match broken with
         | Some e => raise e
         | None => ret output_path
         end
     end)
    (fun e => raise (DownloadFailed e)).

(** The name under which a download is saved: the last component of the
    path of the URL, or a generated one when that is empty or has no
    dot. *)
Definition download_name (url : string) : M string :=
  do url_path <- lift (url_path ext url);
  let file_name := Path.basename url_path in
  if String.eqb file_name EmptyString || negb (Py.contains "." file_name) then
    let file_name := "downloaded_file_" +:+ uuid8 ext in
    emit (Head url) ;;
    do extension <- lift (head_extension ext url);
    ret match extension with
        | Some (String c x) => file_name +:+ String c x
        | _ => file_name +:+ ".mp4"
        end
  else ret file_name.

(** The [is_url] branch. *)
Definition resolve_input (video_path temp_dir : string) (is_url : bool)
  : M (Result J + string) :=
  if is_url then
    try_except
      (do file_name <- download_name video_path;
       let download_path := Path.join temp_dir file_name in
       do video_path <- download_file_from_url video_path download_path;
       ret (inr video_path))
      (fun e => ret (inl (Err "Failed to download from URL: " (Some e))))
  else ret (inr video_path).

Definition run_ffmpeg (command : list string) (output : string) : M unit :=
  do written <- lift (ffmpeg ext command);
  Os.write output written.

(** STEP 1: the canonical audio file; yields the final [audio_path]. *)
Definition extract_audio (video_path temp_dir video_name : string)
  : M (Result J + string) :=
  let audio_path := Path.join temp_dir (video_name +:+ ".wav") in
  match get_file_type video_path with
  | Video =>
      try_except
        (Os.makedirs (Path.dirname audio_path) ;;
         run_ffmpeg
           ["ffmpeg"; "-i"; video_path; "-q:a"; "0"; "-map"; "a"; "-vn";
            audio_path; "-y"] audio_path ;;
         ret (inr audio_path))
        (fun e => ret (inl (Err "Audio extraction failed: " (Some e))))
  | Audio =>
      try_except
        (Os.makedirs (Path.dirname audio_path) ;;
         if negb (Path.endswith (Path.lower video_path) ".wav") then
           run_ffmpeg ["ffmpeg"; "-i"; video_path; audio_path; "-y"]
             audio_path ;;
           ret (inr audio_path)
         else if negb (String.eqb video_path audio_path) then
           Os.copy video_path audio_path ;;
           ret (inr audio_path)
         else ret (inr video_path))
        (fun e => ret (inl (Err "Audio conversion failed: " (Some e))))
  end.

(** [range(0, stop, step)] for [stop >= 0]. *)
Definition py_range (stop step : Z) : Exn + list Z :=
  if step =? 0 then inl (ValueError "range() arg 3 must not be zero")
  else if step <? 0 then inr []
  else inr (range_step stop step).

Definition chunk_file (chunks_dir video_name : string) (i : nat) : string :=
  Path.join chunks_dir (video_name +:+ "_chunk_" +:+ Py.str i +:+ ".wav").

(** The splitting loop from index [i] on; yields [audio_chunks]. *)
Fixpoint export_chunks (audio : AudioSegment) (chunk_length_ms : Z)
    (chunks_dir video_name : string) (i : nat) (starts : list Z)
  : M (list string) :=
  match starts with
  | [] => ret []
  | start :: rest =>
      do chunk <-
        lift (slice audio (PyFloat.of_int start)
                (PyFloat.of_int (start + chunk_length_ms)));
      export chunk (chunk_file chunks_dir video_name i) ;;
      do audio_chunks <-
        export_chunks audio chunk_length_ms chunks_dir video_name (S i) rest;
      ret (chunk_file chunks_dir video_name i :: audio_chunks)
  end.

Definition EmptyAudioError : Result J :=
  Err "Failed to split audio into chunks" None.

(** The chunk splitter. *)
Definition split_audio (audio_path chunks_dir video_name : string)
    (chunk_length_sec : Z) : M (Result J + list string) :=
  try_except
    (Os.makedirs chunks_dir ;;
     do audio <- from_file audio_path;
     let chunk_length_ms := chunk_length_sec * 1000 in
     do starts <- lift (py_range (len_ms audio) chunk_length_ms);
     do audio_chunks <-
       export_chunks audio chunk_length_ms chunks_dir video_name 0 starts;
     match audio_chunks with
     | [] => ret (inl EmptyAudioError)
     | _ => ret (inr audio_chunks)
     end)
    (fun e => ret (inl (Err "Audio chunking failed: " (Some e)))).

(** STEP 3. The futures settle in the order [completion] (indices into
    [audio_chunks]); a chunk is processed when its future runs, and its
    result is appended when it settles. A future that raises is dropped. *)
Fixpoint collect (temp_dir : string) (audio_chunks : list string)
    (completion : list nat) : M (list ChunkResult) :=
  match completion with
  | [] => ret []
  | idx :: rest =>
      match audio_chunks !! idx with
      | Some chunk_path =>
          do r <- try_except
                    (do x <- process_audio_chunk temp_dir chunk_path;
                     ret (Some x))
                    (fun _ => ret None);
          do chunks_results <- collect temp_dir audio_chunks rest;
          ret match r with
              | Some x => x :: chunks_results
              | None => chunks_results
              end
      | None => collect temp_dir audio_chunks rest
      end
  end.

Definition dispatch (temp_dir : string) (audio_chunks : list string)
    (concurrency_level : Z) (completion : list nat) : M (list ChunkResult) :=
  if concurrency_level <=? 0
  then raise (ValueError "max_workers must be greater than 0")
  else collect temp_dir audio_chunks completion.

Definition MissingCredentialError : Result J :=
  Err "OpenAI API key not found in environment variables" None.
Definition SummaryParseError (raw : string) : Result J :=
  ErrRaw "Failed to parse JSON summary" raw.
Definition SummarizationError (e : Exn) : Result J :=
  Err "Summarization failed: " (Some e).

(** The summarizer, with the clean-up of its success path. *)
Definition summarize (full_transcript chunks_dir audio_path : string)
  : M (Result J) :=
  try_except
    (do api_key <- Os.getenv_api_key;
     match api_key with
     | None => ret MissingCredentialError
     | Some key =>
         let data := chat_payload full_transcript in
         emit (PostChatCompletion key data) ;;
         match chat ext key data with
         | ChatRaises e => raise e
         | ChatContent summary_text =>
             match json_loads ext summary_text with
             | JsonValue summary_json =>
                 try_except
                   (Os.rmtree chunks_dir ;; Os.remove audio_path)
                   (fun _ => ret tt) ;;
                 ret (Summary summary_json)
             | JSONDecodeError => ret (SummaryParseError summary_text)
             | JsonRaises e => raise e
             end
         end
     end)
    (fun e => ret (SummarizationError e)).

(** STEPS 4 and 5: from the collected results to the returned value. *)
Definition merge_and_summarize (chunks_results : list ChunkResult)
    (chunks_dir audio_path : string) : M (Result J) :=
  match merge_transcripts chunks_results with
  | inl r => ret r
  | inr full_transcript => summarize full_transcript chunks_dir audio_path
  end.

Definition pipeline_body (video_path temp_dir : string)
    (concurrency_level chunk_length_sec : Z) (is_url : bool)
    (completion : list nat) : M (Result J + Result J) :=
  Os.makedirs temp_dir ;;
  returning (resolve_input video_path temp_dir is_url) (fun video_path =>
  let video_filename := Path.basename video_path in
  let video_name := (Path.splitext video_filename).1 in
  let chunks_dir := Path.join temp_dir (video_name +:+ "_chunks") in
  returning (extract_audio video_path temp_dir video_name) (fun audio_path =>
  returning (split_audio audio_path chunks_dir video_name chunk_length_sec)
    (fun audio_chunks =>
  do chunks_results <-
    dispatch temp_dir audio_chunks concurrency_level completion;
  do r <- merge_and_summarize chunks_results chunks_dir audio_path;
  ret (inr r)))).

(** The entry point. The unused [provider] argument is left out;
    [completion] is the order in which the futures of this run settle. *)
Definition transcribe_and_summarize_video (video_path temp_dir : string)
    (concurrency_level chunk_length_sec : Z) (is_url : bool)
    (completion : list nat) (w : World) : Result J * World :=
  match pipeline_body video_path temp_dir concurrency_level chunk_length_sec
          is_url completion w with
  | (inr (inl r), w') | (inr (inr r), w') => (r, w')
  | (inl e, w') => (Uncaught e, w')
  end.

End Pipeline.

(** ** Vocabulary of the statements *)

(** The index the assembler reads from a chunk_id (0 when the key
    computation raises). *)
Definition index (x : ChunkResult) : Z :=
  match sort_key x with
  | inr k => k
  | inl _ => 0
  end.

(** The key computation succeeds on [x]. *)
Definition indexed (x : ChunkResult) : Prop := ∃ k, sort_key x = inr k.

(** The text after the first delimiter of a chunk_id, up to the next one. *)
Definition index_segment (id : string) : option string :=
  Py.split delimiter id !! 1%nat.




(** Texts each followed by one space, as the sub-window loop gathers them. *)
Definition spaced (texts : list string) : string :=
  foldr (fun t acc => t +:+ " " +:+ acc) EmptyString texts.

(** The transcript a reply contributes when the call does not raise. *)
Definition reply_text (r : WhisperReply) : string :=
  match r with
  | WhisperText t => t
  | _ => EmptyString
  end.

Definition reply_raises (r : WhisperReply) : Prop :=
  match r with
  | WhisperRaises _ => True
  | _ => False
  end.

(** The sub-windows of an oversized chunk: [make_chunks] at the duration
    [LIMIT / (len(raw_data) / len(audio))], in float arithmetic. *)
Definition sub_windows (a : AudioSegment) : Exn + list AudioSegment :=
  match PyFloat.truediv (PyFloat.of_int (raw_len a))
                        (PyFloat.of_int (len_ms a)) with
  | inl e => inl e
  | inr bytes_per_ms =>
      match PyFloat.truediv (PyFloat.of_int LIMIT) bytes_per_ms with
      | inl e => inl e
      | inr chunk_duration_ms => make_chunks a chunk_duration_ms
      end
  end.

(** What the client does for the sub-window [c] at index [i]: export,
    upload, delete. *)
Definition sub_window_events (temp_dir file_path key : string) (i : nat)
    (c : AudioSegment) : list Event :=
  [Export (sub_window_path temp_dir file_path i) c;
   PostTranscription key (sub_window_path temp_dir file_path i);
   Remove (sub_window_path temp_dir file_path i)].

(** A request event carries the credential of the environment [k]. *)
Definition bears (k : option string) (e : Event) : Prop :=
  match e with
  | PostTranscription b _ | PostChatCompletion b _ =>
      k = Some b ∧ b ≠ EmptyString
  | _ => True
  end.

Definition is_request (e : Event) : Prop :=
  match e with
  | PostTranscription _ _ | PostChatCompletion _ _ => True
  | _ => False
  end.

Definition is_chat_request (e : Event) : Prop :=
  match e with
  | PostChatCompletion _ _ => True
  | _ => False
  end.

Definition is_rmtree (e : Event) : Prop :=
  match e with
  | Rmtree _ => True
  | _ => False
  end.

(** Since the trace [t0], the world has kept its environment [k] and has
    logged only events that satisfy [P]. *)
Definition logged_only (P : Event → Prop) (k : option string)
    (t0 : list Event) (w : World) : Prop :=
  OPENAI_API_KEY w = k ∧ ∃ evs, trace w = t0 ++ evs ∧ Forall P evs.

(** The temp directory is there. *)
Definition temp_dir_exists (temp_dir : string) (w : World) : Prop :=
  temp_dir ≠ EmptyString ∧ files w !! temp_dir = Some Directory.

(** The clean-up of the success path: [rmtree] then [remove], any exception
    swallowed. *)
Definition clean_up (chunks_dir audio_path : string) : M unit :=
  try_except (Os.rmtree chunks_dir ;; Os.remove audio_path) (fun _ => ret tt).

(** The computation [m] keeps the property [I] of the world. *)
Definition preserves (I : World → Prop) {A} (m : M A) : Prop :=
  ∀ w, I w → I (m w).2.

Definition key_le {A} (a b : Z * A) : Prop := a.1 ≤ b.1.

(** A chunk result as [process_audio_chunk] builds it on success or on a
    missing transcript. *)
Definition cr (id : string) (t : option string) : ChunkResult :=
  mkChunkResult id (id +:+ ".wav") None t.

(** ** A sample run: services that always answer, a 150-second recording *)

(** Every URL has the path [/media/download.mp4] and is downloaded whole;
    every ffmpeg run yields 150 s of 16 kHz mono 16-bit audio; the
    speech-to-text service answers each upload with the file's base name in
    angle brackets; the chat service answers [{}]; [json.loads] returns a
    text that starts with a brace and raises [JSONDecodeError] on any
    other. *)
Definition sample_services : Externals string :=
  mkExternals string
    (fun _ => None)
    (fun _ => inr "/media/download.mp4")
    "1f0c2a9e"
    (fun _ => inr (Some ".mp4"))
    (fun _ => GetStream Blob None)
    (fun _ => inr (Wav (mkAudio 16000 2 2400000)))
    (fun _ p => WhisperText ("<" +:+ Path.basename p +:+ ">"))
    (fun _ _ => ChatContent "{}")
    (fun s => if String.prefix "{" s then JsonValue s else JSONDecodeError).

(** A speech-to-text service that answers every upload with an error
    body. *)
Definition failing_services : Externals string :=
  mkExternals string
    (guess_type sample_services) (url_path sample_services)
    (uuid8 sample_services) (head_extension sample_services)
    (url_get sample_services) (ffmpeg sample_services)
    (fun _ _ => WhisperErrorBody "invalid_api_key")
    (chat sample_services) (json_loads sample_services).

(** A chat service that wraps its answer in prose. *)
Definition chatty_services : Externals string :=
  mkExternals string
    (guess_type sample_services) (url_path sample_services)
    (uuid8 sample_services) (head_extension sample_services)
    (url_get sample_services) (ffmpeg sample_services)
    (whisper sample_services)
    (fun _ _ => ChatContent "Sure! Here is the summary you asked for.")
    (json_loads sample_services).

(** A world holding one audio file. *)
Definition chunk_world (path : string) (a : AudioSegment) (key : option string)
  : World :=
  mkWorld {[ path := Wav a ]} key [].

(** A world holding the input file, with or without the credential. *)
Definition sample_world (input : string) (key : option string) : World :=
  mkWorld {[ input := Blob ]} key [].

(** ** The page of [streamlit_app.py]

    The part of the script that decides whether the Process button is
    enabled and what a click on it does. What the page displays is the
    list of [Shown] elements; the rendering of a summary in its two tabs
    is one element. *)

Module App.

(** An uploaded file: its [name] and what [getbuffer()] holds. *)
Record UploadedFile : Type := mkUploadedFile {
  name : string;
  getbuffer : FileData
}.

(** The entries of [st.session_state] that the script reads. *)
Record SessionState : Type := mkSessionState {
  request_id : string;
  media_source : option string;
  uploaded_file : option UploadedFile;
  video_url : option string;
  api_keys_configured : bool
}.

(** [st.secrets]: every access raises (no secrets file), or the file is
    there, with or without the key. *)
Inductive Secrets : Type :=
| NoSecrets (e : Exn)
| SecretsToml (OPENAI_API_KEY : option string).

(** ["OPENAI_API_KEY" in st.secrets]. *)
Definition contains_key (secrets : Secrets) : Exn + bool :=
  match secrets with
  | NoSecrets e => inl e
  | SecretsToml k => inr (bool_decide (is_Some k))
  end.

(** [st.secrets["OPENAI_API_KEY"]]. *)
Definition get_key (secrets : Secrets) : Exn + string :=
  match secrets with
  | NoSecrets e => inl e
  | SecretsToml None => inl (ExternalError "KeyError: 'OPENAI_API_KEY'")
  | SecretsToml (Some k) => inr k
  end.

(** What the page displays. *)
Inductive Shown (J : Type) : Type :=
| SidebarSuccess (msg : string)
| SidebarError (msg : string) (cause : option Exn)
| Warning (msg : string)
| Error (msg : string)
| SuccessBox (request_id : string)
| SummaryTabs (result : J)
| ErrorBox (msg : string) (cause : option Exn)
| ApplicationError (e : Exn)
| CleanupWarning (e : Exn).
Arguments SidebarSuccess {J} _.
Arguments SidebarError {J} _ _.
Arguments Warning {J} _.
Arguments Error {J} _.
Arguments SuccessBox {J} _.
Arguments SummaryTabs {J} _.
Arguments ErrorBox {J} _ _.
Arguments ApplicationError {J} _.
Arguments CleanupWarning {J} _.

(** [check_api_keys()]: what it shows in the sidebar, and [keys_set]. *)
Definition check_api_keys {J} (secrets : Secrets) : list (Shown J) * bool :=
  match contains_key secrets with
  | inr true =>
      ([SidebarSuccess "OpenAI API key configured from secrets.toml"], true)
  | inr false =>
      ([SidebarError "OpenAI API key not found in secrets.toml" None], false)
  | inl e => ([SidebarError "Error accessing secrets: " (Some e)], false)
  end.

(** Truth value of [st.session_state.get('video_url')]. *)
Definition url_given (s : SessionState) : bool :=
  match video_url s with
  | Some (String _ _) => true
  | _ => false
  end.

Definition file_given (s : SessionState) : bool :=
  bool_decide (is_Some (uploaded_file s)).

Definition process_disabled (s : SessionState) : bool :=
  (negb (file_given s) && negb (url_given s)) || negb (api_keys_configured s).

(** [temp_dir = f"temp_{st.session_state.request_id}"]. *)
Definition temp_dir (s : SessionState) : string := "temp_" +:+ request_id s.

(** The preview of an upload: [st.video], [st.audio] or none, by
    [uploaded_file.name.split('.')[-1].lower()]. *)
Definition file_extension (f : UploadedFile) : string :=
  Path.lower (default EmptyString (last (Py.split "." (name f)))).

Definition preview (f : UploadedFile) : option FileType :=
  let file_extension := file_extension f in
  if bool_decide (file_extension ∈ ["mp4"; "mov"; "avi"; "webm"; "mkv"])
  then Some Video
  else if bool_decide
            (file_extension ∈ ["mp3"; "wav"; "ogg"; "m4a"; "flac"; "aac"])
  then Some Audio
  else None.

(** The parameters of [transcribe_and_summarize_video]. *)
Definition parameters : list string :=
  ["video_path"; "temp_dir"; "provider"; "concurrency_level";
   "chunk_length_sec"; "is_url"].

(** Binding the keyword arguments of a call to it: the first keyword that
    names no parameter makes the call raise TypeError before the body of
    the function runs. *)
Definition unexpected_keyword (keywords : list string) : option string :=
  head (filter (fun k => k ∉ parameters) keywords).

Definition TypeError (keyword : string) : Exn :=
  ExternalError
    ("TypeError: transcribe_and_summarize_video() got an unexpected keyword argument '"
     +:+ keyword +:+ "'").

(** The choice of the radio button [input_method]. *)
Inductive InputMethod : Type := UploadFile | ProvideURL.

(** What the script stores in the session for the widget of the chosen
    input method: the file of the uploader, or the text of the URL field.
    An empty widget stores nothing. *)
Definition store_input (input_method : InputMethod)
    (uploader : option UploadedFile) (url_field : string)
    (s : SessionState) : SessionState :=
  match input_method with
  | UploadFile =>
      match uploader with
      | Some f =>
          mkSessionState (request_id s) (Some "file") (Some f) None
            (api_keys_configured s)
      | None => s
      end
  | ProvideURL =>
      match url_field with
      | String _ _ =>
          mkSessionState (request_id s) (Some "url") None (Some url_field)
            (api_keys_configured s)
      | EmptyString => s
      end
  end.

(** The session of a new visit: none of the three entries of the input
    is set. *)
Definition new_session (request_id : string) : SessionState :=
  mkSessionState request_id None None None false.

(** The sessions that the script can find when it reaches
    [check_api_keys()]: since the last run the request id and the flag of
    the key may have changed, and the input of this run is stored. *)
Inductive reachable : SessionState → Prop :=
| reachable_new request_id : reachable (new_session request_id)
| reachable_rerun s request_id keys_set input_method uploader url_field :
    reachable s →
    reachable
      (store_input input_method uploader url_field
         (mkSessionState request_id (media_source s) (uploaded_file s)
            (video_url s) keys_set)).

(** The three entries of the input agree: none is set, or the source is
    a file and the file is there, or the source is a URL and the URL is
    there. *)
Definition consistent (s : SessionState) : Prop :=
  (media_source s = None ∧ uploaded_file s = None ∧ video_url s = None)
  ∨ (media_source s = Some "file" ∧ is_Some (uploaded_file s)
     ∧ video_url s = None)
  ∨ (media_source s = Some "url" ∧ uploaded_file s = None
     ∧ url_given s = true).

Section Page.

Context {J : Type} (ext : Externals J).

(** A call [transcribe_and_summarize_video(k1=..., k2=..., ...)] with the
    given keywords; an exception that escapes the function is raised
    here. *)
Definition call (keywords : list string) (video_path temp_dir : string)
    (concurrency_level chunk_length_sec : Z) (is_url : bool)
    (completion : list nat) : M (Result J) :=
  match unexpected_keyword keywords with
  | Some k => raise (TypeError k)
  | None =>
      fun w =>
        match transcribe_and_summarize_video ext video_path temp_dir
                concurrency_level chunk_length_sec is_url completion w with
        | (Uncaught e, w') => (inl e, w')
        | (r, w') => (inr r, w')
        end
  end.

(** What the page shows for a returned result. *)
Definition show_result (s : SessionState) (result : Result J)
  : list (Shown J) :=
  match result with
  | Summary summary => [SuccessBox (request_id s); SummaryTabs summary]
  | Err msg cause => [ErrorBox msg cause]
  | ErrRaw msg _ => [ErrorBox msg None]
  | Uncaught e => [ApplicationError e]
  end.

(** The branch of the handler for an uploaded file: the upload is saved
    under the temp directory and the entry point is called on it. The
    arguments of a call are evaluated before the call is made. *)
Definition process_file (s : SessionState) (secrets : Secrets)
    (uploaded_file : UploadedFile) (concurrency chunk_length : Z)
    (completion : list nat) : M (list (Shown J) * Result J) :=
  let temp_file_path := Path.join (temp_dir s) (name uploaded_file) in
  Os.write temp_file_path (getbuffer uploaded_file) ;;
  do api_key <- lift (get_key secrets);
  do result <-
    call ["video_path"; "temp_dir"; "concurrency_level"; "chunk_length_sec";
          "api_key"]
      temp_file_path (temp_dir s) concurrency chunk_length false completion;
  ret ([], result).

(** The branch for a URL. *)
Definition process_url (s : SessionState) (secrets : Secrets)
    (video_url : string) (concurrency chunk_length : Z)
    (completion : list nat) : M (list (Shown J) * Result J) :=
  do api_key <- lift (get_key secrets);
  do result <-
    call ["video_path"; "temp_dir"; "concurrency_level"; "chunk_length_sec";
          "is_url"; "api_key"]
      video_url (temp_dir s) concurrency chunk_length true completion;
  ret ([], result).

(** The branch without input. *)
Definition no_media : M (list (Shown J) * Result J) :=
  ret ([Error "No media input found. Please upload a file or provide a URL."],
       Err "No media input provided" None).

(** The body of the [try] in the handler of the Process button. The
    conditions [media_source == "file" and uploaded_file] and
    [media_source == "url" and video_url] are the values that Python's
    [and] yields. *)
Definition process_try (s : SessionState) (secrets : Secrets)
    (concurrency chunk_length : Z) (completion : list nat)
  : M (list (Shown J)) :=
  Os.makedirs (temp_dir s) ;;
  do shown_result <-
    match (if bool_decide (media_source s = Some "file")
           then uploaded_file s else None) with
    | Some uploaded_file =>
        process_file s secrets uploaded_file concurrency chunk_length
          completion
    | None =>
        match (if bool_decide (media_source s = Some "url")
               then video_url s else None) with
        | Some (String c url) =>
            process_url s secrets (String c url) concurrency chunk_length
              completion
        | _ => no_media
        end
    end;
  ret (shown_result.1 ++ show_result s shown_result.2).

(** The [finally] of the handler: the temp directory is removed when it
    exists; a failure to do so is a warning. *)
Definition clean_temp_dir (s : SessionState) : M (list (Shown J)) :=
  fun w =>
    match files w !! temp_dir s with
    | Some _ =>
        match Os.rmtree (temp_dir s) w with
        | (inr _, w') => (inr [], w')
        | (inl e, w') => (inr [CleanupWarning e], w')
        end
    | None => (inr [], w)
    end.

(** The handler of the Process button: [try], [except Exception],
    [finally]. *)
Definition process (s : SessionState) (secrets : Secrets)
    (concurrency chunk_length : Z) (completion : list nat)
  : M (list (Shown J)) :=
  do shown <-
    try_except (process_try s secrets concurrency chunk_length completion)
      (fun e => ret [ApplicationError e]);
  do warnings <- clean_temp_dir s;
  ret (shown ++ warnings).

(** The script from [check_api_keys()] on: the state of the button, and
    the handler when an enabled button was clicked. *)
Definition page (s : SessionState) (secrets : Secrets) (clicked : bool)
    (concurrency chunk_length : Z) (completion : list nat)
  : M (list (Shown J)) :=
  let '(sidebar, keys_set) := check_api_keys secrets in
  let s := mkSessionState (request_id s) (media_source s) (uploaded_file s)
             (video_url s) keys_set in
  let notice :=
    if process_disabled s then
      if negb (file_given s) && negb (url_given s)
      then [Warning "Please provide a media file or URL before processing."]
      else [Error "The OpenAI API key is not configured in your secrets.toml file."]
    else [] in
  if clicked && negb (process_disabled s) then
    do shown <- process s secrets concurrency chunk_length completion;
    ret (sidebar ++ notice ++ shown)
  else ret (sidebar ++ notice).

End Page.

End App.

(** ** Vocabulary of the further properties *)

Definition is_export (e : Event) : Prop :=
  match e with
  | Export _ _ => True
  | _ => False
  end.

(** The requests of the download: the HEAD and the GET. *)
Definition is_download (e : Event) : Prop :=
  match e with
  | Head _ | Get _ => True
  | _ => False
  end.

(** The messages of the failures that the entry point returns before the
    pool starts, from the assembler, and from the summarizer. *)
Definition early_messages : list string :=
  ["Failed to download from URL: "; "Audio extraction failed: ";
   "Audio conversion failed: "; "Audio chunking failed: ";
   "Failed to split audio into chunks"].
Definition assembler_messages : list string :=
  ["Transcript merging failed: ";
   "No transcript was generated from any audio chunk"].
Definition summarizer_messages : list string :=
  ["OpenAI API key not found in environment variables";
   "Summarization failed: "].

(** The results that are returned after the chat request has been made. *)
Definition summarizer_called {J} (r : Result J) : Prop :=
  match r with
  | Summary _ | ErrRaw _ _ => True
  | Err msg _ => msg = "Summarization failed: "
  | Uncaught _ => False
  end.

(** [video_name], [chunks_dir] and [audio_path] as the entry point derives
    them from the path of its input. *)
Definition video_name_of (video_path : string) : string :=
  (Path.splitext (Path.basename video_path)).1.
Definition chunks_dir_of (temp_dir video_path : string) : string :=
  Path.join temp_dir (video_name_of video_path +:+ "_chunks").
Definition audio_path_of (temp_dir video_path : string) : string :=
  Path.join temp_dir (video_name_of video_path +:+ ".wav").

Section Unfolding.

Context {J : Type} (ext : Externals J).

Variables (video_path temp_dir : string)
          (concurrency_level chunk_length_sec : Z) (is_url : bool)
          (completion : list nat) (w : World).

(** The step at which a run of the entry point ends, with the worlds and
    values handed from step to step. *)
Inductive Unfolds : Result J * World → Prop :=
| ends_at_makedirs e :
    Os.makedirs temp_dir w = (inl e, w) →
    Unfolds (Uncaught e, w)
| ends_at_download w1 r w2 :
    Os.makedirs temp_dir w = (inr tt, w1) →
    resolve_input ext video_path temp_dir is_url w1 = (inr (inl r), w2) →
    Unfolds (r, w2)
| ends_at_normalizer w1 vp w2 r w3 :
    Os.makedirs temp_dir w = (inr tt, w1) →
    resolve_input ext video_path temp_dir is_url w1 = (inr (inr vp), w2) →
    extract_audio ext vp temp_dir (video_name_of vp) w2 = (inr (inl r), w3) →
    Unfolds (r, w3)
| ends_at_splitter w1 vp w2 ap w3 r w4 :
    Os.makedirs temp_dir w = (inr tt, w1) →
    resolve_input ext video_path temp_dir is_url w1 = (inr (inr vp), w2) →
    extract_audio ext vp temp_dir (video_name_of vp) w2 = (inr (inr ap), w3) →
    split_audio ap (chunks_dir_of temp_dir vp) (video_name_of vp)
      chunk_length_sec w3 = (inr (inl r), w4) →
    Unfolds (r, w4)
| ends_at_pool w1 vp w2 ap w3 audio_chunks w4 :
    Os.makedirs temp_dir w = (inr tt, w1) →
    resolve_input ext video_path temp_dir is_url w1 = (inr (inr vp), w2) →
    extract_audio ext vp temp_dir (video_name_of vp) w2 = (inr (inr ap), w3) →
    split_audio (J:=J) ap (chunks_dir_of temp_dir vp) (video_name_of vp)
      chunk_length_sec w3 = (inr (inr audio_chunks), w4) →
    concurrency_level ≤ 0 →
    Unfolds (Uncaught (ValueError "max_workers must be greater than 0"), w4)
| ends_after_pool w1 vp w2 ap w3 audio_chunks w4 rs w5 r w6 :
    Os.makedirs temp_dir w = (inr tt, w1) →
    resolve_input ext video_path temp_dir is_url w1 = (inr (inr vp), w2) →
    extract_audio ext vp temp_dir (video_name_of vp) w2 = (inr (inr ap), w3) →
    split_audio (J:=J) ap (chunks_dir_of temp_dir vp) (video_name_of vp)
      chunk_length_sec w3 = (inr (inr audio_chunks), w4) →
    0 < concurrency_level →
    collect ext temp_dir audio_chunks completion w4 = (inr rs, w5) →
    merge_and_summarize ext rs (chunks_dir_of temp_dir vp) ap w5
    = (inr r, w6) →
    Unfolds (r, w6).

End Unfolding.

(** The results with which a run ends before the pool starts. *)
Definition stops_early {J} (r : Result J) : Prop :=
  match r with
  | Uncaught _ => True
  | Err msg _ => msg ∈ early_messages
  | _ => False
  end.

(** The segments that a list of events exports, and the files that it
    uploads, in order. *)
Definition exported (evs : list Event) : list AudioSegment :=
  omap (fun e => match e with
                 | Export _ segment => Some segment
                 | _ => None
                 end) evs.

(** The bodies of the chat requests among a list of events. *)
Definition chat_requests (evs : list Event) : list ChatPayload :=
  omap (fun e => match e with
                 | PostChatCompletion _ data => Some data
                 | _ => None
                 end) evs.

(** The chunk result [r] is the one built for the chunk file
    [chunk_path]: its names come from the path, and exactly one of its
    [error] and [transcript] is set. *)
Definition result_of (chunk_path : string) (r : ChunkResult) : Prop :=
  file_name r = Path.basename chunk_path
  ∧ chunk_id r = (Path.splitext (Path.basename chunk_path)).1
  ∧ (error r = None ↔ is_Some (transcript r)).

(** A directory path with its final slash, the prefix of everything
    joined to it. *)
Definition slashed (dir : string) : string :=
  if Path.ends_with_char "/" dir then dir else dir +:+ "/".

(** The path that an event concerns. *)
Definition event_path (e : Event) : option string :=
  match e with
  | Export p _ | Remove p | Rmtree p | PostTranscription _ p => Some p
  | PostChatCompletion _ _ | Head _ | Get _ => None
  end.

(** The event concerns no path outside the directory [dir]. *)
Definition inside (dir : string) (e : Event) : Prop :=
  match event_path e with
  | Some p => Os.under dir p = true
  | None => True
  end.

(** Whether the name of the download is a generated one, which takes a
    HEAD request. *)
Definition head_sent {J} (ext : Externals J) (url : string) : bool :=
  match url_path ext url with
  | inl _ => false
  | inr path =>
      let file_name := Path.basename path in
      String.eqb file_name EmptyString || negb (Py.contains "." file_name)
  end.

(** The requests of a download that gets as far as its GET. *)
Definition download_requests {J} (ext : Externals J) (url : string)
  : list Event :=
  (if head_sent ext url then [Head url] else []) ++ [Get url].

(** The name that [download_name] yields for a URL, or what it raises. *)
Definition saved_name {J} (ext : Externals J) (url : string) : Exn + string :=
  match url_path ext url with
  | inl e => inl e
  | inr path =>
      let file_name := Path.basename path in
      if String.eqb file_name EmptyString || negb (Py.contains "." file_name)
      then
        match head_extension ext url with
        | inl e => inl e
        | inr (Some (String c x)) =>
            inr ("downloaded_file_" +:+ uuid8 ext +:+ String c x)
        | inr _ => inr ("downloaded_file_" +:+ uuid8 ext +:+ ".mp4")
        end
      else inr file_name
  end.

(** The path of the input once the [is_url] branch is through: the
    download path for a URL, the given path otherwise. *)
Definition input_path {J} (ext : Externals J) (video_path temp_dir : string)
    (is_url : bool) : string :=
  if is_url then
    match saved_name ext video_path with
    | inr file_name => Path.join temp_dir file_name
    | inl _ => video_path
    end
  else video_path.

(** The chunks directory is there and the audio file is a regular
    file. *)
Definition intermediates_in_place (chunks_dir audio_path : string)
    (w : World) : Prop :=
  files w !! chunks_dir = Some Directory
  ∧ ∃ d, files w !! audio_path = Some d ∧ d ≠ Directory.

(** The world [w] gives the chunks the same to read as [w0] does: the
    same credential, directories at the same paths, and the same contents
    at the chunk files. *)
Definition same_inputs (audio_chunks : list string) (w0 w : World) : Prop :=
  OPENAI_API_KEY w = OPENAI_API_KEY w0
  ∧ (∀ p, files w !! p = Some Directory ↔ files w0 !! p = Some Directory)
  ∧ ∀ q, q ∈ audio_chunks → files w !! q = files w0 !! q.

(** ** More samples *)

(** A speech-to-text service that is unreachable for every file whose
    name ends in [_chunk_1.wav] and answers as the sample service for the
    others. *)
Definition raising_services : Externals string :=
  mkExternals string
    (guess_type sample_services) (url_path sample_services)
    (uuid8 sample_services) (head_extension sample_services)
    (url_get sample_services) (ffmpeg sample_services)
    (fun key p =>
       if Path.endswith p "_chunk_1.wav"
       then WhisperRaises (ExternalError "ConnectionError")
       else whisper sample_services key p)
    (chat sample_services) (json_loads sample_services).

(** A URL without a file name whose download breaks off after the first
    bytes. *)
Definition broken_download_services : Externals string :=
  mkExternals string
    (guess_type sample_services) (fun _ => inr "/stream/")
    (uuid8 sample_services) (head_extension sample_services)
    (fun _ => GetStream Blob (Some (ExternalError "ChunkedEncodingError")))
    (ffmpeg sample_services) (whisper sample_services)
    (chat sample_services) (json_loads sample_services).

(** [s * n] *)
Fixpoint repeated (s : string) (n : nat) : string :=
  match n with
  | O => EmptyString
  | S n' => s +:+ repeated s n'
  end.

(** A chat service that answers with two thousand opening brackets, a
    text on which [json.loads] raises RecursionError. *)
Definition nested_services : Externals string :=
  mkExternals string
    (guess_type sample_services) (url_path sample_services)
    (uuid8 sample_services) (head_extension sample_services)
    (url_get sample_services) (ffmpeg sample_services)
    (whisper sample_services)
    (fun _ _ => ChatContent (repeated "[" 2000))
    (fun s => if String.eqb s (repeated "[" 2000)
              then JsonRaises (ExternalError "RecursionError")
              else json_loads sample_services s).

(** An oversized chunk: 380,436 ms of 44.1 kHz mono 24-bit audio. *)
Definition oversized : AudioSegment := mkAudio 44100 3 16777216.

(** Its sub-windows. *)
Definition oversized_windows : list AudioSegment :=
  match sub_windows oversized with
  | inr chunks => chunks
  | inl _ => []
  end.

(** A world in which the summarizer finds the chunks directory, one chunk
    file and the audio file of a recording named [talk]. *)
Definition summarizer_world : World :=
  mkWorld
    {[ "tmp" := Directory;
       "tmp/talk.wav" := Wav (mkAudio 16000 2 2400000);
       "tmp/talk_chunks" := Directory;
       "tmp/talk_chunks/talk_chunk_0.wav" := Wav (mkAudio 16000 2 960000) ]}
    (Some "sk") [].

(** A session with an uploaded file, and one with a URL. *)
Definition upload_session : App.SessionState :=
  App.mkSessionState "ab12cd34" (Some "file")
    (Some (App.mkUploadedFile "Talk.MP3" Blob)) None true.

Definition empty_world : World := mkWorld ∅ None [].

(** * Properties *)

(** ** Strings *)

Section Strings.

Lemma append_cons c s t : String c s +:+ t = String c (s +:+ t).
Proof. done. Qed.

Lemma append_assoc (a b c : string) : (a +:+ b) +:+ c = a +:+ b +:+ c.
Proof. induction a as [|x a IH]; [done|]. rewrite !append_cons. by rewrite IH. Qed.

Lemma append_nil_r (a : string) : a +:+ EmptyString = a.
Proof. induction a as [|x a IH]; [done|]. rewrite append_cons. by rewrite IH. Qed.

Lemma length_append s t :
  String.length (s +:+ t) = (String.length s + String.length t)%nat.
Proof. induction s as [|c s IH]; [done|]. rewrite append_cons. simpl. by rewrite IH. Qed.

Lemma prefix_nil s : String.prefix EmptyString s = true.
Proof. by destruct s. Qed.

Lemma prefix_cons a b s1 s2 :
  String.prefix (String a s1) (String b s2)
  = if ascii_dec a b then String.prefix s1 s2 else false.
Proof. done. Qed.

Lemma prefix_append_same t r : String.prefix t (t +:+ r) = true.
Proof.
  induction t as [|c t IH]; [apply prefix_nil|].
  rewrite append_cons, prefix_cons. by destruct (ascii_dec c c).
Qed.

Lemma contains_prefix sep s :
  String.prefix sep s = true → Py.contains sep s = true.
Proof. destruct s; cbn [Py.contains]; by intros ->. Qed.

Lemma contains_embedded pre t post :
  Py.contains t (pre +:+ t +:+ post) = true.
Proof.
  induction pre as [|c pre IH].
  - change (EmptyString +:+ t +:+ post) with (t +:+ post).
    apply contains_prefix, prefix_append_same.
  - rewrite append_cons. cbn [Py.contains]. rewrite IH.
    by destruct (String.prefix _ _).
Qed.

End Strings.
(** ** The assembler *)

Section Assembler.

Context {J : Type}.

Lemma decorate_indexed l :
  (∀ x, x ∈ l → indexed x) →
  decorate l = inr ((fun x => (index x, x)) <$> l).
Proof.
  induction l as [|x l IH]; intros Hl; simpl; [done|].
  destruct (Hl x) as [k Hk]; [left|].
  rewrite IH by (intros y Hy; apply Hl; by right).
  unfold index. by rewrite Hk.
Qed.


Lemma insert_stable_perm {A} (kx : Z * A) l : insert_stable kx l ≡ₚ kx :: l.
Proof.
  induction l as [|ky l IH]; simpl; [done|].
  case_match; [|done]. rewrite IH. apply Permutation_swap.
Qed.

Lemma stable_sort_perm {A} (l : list (Z * A)) : stable_sort l ≡ₚ l.
Proof.
  induction l as [|kx l IH]; simpl; [done|].
  rewrite insert_stable_perm. by rewrite IH.
Qed.

Lemma insert_stable_sorted {A} (kx : Z * A) l :
  StronglySorted key_le l → StronglySorted key_le (insert_stable kx l).
Proof.
  induction 1 as [|ky l Hs IH Hall]; simpl.
  - repeat constructor.
  - destruct (Z.ltb_spec ky.1 kx.1) as [Hlt|Hge].
    + constructor; [done|].
      rewrite insert_stable_perm. constructor; [unfold key_le; lia|done].
    + constructor; [by constructor|].
      constructor; [done|].
      eapply Forall_impl; [exact Hall|]. unfold key_le. intros; simpl in *. lia.
Qed.

Lemma stable_sort_sorted {A} (l : list (Z * A)) :
  StronglySorted key_le (stable_sort l).
Proof.
  induction l; simpl; [constructor|by apply insert_stable_sorted].
Qed.

(** A sorted permutation of the decorated list, undecorated, is sorted by
    index. *)
Lemma undecorate_sorted (d : list (Z * ChunkResult)) :
  Forall (fun kx => kx.1 = index kx.2) d →
  StronglySorted key_le d →
  StronglySorted (fun x y => index x ≤ index y) (d.*2).
Proof.
  intros Hd Hs. induction Hs as [|kx d Hs IH Hall]; simpl; [constructor|].
  apply Forall_cons in Hd as [Hk Hd].
  constructor; [by apply IH|].
  apply Forall_fmap. rewrite Forall_forall in Hall, Hd |- *.
  intros ky Hy. specialize (Hall ky Hy). specialize (Hd ky Hy).
  unfold key_le in Hall. simpl. lia.
Qed.

Lemma sorted_indexed l :
  (∀ x, x ∈ l → indexed x) →
  ∃ s, sorted l = inr s ∧ s ≡ₚ l
       ∧ StronglySorted (fun x y => index x ≤ index y) s.
Proof.
  intros Hl. unfold sorted. rewrite (decorate_indexed l Hl).
  set (d := (fun x => (index x, x)) <$> l).
  assert (Hperm : stable_sort d ≡ₚ d) by apply stable_sort_perm.
  exists ((stable_sort d).*2). split; [done|]. split.
  - rewrite Hperm. unfold d. rewrite <- list_fmap_compose.
    by rewrite list_fmap_id.
  - apply undecorate_sorted; [|apply stable_sort_sorted].
    rewrite Hperm. unfold d. by apply Forall_fmap, Forall_true.
Qed.

Lemma strictly_sorted (s : list ChunkResult) :
  NoDup (index <$> s) →
  StronglySorted (fun x y => index x ≤ index y) s →
  StronglySorted (fun x y => index x < index y) s.
Proof.
  intros Hnd Hs. induction Hs as [|x s Hs IH Hall]; [constructor|].
  rewrite fmap_cons in Hnd. apply NoDup_cons in Hnd as [Hx Hnd].
  constructor; [by apply IH|].
  rewrite Forall_forall in Hall |- *. intros y Hy.
  specialize (Hall y Hy).
  assert (index x ≠ index y); [|lia].
  intros Heq. apply Hx. rewrite Heq. by apply list_elem_of_fmap_2.
Qed.

Lemma sorted_distinct l :
  (∀ x, x ∈ l → indexed x) → NoDup (index <$> l) →
  ∃ s, sorted l = inr s ∧ s ≡ₚ l
       ∧ StronglySorted (fun x y => index x < index y) s.
Proof.
  intros Hl Hnd. destruct (sorted_indexed l Hl) as (s & Hs & Hp & Hsort).
  exists s. repeat split; [done..|].
  apply strictly_sorted; [|done]. by rewrite Hp.
Qed.

Lemma strictly_sorted_unique (s1 s2 : list ChunkResult) :
  StronglySorted (fun x y => index x < index y) s1 →
  StronglySorted (fun x y => index x < index y) s2 →
  s1 ≡ₚ s2 → s1 = s2.
Proof.
  intros H1 H2 Hp. eapply StronglySorted_unique_strong; [|done..].
  intros x1 x2 _ _ Ha Hb. simpl in Ha, Hb. lia.
Qed.

(** The sort is stable: entries of equal index keep their order. *)
Lemma insert_stable_filter {A} (k : Z) (kx : Z * A) l :
  filter (fun p : Z * A => p.1 = k) (insert_stable kx l)
  = filter (fun p : Z * A => p.1 = k) (kx :: l).
Proof.
  induction l as [|ky l IH]; simpl; [done|].
  destruct (Z.ltb_spec ky.1 kx.1) as [Hlt|Hge]; [|done].
  rewrite (filter_cons _ ky), IH, !filter_cons.
  repeat case_decide; try done; lia.
Qed.

Lemma stable_sort_filter {A} (k : Z) (l : list (Z * A)) :
  filter (fun p : Z * A => p.1 = k) (stable_sort l)
  = filter (fun p : Z * A => p.1 = k) l.
Proof.
  induction l as [|kx l IH]; simpl; [done|].
  by rewrite insert_stable_filter, !filter_cons, IH.
Qed.

Lemma undecorate_filter (k : Z) (d : list (Z * ChunkResult)) :
  Forall (fun kx => kx.1 = index kx.2) d →
  filter (fun x => index x = k) (d.*2)
  = (filter (fun p : Z * ChunkResult => p.1 = k) d).*2.
Proof.
  induction 1 as [|kx d Hk Hd IH]; [done|].
  rewrite fmap_cons, !filter_cons, IH. rewrite Hk.
  by case_decide.
Qed.

Lemma sorted_stable l s k :
  (∀ x, x ∈ l → indexed x) → sorted l = inr s →
  filter (fun x => index x = k) s = filter (fun x => index x = k) l.
Proof.
  intros Hl. unfold sorted. rewrite (decorate_indexed l Hl).
  intros [= <-].
  set (d := (fun x => (index x, x)) <$> l).
  assert (Hd : Forall (fun kx : Z * ChunkResult => kx.1 = index kx.2) d)
    by (by apply Forall_fmap, Forall_true).
  rewrite undecorate_filter by (by rewrite stable_sort_perm).
  rewrite stable_sort_filter, <- undecorate_filter by done.
  unfold d. by rewrite <- list_fmap_compose, list_fmap_id.
Qed.

End Assembler.

Section AssemblerClaims.

Context {J : Type}.

Lemma merge_transcripts_sorted (l s : list ChunkResult) :
  sorted l = inr s →
  merge_transcripts (J:=J) l =
    match Py.join " " (transcripts s) with
    | EmptyString => inl NoTranscriptError
    | String c t => inr (String c t)
    end.
Proof. unfold merge_transcripts. intros ->. by destruct (Py.join _ _). Qed.

(** When every chunk_id yields a key, the assembler's output is the
    single-space join of the non-null, non-empty transcripts taken in
    ascending order of the keys, entries of equal key in the order in
    which they were collected (or the no-transcript failure when that join
    is empty); when the keys are pairwise distinct, the output is the
    same for every order of collection. *)
Lemma assembler_ordered_join (l : list ChunkResult) :
  (∀ x, x ∈ l → indexed x) →
  ∃ s, s ≡ₚ l
     ∧ StronglySorted (fun x y => index x ≤ index y) s
     ∧ (∀ k, filter (fun x => index x = k) s
             = filter (fun x => index x = k) l)
     ∧ merge_transcripts (J:=J) l =
         match Py.join " " (transcripts s) with
         | EmptyString => inl NoTranscriptError
         | String c t => inr (String c t)
         end
     ∧ (NoDup (index <$> l) →
        ∀ l', l' ≡ₚ l →
              merge_transcripts (J:=J) l' = merge_transcripts l).
Proof.
  intros Hl.
  destruct (sorted_indexed l Hl) as (s & Hs & Hps & Hsort).
  exists s. split; [done|]. split; [done|]. split; [|split].
  - intros k. by apply sorted_stable.
  - by apply merge_transcripts_sorted.
  - intros Hnd l' Hp.
    destruct (sorted_distinct l Hl Hnd) as (s1 & Hs1 & Hps1 & Hsort1).
    destruct (sorted_distinct l') as (s2 & Hs2 & Hps2 & Hsort2).
    { intros x Hx. apply Hl. by rewrite <- Hp. }
    { by rewrite Hp. }
    assert (s2 = s1) as ->.
    { apply strictly_sorted_unique; [done..|]. by rewrite Hps2, Hps1. }
    by rewrite (merge_transcripts_sorted l s1), (merge_transcripts_sorted l' s1).
Qed.

(** A chunk_id whose text after the first delimiter is no integer literal
    makes the key computation raise. *)
Lemma contains_false_split sep s :
  Py.contains sep s = false → Py.split_go sep 0 s = [s].
Proof.
  induction s as [|c s IH]; [done|].
  cbn [Py.contains Py.split_go]. intros [Hp Hc]%orb_false_iff.
  rewrite Hp. by rewrite IH.
Qed.

Lemma index_segment_contains id seg :
  index_segment id = Some seg → Py.contains delimiter id = true.
Proof.
  unfold index_segment, Py.split. intros Hseg.
  destruct (Py.contains delimiter id) eqn:Hc; [done|].
  by rewrite (contains_false_split _ _ Hc) in Hseg.
Qed.

Lemma sort_key_segment x seg :
  index_segment (chunk_id x) = Some seg →
  sort_key x = match Py.int seg with
               | Some k => inr k
               | None => inl (ValueError seg)
               end.
Proof.
  intros Hseg. unfold sort_key.
  rewrite (index_segment_contains _ _ Hseg).
  unfold index_segment in Hseg. by rewrite Hseg.
Qed.


Lemma transcripts_none (l : list ChunkResult) :
  (∀ x, x ∈ l → truthy (transcript x) = false) → transcripts l = [].
Proof.
  induction l as [|x l IH]; intros Hl; [done|].
  unfold transcripts in *. cbn [omap list_omap].
  rewrite (Hl x) by left. apply IH. intros y Hy. apply Hl. by right.
Qed.

(** With no usable transcript the assembler fails, one way or the other,
    and hands nothing to the summarizer. *)
Lemma merge_transcripts_all_empty (l : list ChunkResult) :
  (∀ x, x ∈ l → truthy (transcript x) = false) →
  merge_transcripts (J:=J) l = inl NoTranscriptError
  ∨ ∃ e, merge_transcripts (J:=J) l = inl (TranscriptMergingFailed e).
Proof.
  intros Hl. unfold merge_transcripts, sorted.
  destruct (decorate l) as [e|d] eqn:Hd; [right; eauto|left].
  rewrite transcripts_none; [done|].
  intros x Hx. apply Hl.
  assert (Hdl : d.*2 = l).
  { clear -Hd. revert d Hd. induction l as [|y l IH]; intros d; simpl.
    - by intros [= <-].
    - destruct (sort_key y); [done|]. destruct (decorate l); [done|].
      intros [= <-]. simpl. f_equal. by apply IH. }
  rewrite (stable_sort_perm d), Hdl in Hx. done.
Qed.

End AssemblerClaims.

Section AssemblerRuns.

Context {J : Type} (ext : Externals J).

(** With no usable transcript the call ends in the assembler: the world,
    and with it the log of requests, is left as it was. *)
Lemma no_transcript_no_request (rs : list ChunkResult) cd ap w :
  (∀ x, x ∈ rs → truthy (transcript x) = false) →
  ∃ r, merge_and_summarize ext rs cd ap w = (inr r, w)
       ∧ (r = NoTranscriptError ∨ ∃ e, r = TranscriptMergingFailed e)
       ∧ ((∀ x, x ∈ rs → indexed x) → r = NoTranscriptError).
Proof.
  intros Hrs. unfold merge_and_summarize.
  destruct (merge_transcripts_all_empty (J:=J) rs Hrs) as [H|[e H]];
    rewrite H.
  - exists NoTranscriptError. eauto.
  - exists (TranscriptMergingFailed e). repeat split; [eauto|].
    intros Hall. exfalso. revert H. unfold merge_transcripts.
    destruct (sorted_indexed rs Hall) as (s & -> & _).
    by destruct (Py.join _ _).
Qed.


End AssemblerRuns.

Example assembler_ordered_join_sample :
  let l := [cr "v_chunk_10" (Some "c"); cr "v_chunk_2" (Some "b");
            cr "v_chunk_0" (Some "a"); cr "v_chunk_1" None] in
  ∃ s, s ≡ₚ l
     ∧ StronglySorted (fun x y => index x ≤ index y) s
     ∧ (∀ k, filter (fun x => index x = k) s
             = filter (fun x => index x = k) l)
     ∧ merge_transcripts (J:=unit) l =
         match Py.join " " (transcripts s) with
         | EmptyString => inl NoTranscriptError
         | String c t => inr (String c t)
         end
     ∧ (NoDup (index <$> l) →
        ∀ l', l' ≡ₚ l → merge_transcripts (J:=unit) l' = merge_transcripts l).
Proof.
  intros l. apply (assembler_ordered_join l).
  intros x Hx. unfold l in Hx.
  repeat (apply elem_of_cons in Hx as [->|Hx]);
    [eexists; vm_compute; reflexivity..|by apply elem_of_nil in Hx].
Qed.

(** C1, at a recording named [a_chunk_5] that is cut into three chunks
    whose futures settle in the order 2, 0, 1: the key of every chunk is
    the 5 of the name, read after the first delimiter, so the sort leaves
    the results in the order of completion, and the transcript sent to the
    summarizer starts with the text of chunk 2, where the ascending order
    of the chunk indices is 0, 1, 2; the transcript depends on the order
    of completion. *)
Theorem C1_delimited_name_keeps_completion_order :
  let run completion :=
    transcribe_and_summarize_video sample_services "in/a_chunk_5.mp4" "tmp"
      5 60 false completion (sample_world "in/a_chunk_5.mp4" (Some "sk")) in
  let result (i : nat) :=
    mkChunkResult ("a_chunk_5_chunk_" +:+ Py.str i)
      ("a_chunk_5_chunk_" +:+ Py.str i +:+ ".wav") None
      (Some ("<a_chunk_5_chunk_" +:+ Py.str i +:+ ".wav>")) in
  (collect sample_services "tmp"
     (chunk_file "tmp/a_chunk_5_chunks" "a_chunk_5" <$> [0; 1; 2]%nat)
     [2; 0; 1]%nat
     (split_audio (J:=string) "tmp/a_chunk_5.wav" "tmp/a_chunk_5_chunks"
        "a_chunk_5" 60
        (mkWorld {[ "tmp/a_chunk_5.wav" := Wav (mkAudio 16000 2 2400000) ]}
           (Some "sk") [])).2).1
  = inr [result 2%nat; result 0%nat; result 1%nat]
  ∧ sort_key <$> [result 2%nat; result 0%nat; result 1%nat]
    = [inr 5; inr 5; inr 5]
  ∧ chat_requests (trace (run [2; 0; 1]%nat).2)
    = [chat_payload
         "<a_chunk_5_chunk_2.wav> <a_chunk_5_chunk_0.wav> <a_chunk_5_chunk_1.wav>"]
  ∧ chat_requests (trace (run [0; 1; 2]%nat).2)
    = [chat_payload
         "<a_chunk_5_chunk_0.wav> <a_chunk_5_chunk_1.wav> <a_chunk_5_chunk_2.wav>"]
  ∧ (run [2; 0; 1]%nat).1 = Summary "{}".
Proof. cbv zeta. repeat split; vm_compute; reflexivity. Qed.

(** C2, at a recording named [a_chunk_b] for which no chunk yields a
    transcript: the call returns the transcript-merging failure, not the
    no-transcript failure (and sends no request). *)
Theorem C2_merging_failure_hides_no_transcript :
  let rs := [cr "a_chunk_b_chunk_0" None; cr "a_chunk_b_chunk_1" (Some "")] in
  let run := transcribe_and_summarize_video sample_services
               "in/a_chunk_b.mp4" "tmp" 5 60 false [0; 1; 2]%nat
               (sample_world "in/a_chunk_b.mp4" None) in
  (∀ x, x ∈ rs → truthy (transcript x) = false)
  ∧ merge_and_summarize sample_services rs "tmp/a_chunk_b_chunks"
      "tmp/a_chunk_b.wav" (sample_world "in/a_chunk_b.mp4" None)
    = (inr (TranscriptMergingFailed (ValueError "b")),
       sample_world "in/a_chunk_b.mp4" None)
  ∧ run.1 = TranscriptMergingFailed (ValueError "b")
  ∧ run.1 ≠ NoTranscriptError
  ∧ Forall (fun e => match e with Export _ _ => True | _ => False end)
      (trace run.2).
Proof.
  cbv zeta. split; [|split; [|split; [|split]]].
  - intros x Hx. repeat (apply elem_of_cons in Hx as [->|Hx]); [done..|].
    by apply elem_of_nil in Hx.
  - vm_compute. reflexivity.
  - vm_compute. reflexivity.
  - vm_compute. discriminate.
  - vm_compute. repeat constructor.
Qed.



(** ** The chunk splitter *)







Section Splitter.

Context {J : Type} (ext : Externals J).

Lemma makedirs_ok p w :
  p ≠ EmptyString →
  files w !! p = None ∨ files w !! p = Some Directory →
  Os.makedirs p w = (inr tt, set_files (fun _ => <[p := Directory]> (files w)) w).
Proof.
  intros Hp Hw. unfold Os.makedirs. destruct p as [|c p]; [done|].
  destruct Hw as [-> | Hd]; [done|]. rewrite Hd.
  f_equal. destruct w as [fs k t]. unfold set_files; simpl in *.
  f_equal. by rewrite insert_id.
Qed.

Lemma export_ok seg p w :
  files w !! p ≠ Some Directory →
  export seg p w
  = (inr tt, log (Export p seg) (set_files (insert p (Wav seg)) w)).
Proof.
  intros Hp. unfold export, bind, Os.write, emit.
  destruct (files w !! p) as [[]|]; done.
Qed.


Section Loop.

Variables (source : AudioSegment) (chunk_length_ms : Z)
          (chunks_dir video_name : string).



End Loop.


End Splitter.

(** ** The transcription client *)

Section Client.

Context {J : Type} (ext : Externals J).

(** Each text followed by a space: the single-space join and one more
    space at the end. *)
Lemma spaced_join (texts : list string) :
  texts ≠ [] → spaced texts = Py.join " " texts +:+ " ".
Proof.
  induction texts as [|t [|t' texts] IH]; intros Hne; [done|done|].
  change (spaced (t :: t' :: texts)) with (t +:+ " " +:+ spaced (t' :: texts)).
  rewrite IH by done.
  change (Py.join " " (t :: t' :: texts))
    with (t +:+ " " +:+ Py.join " " (t' :: texts)).
  by rewrite !append_assoc.
Qed.

(** The client never raises: what goes wrong inside comes back as an
    [error] entry. *)
Lemma audio_to_text_single_call_returns file_path temp_dir w :
  ∃ c w', audio_to_text_single_call ext file_path temp_dir w = (inr c, w').
Proof.
  unfold audio_to_text_single_call, try_except.
  destruct (bind _ _ w) as [[e|c] w']; unfold ret; eauto.
Qed.

Lemma process_audio_chunk_returns temp_dir chunk_path w :
  ∃ r w', process_audio_chunk ext temp_dir chunk_path w = (inr r, w').
Proof.
  unfold process_audio_chunk, bind.
  destruct (audio_to_text_single_call_returns chunk_path temp_dir w)
    as (c & w' & ->).
  unfold ret. eauto.
Qed.

Lemma getenv_api_key_some key w :
  OPENAI_API_KEY w = Some key → key ≠ EmptyString →
  Os.getenv_api_key w = (inr (Some key), w).
Proof.
  intros Hk Hne. unfold Os.getenv_api_key. rewrite Hk. by destruct key.
Qed.

Lemma getenv_api_key_none w :
  OPENAI_API_KEY w = None ∨ OPENAI_API_KEY w = Some EmptyString →
  Os.getenv_api_key w = (inr None, w).
Proof. unfold Os.getenv_api_key. by intros [-> | ->]. Qed.

(** One upload that does not raise: a single request, and the text of the
    reply (empty for an error body). *)
Lemma transcribe_with_openai_whisper_ok key file_path w d :
  OPENAI_API_KEY w = Some key → key ≠ EmptyString →
  files w !! file_path = Some d → d ≠ Directory →
  ¬ reply_raises (whisper ext key file_path) →
  ∃ response_json,
    transcribe_with_openai_whisper ext file_path w
    = (inr (response_json, reply_text (whisper ext key file_path)),
       log (PostTranscription key file_path) w).
Proof.
  intros Hk Hne Hf Hd Hr. unfold transcribe_with_openai_whisper, bind at 1.
  rewrite (getenv_api_key_some key) by done.
  unfold bind at 1, Os.open_rb. rewrite Hf.
  destruct d; [done| |]; unfold bind, emit;
    destruct (whisper ext key file_path); simpl in *; try done; eauto.
Qed.

(** Without a credential nothing is sent and the transcript is empty. *)
Lemma transcribe_with_openai_whisper_no_key file_path w :
  OPENAI_API_KEY w = None ∨ OPENAI_API_KEY w = Some EmptyString →
  transcribe_with_openai_whisper ext file_path w
  = (inr (KeyNotFound, EmptyString), w).
Proof.
  intros Hk. unfold transcribe_with_openai_whisper, bind.
  by rewrite getenv_api_key_none.
Qed.

Section SubWindows.

Variables (temp_dir file_path key : string).

Let path (i : nat) : string := sub_window_path temp_dir file_path i.
Let text (i : nat) : string := reply_text (whisper ext key (path i)).

Lemma transcribe_sub_windows_ok chunks : ∀ i w transcript,
  OPENAI_API_KEY w = Some key → key ≠ EmptyString →
  (∀ k, files w !! path k ≠ Some Directory) →
  (∀ k, (i ≤ k < i + length chunks)%nat →
        ¬ reply_raises (whisper ext key (path k))) →
  ∃ w',
    transcribe_sub_windows ext temp_dir file_path i chunks transcript w
    = (inr (transcript +:+ spaced (text <$> seq i (length chunks))), w')
    ∧ trace w' = trace w
        ++ concat (imap (fun k => sub_window_events temp_dir file_path key (i + k)) chunks).
Proof.
  induction chunks as [|c chunks IH]; intros i w transcript Hk Hne Hdir Hr.
  - exists w. simpl. rewrite append_nil_r, app_nil_r.
    done.
  - cbn [transcribe_sub_windows]. fold (path i).
    unfold bind at 1. rewrite export_ok by apply Hdir.
    set (w1 := log _ _).
    destruct (transcribe_with_openai_whisper_ok key (path i) w1 (Wav c))
      as [rj Hcall]; [done|done| |done| |].
    { unfold w1; simpl. by rewrite lookup_insert_eq. }
    { apply Hr. simpl. lia. }
    unfold bind at 1. rewrite Hcall. cbn [snd].
    set (w2 := log _ w1).
    unfold bind at 1, Os.remove.
    replace (files w2 !! path i) with (Some (Wav c))
      by (unfold w2, w1; simpl; by rewrite lookup_insert_eq).
    set (w3 := log _ _).
    assert (Hfiles3 : files w3 = delete (path i) (files w)).
    { unfold w3, w2, w1; simpl. by rewrite delete_insert_eq. }
    destruct (IH (S i) w3 (transcript +:+ text i +:+ " "))
      as (w' & Hrun & Htr); [done|done| | |].
    { intros k. rewrite Hfiles3.
      destruct (decide (path i = path k)) as [<-|Hne'].
      - by rewrite lookup_delete_eq.
      - rewrite lookup_delete_ne by done. apply Hdir. }
    { intros k Hk'. apply Hr. simpl. lia. }
    exists w'. fold (text i). rewrite Hrun. split.
    + cbn [length seq fmap list_fmap spaced foldr].
      by rewrite !append_assoc.
    + rewrite Htr, imap_cons. cbn [concat]. rewrite Nat.add_0_r.
      unfold w3, w2, w1, sub_window_events at 2; simpl.
      rewrite <- !app_assoc. simpl. do 5 f_equal.
      apply imap_ext. intros k x _. simpl. f_equal. lia.
Qed.

End SubWindows.

(** The run of the client when the credential is set and no call raises.
    A chunk at or under the limit is transcribed in one call. A chunk
    above it is cut by [make_chunks] at the duration
    [LIMIT / bytes-per-millisecond]; the sub-windows are exported, uploaded
    and deleted one after the other, in order, each file deleted right
    after its own call, and the transcript is every text followed by one
    space. *)
Lemma transcription_client_run
    (file_path temp_dir key : string) (w : World) (a : AudioSegment) :
  files w !! file_path = Some (Wav a) →
  OPENAI_API_KEY w = Some key →
  key ≠ EmptyString →
  (∀ k, files w !! sub_window_path temp_dir file_path k ≠ Some Directory) →
  (∀ p, ¬ reply_raises (whisper ext key p)) →
  let run := audio_to_text_single_call ext file_path temp_dir w in
  let text p := reply_text (whisper ext key p) in
  if decide (raw_len a ≤ LIMIT) then
    run = (inr (ContentTranscript (text file_path)),
           log (PostTranscription key file_path) w)
  else
    match sub_windows a with
    | inl e => run = (inr (ContentError e), w)
    | inr chunks =>
        ∃ w',
          run = (inr (ContentTranscript
                        (spaced ((fun k => text (sub_window_path temp_dir file_path k))
                                   <$> seq 0 (length chunks)))), w')
          ∧ trace w' = trace w
              ++ concat (imap (sub_window_events temp_dir file_path key) chunks)
    end.
Proof.
  intros Hf Hk Hne Hdir Hr run text. unfold run.
  unfold audio_to_text_single_call, sub_windows, from_file, Os.open_rb.
  unfold try_except, bind, ret, lift. rewrite Hf.
  destruct (decide (raw_len a ≤ LIMIT)) as [Hle|Hgt].
  - destruct (Z.ltb_spec LIMIT (raw_len a)); [lia|].
    destruct (transcribe_with_openai_whisper_ok key file_path w (Wav a))
      as [rj Hcall]; [done|done|done|done|apply Hr|].
    by rewrite Hcall.
  - destruct (Z.ltb_spec LIMIT (raw_len a)); [|lia].
    destruct (PyFloat.truediv _ (PyFloat.of_int (len_ms a))) as [e|bpm];
      [done|].
    destruct (PyFloat.truediv _ bpm) as [e|d]; [done|].
    destruct (make_chunks a d) as [e|chunks]; [done|].
    destruct (transcribe_sub_windows_ok temp_dir file_path key chunks 0 w
                EmptyString) as (w' & Hrun & Htr);
      [done|done|done|intros; apply Hr|].
    exists w'. rewrite Hrun. split; [done|].
    by rewrite Htr.
Qed.

(** Without a credential, or with an error body from the service, a chunk
    under the limit comes back as an empty transcript and no error. *)
Lemma missing_credential_is_no_error file_path temp_dir w a :
  files w !! file_path = Some (Wav a) →
  raw_len a ≤ LIMIT →
  OPENAI_API_KEY w = None ∨ OPENAI_API_KEY w = Some EmptyString →
  audio_to_text_single_call ext file_path temp_dir w
  = (inr (ContentTranscript EmptyString), w).
Proof.
  intros Hf Hle Hk.
  unfold audio_to_text_single_call, from_file, Os.open_rb.
  unfold try_except, bind, ret, lift. rewrite Hf.
  destruct (Z.ltb_spec LIMIT (raw_len a)); [lia|].
  by rewrite transcribe_with_openai_whisper_no_key.
Qed.

Lemma error_body_is_no_error file_path temp_dir w a key body :
  files w !! file_path = Some (Wav a) →
  raw_len a ≤ LIMIT →
  OPENAI_API_KEY w = Some key → key ≠ EmptyString →
  whisper ext key file_path = WhisperErrorBody body →
  audio_to_text_single_call ext file_path temp_dir w
  = (inr (ContentTranscript EmptyString),
     log (PostTranscription key file_path) w).
Proof.
  intros Hf Hle Hk Hne Hbody.
  unfold audio_to_text_single_call, from_file, Os.open_rb.
  unfold try_except, bind, ret, lift. rewrite Hf.
  destruct (Z.ltb_spec LIMIT (raw_len a)); [lia|].
  destruct (transcribe_with_openai_whisper_ok key file_path w (Wav a))
    as [rj Hcall]; [done|done|done|done|rewrite Hbody; simpl; tauto|].
  rewrite Hcall. by rewrite Hbody.
Qed.

End Client.

(** ** Invariants of the steps before the summarizer *)

Create HintDb preserves.

Section Returns.

Context {J : Type} (ext : Externals J).

Lemma makedirs_raises p w e w' : Os.makedirs p w = (inl e, w') → w' = w.
Proof. unfold Os.makedirs. repeat case_match; congruence. Qed.

(** The summarizer never raises. *)
Lemma summarize_returns t cd ap w :
  ∃ r w', summarize ext t cd ap w = (inr r, w').
Proof.
  unfold summarize, try_except.
  destruct (bind _ _ w) as [[e|r] w']; unfold ret; eauto.
Qed.

Lemma merge_and_summarize_returns rs cd ap w :
  ∃ r w', merge_and_summarize ext rs cd ap w = (inr r, w').
Proof.
  unfold merge_and_summarize. destruct (merge_transcripts rs).
  - unfold ret. eauto.
  - apply summarize_returns.
Qed.

End Returns.

Section Invariant.

Context {J : Type} (ext : Externals J).

(** A property of the world that the primitive effects keep. *)
Variable I : World → Prop.

Hypothesis I_makedirs : ∀ p w, I w → I (Os.makedirs p w).2.
Hypothesis I_write : ∀ p d w, I w → I (Os.write p d w).2.
Hypothesis I_remove : ∀ p w, I w → I (Os.remove p w).2.
Hypothesis I_export : ∀ p a w, I w → I (log (Export p a) w).
Hypothesis I_whisper :
  ∀ p w, I w → I (transcribe_with_openai_whisper ext p w).2.
Hypothesis I_head : ∀ url w, I w → I (log (Head url) w).
Hypothesis I_get : ∀ url w, I w → I (log (Get url) w).

Lemma preserves_ret {A} (a : A) : preserves I (ret a).
Proof. by intros w. Qed.

Lemma preserves_raise {A} e : preserves I (raise (A:=A) e).
Proof. by intros w. Qed.

Lemma preserves_lift {A} (r : Exn + A) : preserves I (lift r).
Proof. by intros w. Qed.

Lemma preserves_bind {A B} (m : M A) (k : A → M B) :
  preserves I m → (∀ a, preserves I (k a)) → preserves I (bind m k).
Proof.
  intros Hm Hk w Hw. unfold bind. specialize (Hm w Hw).
  destruct (m w) as [[e|a] w1]; [done|]. by apply Hk.
Qed.

Lemma preserves_try_except {A} (m : M A) (h : Exn → M A) :
  preserves I m → (∀ e, preserves I (h e)) → preserves I (try_except m h).
Proof.
  intros Hm Hh w Hw. unfold try_except. specialize (Hm w Hw).
  destruct (m w) as [[e|a] w1]; [by apply Hh|done].
Qed.

Lemma preserves_open_rb p : preserves I (Os.open_rb p).
Proof. intros w Hw. unfold Os.open_rb. by repeat case_match. Qed.

Lemma preserves_from_file p : preserves I (from_file p).
Proof.
  apply preserves_bind; [apply preserves_open_rb|].
  intros []; first [apply preserves_ret | apply preserves_raise].
Qed.

Lemma preserves_export a p : preserves I (export a p).
Proof.
  apply preserves_bind; [intros w; apply I_write|].
  intros _ w Hw. by apply I_export.
Qed.

Lemma preserves_copy src dst : preserves I (Os.copy src dst).
Proof.
  apply preserves_bind; [apply preserves_open_rb|].
  intros d w Hw. case_match; [case_match|]; by apply I_write.
Qed.

Lemma preserves_run_ffmpeg command output :
  preserves I (run_ffmpeg ext command output).
Proof.
  apply preserves_bind; [apply preserves_lift|]. intros d w. apply I_write.
Qed.

#[local] Hint Resolve preserves_ret preserves_raise preserves_lift preserves_open_rb
  preserves_from_file preserves_export preserves_copy preserves_run_ffmpeg
  : preserves.

Ltac preserve :=
  repeat first
    [ progress eauto with preserves
    | intros w; apply I_makedirs
    | intros w; apply I_write
    | intros w; apply I_remove
    | intros w; apply I_whisper
    | apply preserves_bind; [|intros ?]
    | apply preserves_try_except; [|intros ?]
    | case_match ].

Lemma preserves_transcribe_sub_windows temp_dir file_path chunks :
  ∀ i transcript,
    preserves I (transcribe_sub_windows ext temp_dir file_path i chunks transcript).
Proof.
  induction chunks as [|c chunks IH]; intros i transcript; simpl.
  - apply preserves_ret.
  - preserve.
Qed.
#[local] Hint Resolve preserves_transcribe_sub_windows : preserves.

Lemma preserves_audio_to_text_single_call file_path temp_dir :
  preserves I (audio_to_text_single_call ext file_path temp_dir).
Proof.
  unfold audio_to_text_single_call.
  preserve.
Qed.
#[local] Hint Resolve preserves_audio_to_text_single_call : preserves.

Lemma preserves_process_audio_chunk temp_dir chunk_path :
  preserves I (process_audio_chunk ext temp_dir chunk_path).
Proof.
  unfold process_audio_chunk.
  preserve.
Qed.
#[local] Hint Resolve preserves_process_audio_chunk : preserves.

Lemma preserves_collect temp_dir audio_chunks completion :
  preserves I (collect ext temp_dir audio_chunks completion).
Proof.
  induction completion as [|idx rest IH]; simpl; [apply preserves_ret|].
  destruct (audio_chunks !! idx); [|done].
  preserve.
Qed.
#[local] Hint Resolve preserves_collect : preserves.

Lemma preserves_dispatch temp_dir audio_chunks concurrency_level completion :
  preserves I (dispatch ext temp_dir audio_chunks concurrency_level completion).
Proof.
  unfold dispatch. case_match; [apply preserves_raise|apply preserves_collect].
Qed.
#[local] Hint Resolve preserves_dispatch : preserves.

Lemma preserves_export_chunks a chunk_length_ms chunks_dir video_name starts :
  ∀ i, preserves I (export_chunks a chunk_length_ms chunks_dir video_name i starts).
Proof.
  induction starts as [|start rest IH]; intros i; simpl.
  - apply preserves_ret.
  - preserve.
Qed.
#[local] Hint Resolve preserves_export_chunks : preserves.

Lemma preserves_split_audio audio_path chunks_dir video_name chunk_length_sec :
  preserves I (split_audio (J:=J) audio_path chunks_dir video_name chunk_length_sec).
Proof.
  unfold split_audio. preserve.
Qed.
#[local] Hint Resolve preserves_split_audio : preserves.

Lemma preserves_extract_audio video_path temp_dir video_name :
  preserves I (extract_audio ext video_path temp_dir video_name).
Proof. unfold extract_audio. preserve. Qed.

Lemma preserves_download_name url : preserves I (download_name ext url).
Proof.
  unfold download_name. preserve.
  intros w. apply I_head.
Qed.

Lemma preserves_download_file_from_url url output_path :
  preserves I (download_file_from_url ext url output_path).
Proof.
  unfold download_file_from_url, Os.open_wb. preserve.
  intros w. apply I_get.
Qed.

Lemma preserves_resolve_input video_path temp_dir is_url :
  preserves I (resolve_input ext video_path temp_dir is_url).
Proof.
  unfold resolve_input.
  pose proof preserves_download_name. pose proof preserves_download_file_from_url.
  preserve.
Qed.

#[local] Hint Resolve preserves_extract_audio preserves_resolve_input
  : preserves.

(** Where a run of the entry point ends: [os.makedirs(temp_dir)] raises;
    or the run stops before STEP 4 in a world that satisfies the
    invariant; or it returns what STEPS 4 and 5 return from such a
    world. *)
Lemma pipeline_body_cases video_path temp_dir concurrency_level
    chunk_length_sec is_url completion w :
  (∀ w1, Os.makedirs temp_dir w = (inr tt, w1) → I w1) →
  match pipeline_body ext video_path temp_dir concurrency_level
          chunk_length_sec is_url completion w with
  | (inl e, w') => (w' = w ∧ Os.makedirs temp_dir w = (inl e, w)) ∨ I w'
  | (inr (inl r), w') => I w'
  | (inr (inr r), w') =>
      ∃ vp audio_path rs wm,
        I wm
        ∧ merge_and_summarize ext rs
            (Path.join temp_dir
               ((Path.splitext (Path.basename vp)).1 +:+ "_chunks"))
            audio_path wm
          = (inr r, w')
  end.
Proof.
  intros Hmk. unfold pipeline_body, bind at 1.
  destruct (Os.makedirs temp_dir w) as [[e|[]] w1] eqn:Hmk1.
  { left. split; [|f_equal]; f_equal; by eapply makedirs_raises. }
  specialize (Hmk w1 eq_refl).
  unfold returning at 1, bind at 1.
  pose proof (preserves_resolve_input video_path temp_dir is_url w1 Hmk) as H2.
  destruct (resolve_input _ _ _ _ w1) as [[e|[r|vp]] w2]; simpl in H2;
    [by right|done|].
  unfold returning at 1, bind at 1.
  set (video_name := (Path.splitext (Path.basename vp)).1).
  pose proof (preserves_extract_audio vp temp_dir video_name w2 H2) as H3.
  destruct (extract_audio _ _ _ _ w2) as [[e|[r|audio_path]] w3]; simpl in H3;
    [by right|done|].
  unfold returning at 1, bind at 1.
  pose proof (preserves_split_audio audio_path
                (Path.join temp_dir (video_name +:+ "_chunks")) video_name
                chunk_length_sec w3 H3) as H4.
  destruct (split_audio _ _ _ _ w3) as [[e|[r|audio_chunks]] w4];
    simpl in H4; [by right|done|].
  unfold bind at 1.
  pose proof (preserves_dispatch temp_dir audio_chunks concurrency_level
                completion w4 H4) as H5.
  destruct (dispatch _ _ _ _ _ w4) as [[e|rs] w5]; simpl in H5; [by right|].
  unfold bind.
  destruct (merge_and_summarize_returns ext rs
              (Path.join temp_dir (video_name +:+ "_chunks")) audio_path w5)
    as (r & w' & Hr).
  rewrite Hr. unfold ret. by exists vp, audio_path, rs, w5.
Qed.

End Invariant.

(** ** Paths *)

Section Paths.

Lemma rsplit1_split c s h t :
  Path.rsplit1 c s = Some (h, t) →
  s = h +:+ String c t ∧ Path.rsplit1 c t = None.
Proof.
  revert h. induction s as [|a s IH]; intros h; simpl; [done|].
  destruct (Path.rsplit1 c s) as [[h' t']|] eqn:Hs.
  - intros [= <- <-]. destruct (IH h' eq_refl) as [-> Ht]. done.
  - destruct (Ascii.eqb_spec a c) as [->|]; [|done].
    by intros [= <- <-].
Qed.

Lemma rsplit1_leading c s : Path.rsplit1 c (String c s) ≠ None.
Proof. simpl. destruct (Path.rsplit1 c s) as [[]|]; [done|]. by rewrite Ascii.eqb_refl. Qed.

Lemma basename_no_slash p : Path.rsplit1 "/" (Path.basename p) = None.
Proof.
  unfold Path.basename. destruct (Path.rsplit1 "/" p) as [[h t]|] eqn:Hp; [|done].
  by apply rsplit1_split in Hp as [_ ?].
Qed.

Lemma prefix_slash s :
  String.prefix "/" s = true → ∃ s', s = String "/"%char s'.
Proof.
  destruct s as [|a s]; [done|]. rewrite prefix_cons.
  destruct (ascii_dec "/" a) as [<-|]; [eauto|done].
Qed.

(** The stem of a base name does not start with a slash. *)
Lemma video_name_relative video_path :
  String.prefix "/" (Path.splitext (Path.basename video_path)).1 = false.
Proof.
  pose proof (basename_no_slash video_path) as Hname.
  set (name := Path.basename video_path) in *.
  assert (Hrel : ∀ s, (∃ r, name = s +:+ r) → String.prefix "/" s = false).
  { intros s [r Hr]. destruct (String.prefix "/" s) eqn:Hp; [|done].
    apply prefix_slash in Hp as [s' ->]. rewrite Hr, append_cons in Hname.
    by apply rsplit1_leading in Hname. }
  unfold Path.splitext. rewrite Hname.
  destruct (Path.rsplit1 "." name) as [[stem ext0]|] eqn:Hdot.
  - apply rsplit1_split in Hdot as [Hn _].
    destruct (Path.all_char "." stem); simpl.
    + apply Hrel. exists EmptyString. by rewrite append_nil_r.
    + apply Hrel. eauto.
  - simpl. apply Hrel. exists EmptyString. by rewrite append_nil_r.
Qed.

Lemma prefix_length p q :
  String.prefix p q = true → (String.length p ≤ String.length q)%nat.
Proof.
  revert q. induction p as [|a p IH]; intros [|b q]; simpl; try done; try lia.
  destruct (ascii_dec a b); [|done]. intros H. apply IH in H. lia.
Qed.

Lemma prefix_append_relative v r :
  String.prefix "/" v = false → String.prefix "/" r = false →
  String.prefix "/" (v +:+ r) = false.
Proof.
  intros Hv Hr. destruct v as [|c v]; [done|].
  rewrite append_cons. rewrite prefix_cons in Hv |- *.
  destruct (ascii_dec _ _); [|done]. by rewrite prefix_nil in Hv.
Qed.

(** Joining a relative, non-empty name to a directory gives a longer
    path. *)
Lemma join_longer dir name :
  dir ≠ EmptyString → String.prefix "/" name = false →
  name ≠ EmptyString →
  (String.length dir < String.length (Path.join dir name))%nat.
Proof.
  intros Hd Hrel Hne. unfold Path.join. rewrite Hrel.
  destruct dir as [|c dir]; [done|].
  destruct name as [|a name]; [done|].
  destruct (Path.ends_with_char _ _); rewrite !length_append; simpl; lia.
Qed.

(** Neither a directory made under the temp directory nor anything
    below it is the temp directory itself. *)
Lemma temp_dir_outside temp_dir name :
  temp_dir ≠ EmptyString → String.prefix "/" name = false →
  name ≠ EmptyString →
  Path.join temp_dir name ≠ temp_dir
  ∧ Os.under (Path.join temp_dir name) temp_dir = false.
Proof.
  intros Hd Hrel Hne. pose proof (join_longer temp_dir name Hd Hrel Hne) as Hlen.
  split.
  - intros Heq. rewrite Heq in Hlen. lia.
  - unfold Os.under. destruct (String.prefix _ temp_dir) eqn:Hp; [|done].
    apply prefix_length in Hp.
    destruct (Path.ends_with_char _ _); rewrite ?length_append in Hp; lia.
Qed.

End Paths.

(** ** What the steps log, and what they leave of the temp directory *)

Section Logged.

Context {J : Type} (ext : Externals J).

Variables (P : Event → Prop) (k : option string) (t0 : list Event).

Hypothesis P_export : ∀ p a, P (Export p a).
Hypothesis P_remove : ∀ p, P (Remove p).
Hypothesis P_transcription :
  ∀ key p, k = Some key → key ≠ EmptyString → P (PostTranscription key p).

Lemma logged_only_files f w :
  logged_only P k t0 w → logged_only P k t0 (set_files f w).
Proof. done. Qed.

Lemma logged_only_log e w :
  P e → logged_only P k t0 w → logged_only P k t0 (log e w).
Proof.
  intros He [Hk (evs & Ht & Hall)]. split; [done|].
  exists (evs ++ [e]). simpl. rewrite Ht, app_assoc. split; [done|].
  apply Forall_app. by repeat constructor.
Qed.

Lemma logged_only_makedirs p w :
  logged_only P k t0 w → logged_only P k t0 (Os.makedirs p w).2.
Proof. intros Hw. unfold Os.makedirs. by repeat case_match. Qed.

Lemma logged_only_write p d w :
  logged_only P k t0 w → logged_only P k t0 (Os.write p d w).2.
Proof. intros Hw. unfold Os.write. by repeat case_match. Qed.

Lemma logged_only_remove p w :
  logged_only P k t0 w → logged_only P k t0 (Os.remove p w).2.
Proof.
  intros Hw. unfold Os.remove.
  repeat case_match; simpl; first [done|by apply logged_only_log].
Qed.

Lemma logged_only_whisper p w :
  logged_only P k t0 w →
  logged_only P k t0 (transcribe_with_openai_whisper ext p w).2.
Proof.
  intros Hw. unfold transcribe_with_openai_whisper, bind, Os.getenv_api_key.
  destruct (OPENAI_API_KEY w) as [[|c key]|] eqn:Hkey; try done.
  unfold Os.open_rb, emit, ret, raise.
  assert (P (PostTranscription (String c key) p)).
  { apply P_transcription; [|done]. destruct Hw as [<- _]. done. }
  repeat case_match; simplify_eq; simpl; first [done|by apply logged_only_log].
Qed.

End Logged.

Section TempDir.

Context {J : Type} (ext : Externals J).

Variable temp_dir : string.

Lemma temp_dir_makedirs p w :
  temp_dir_exists temp_dir w → temp_dir_exists temp_dir (Os.makedirs p w).2.
Proof.
  intros [Hne Hd]. unfold Os.makedirs. split; [done|].
  repeat case_match; try done. simpl.
  rewrite lookup_insert_ne; [done|congruence].
Qed.

Lemma temp_dir_write p d w :
  temp_dir_exists temp_dir w → temp_dir_exists temp_dir (Os.write p d w).2.
Proof.
  intros [Hne Hd]. unfold Os.write. split; [done|].
  repeat case_match; try done; simpl;
    (rewrite lookup_insert_ne; [done|congruence]).
Qed.

Lemma temp_dir_remove p w :
  temp_dir_exists temp_dir w → temp_dir_exists temp_dir (Os.remove p w).2.
Proof.
  intros [Hne Hd]. unfold Os.remove. split; [done|].
  repeat case_match; try done; simpl;
    (rewrite lookup_delete_ne; [done|congruence]).
Qed.

Lemma temp_dir_log e w :
  temp_dir_exists temp_dir w → temp_dir_exists temp_dir (log e w).
Proof. done. Qed.

Lemma temp_dir_whisper p w :
  temp_dir_exists temp_dir w →
  temp_dir_exists temp_dir (transcribe_with_openai_whisper ext p w).2.
Proof.
  intros Hw. unfold transcribe_with_openai_whisper, bind, Os.getenv_api_key,
    Os.open_rb, emit, ret, raise.
  repeat case_match; simplify_eq; by simpl.
Qed.

(** [rmtree] of a directory made under the temp directory leaves the temp
    directory in place. *)
Lemma temp_dir_rmtree name w :
  String.prefix "/" name = false → name ≠ EmptyString →
  temp_dir_exists temp_dir w →
  temp_dir_exists temp_dir (Os.rmtree (Path.join temp_dir name) w).2.
Proof.
  intros Hrel Hname [Hne Hd]. split; [done|].
  destruct (temp_dir_outside temp_dir name Hne Hrel Hname) as [Hneq Hunder].
  unfold Os.rmtree. repeat case_match; try done. simpl.
  apply map_lookup_filter_Some. split.
  - by rewrite lookup_delete_ne.
  - simpl. by rewrite Hunder.
Qed.

End TempDir.

(** ** The summarizer *)

Section Summarizer.

Context {J : Type} (ext : Externals J).

Lemma clean_up_returns cd ap w : ∃ w', clean_up cd ap w = (inr tt, w').
Proof.
  unfold clean_up, try_except.
  destruct (bind _ _ w) as [[e|[]] w']; unfold ret; eauto.
Qed.

(** The clean-up logs a removal for what it removes, and nothing else. *)
Lemma clean_up_trace cd ap w :
  let w' := (clean_up cd ap w).2 in
  OPENAI_API_KEY w' = OPENAI_API_KEY w
  ∧ (trace w' = trace w
     ∨ trace w' = trace w ++ [Rmtree cd]
     ∨ trace w' = trace w ++ [Rmtree cd; Remove ap]).
Proof.
  unfold clean_up, try_except, bind, ret, Os.rmtree, Os.remove.
  repeat case_match; simplify_eq; simpl; split; try done; eauto.
  all: right; right; by rewrite <- app_assoc.
Qed.

(** When the chunks directory and the audio file are in place, the
    clean-up removes the directory, everything below it, and the file. *)
Lemma clean_up_removes cd ap w d :
  files w !! cd = Some Directory →
  files w !! ap = Some d → d ≠ Directory → Os.under cd ap = false →
  let w' := (clean_up cd ap w).2 in
  files w' !! cd = None ∧ files w' !! ap = None
  ∧ (∀ q, Os.under cd q = true → files w' !! q = None)
  ∧ trace w' = trace w ++ [Rmtree cd; Remove ap].
Proof.
  intros Hcd Hap Hd Hunder.
  assert (Hne : cd ≠ ap) by (intros ->; rewrite Hcd in Hap; by simplify_eq).
  set (kept := filter (fun kv : string * FileData => negb (Os.under cd kv.1))
                 (delete cd (files w))).
  assert (Hap' : kept !! ap = Some d).
  { apply map_lookup_filter_Some. split; [by rewrite lookup_delete_ne|].
    simpl. by rewrite Hunder. }
  assert (Hrun : clean_up cd ap w
                 = (inr tt, mkWorld (delete ap kept) (OPENAI_API_KEY w)
                              (trace w ++ [Rmtree cd; Remove ap]))).
  { unfold clean_up, try_except, bind, ret, Os.rmtree. rewrite Hcd.
    unfold Os.remove. cbn [files log set_files]. fold kept. rewrite Hap'.
    destruct d; [done| |]; unfold log, set_files; simpl;
      by rewrite <- app_assoc. }
  rewrite Hrun. cbn [snd files trace]. split; [|split; [|split]].
  - rewrite lookup_delete_ne by done. apply map_lookup_filter_None.
    left. by rewrite lookup_delete_eq.
  - by rewrite lookup_delete_eq.
  - intros q Hq. destruct (decide (ap = q)) as [<-|Hq'].
    + by rewrite lookup_delete_eq.
    + rewrite lookup_delete_ne by done. apply map_lookup_filter_None.
      right. intros x _. simpl. rewrite Hq. by intros [].
  - done.
Qed.

(** The ways the summarizer ends: without a credential; with the
    exception of the chat call or of [json.loads]; with the text that
    [json.loads] rejects; with the parsed summary. *)
Lemma summarize_cases t cd ap w :
  let data := chat_payload t in
  ((OPENAI_API_KEY w = None ∨ OPENAI_API_KEY w = Some EmptyString)
   ∧ summarize ext t cd ap w = (inr MissingCredentialError, w))
  ∨ ∃ key, OPENAI_API_KEY w = Some key ∧ key ≠ EmptyString
      ∧ ((∃ e, (chat ext key data = ChatRaises e
                ∨ ∃ text, chat ext key data = ChatContent text
                          ∧ json_loads ext text = JsonRaises e)
               ∧ summarize ext t cd ap w
                 = (inr (SummarizationError e),
                    log (PostChatCompletion key data) w))
         ∨ (∃ text, chat ext key data = ChatContent text
               ∧ json_loads ext text = JSONDecodeError
               ∧ summarize ext t cd ap w
                 = (inr (SummaryParseError text),
                    log (PostChatCompletion key data) w))
         ∨ (∃ text j, chat ext key data = ChatContent text
               ∧ json_loads ext text = JsonValue j
               ∧ summarize ext t cd ap w
                 = (inr (Summary j),
                    (clean_up cd ap (log (PostChatCompletion key data) w)).2))).
Proof.
  intros data.
  assert (Hrun : summarize ext t cd ap w
    = match OPENAI_API_KEY w with
      | Some (String c key) =>
          let w1 := log (PostChatCompletion (String c key) data) w in
          match chat ext (String c key) data with
          | ChatRaises e => (inr (SummarizationError e), w1)
          | ChatContent text =>
              match json_loads ext text with
              | JsonValue j => (inr (Summary j), (clean_up cd ap w1).2)
              | JSONDecodeError => (inr (SummaryParseError text), w1)
              | JsonRaises e => (inr (SummarizationError e), w1)
              end
          end
      | _ => (inr MissingCredentialError, w)
      end).
  { unfold summarize, try_except, bind, Os.getenv_api_key, emit, ret, raise.
    fold data.
    destruct (OPENAI_API_KEY w) as [[|c key]|]; [done| |done].
    destruct (chat ext (String c key) data) as [e|text]; [done|].
    destruct (json_loads ext text) as [j| |e]; [|done|done].
    destruct (clean_up_returns cd ap
                (log (PostChatCompletion (String c key) data) w)) as [w' Hw'].
    unfold clean_up, try_except, bind, ret in Hw' |- *.
    by rewrite Hw'. }
  rewrite Hrun.
  destruct (OPENAI_API_KEY w) as [[|c key]|] eqn:Hkey; [left; eauto| |left; eauto].
  right. exists (String c key). split; [done|]. split; [done|]. cbn zeta.
  destruct (chat ext (String c key) data) as [e|text] eqn:Hchat; [left; eauto|].
  destruct (json_loads ext text) as [j| |e] eqn:Hjson;
    [right; right|right; left|left]; eauto 8.
Qed.

(** When the chat service answers with a text that [json.loads] rejects
    with [JSONDecodeError], the summarizer returns the parse failure with
    that very text. *)
Lemma summarize_parse_failure
    (full_transcript chunks_dir audio_path key text : string) (w : World) :
  OPENAI_API_KEY w = Some key →
  key ≠ EmptyString →
  chat ext key (chat_payload full_transcript) = ChatContent text →
  json_loads ext text = JSONDecodeError →
  summarize ext full_transcript chunks_dir audio_path w
  = (inr (ErrRaw "Failed to parse JSON summary" text),
     log (PostChatCompletion key (chat_payload full_transcript)) w).
Proof.
  intros Hk Hne Hchat Hjson.
  destruct (summarize_cases full_transcript chunks_dir audio_path w)
    as [[[H|H] _]|(key' & Hk' & _ & Hcases)]; [congruence|congruence|].
  assert (key' = key) as -> by congruence.
  destruct Hcases as [(e & [He|(text' & Ht & Hj)] & _)
                     |[(text' & Ht & _ & Hrun)|(text' & j & Ht & Hj & _)]];
    [congruence|congruence| |congruence].
  assert (text' = text) as -> by congruence. done.
Qed.

(** When [json.loads] raises anything else on the text of the chat
    service, the exception reaches the outer handler: the summarizer
    returns the summarization failure, which carries the exception and
    not the text. *)
Lemma summarize_json_raises
    (full_transcript chunks_dir audio_path key text : string) (e : Exn)
    (w : World) :
  OPENAI_API_KEY w = Some key →
  key ≠ EmptyString →
  chat ext key (chat_payload full_transcript) = ChatContent text →
  json_loads ext text = JsonRaises e →
  summarize ext full_transcript chunks_dir audio_path w
  = (inr (Err "Summarization failed: " (Some e)),
     log (PostChatCompletion key (chat_payload full_transcript)) w).
Proof.
  intros Hk Hne Hchat Hjson.
  destruct (summarize_cases full_transcript chunks_dir audio_path w)
    as [[[H|H] _]|(key' & Hk' & _ & Hcases)]; [congruence|congruence|].
  assert (key' = key) as -> by congruence.
  destruct Hcases as [(e' & [He|(text' & Ht & Hj)] & Hrun)
                     |[(text' & Ht & Hj & _)|(text' & j & Ht & Hj & _)]];
    [congruence| |congruence|congruence].
  assert (text' = text) as -> by congruence.
  assert (e' = e) as -> by congruence. done.
Qed.

(** C8: with a credential in the environment the summarizer sends one
    chat request, before anything else it does, and no other request
    after it. The body of that request holds two messages: the system
    instruction, and the user message, which is the fixed instruction
    text spelled out below, then the transcript as it is, then a line
    break; the transcript is a substring of the user message. *)
Theorem C8_user_message_embeds_transcript
    (full_transcript chunks_dir audio_path key : string) (w : World) :
  OPENAI_API_KEY w = Some key →
  key ≠ EmptyString →
  let system_message :=
    Py.join nl [
      "";
      "        You are a helpful assistant that summarizes legal call transcripts. Your job is to extract ";
      "        the most important information and present it in a clear, structured JSON format. Focus only on ";
      "        extracting key points and action items from the transcript. The transcript might contain some transcription errors.";
      "        These calls are being made from experts on behalf of Vakilsearch.com. Correct any mis-pronunciations of the name Vakilsearch.";
      "        "
    ] in
  let action_item (task : string) :=
    "      {" +:+ quoted "title" +:+ ": " +:+ quoted "<Action Item Title>"
    +:+ ", " +:+ quoted "task" +:+ ": " +:+ quoted task
    +:+ ", " +:+ quoted "description" +:+ ": " +:+ quoted "<Description>"
    +:+ ", " +:+ quoted "deadline" +:+ ": "
    +:+ quoted "<Deadline (if applicable)>" +:+ "}" in
  let user_message :=
    Py.join nl [
      "";
      "Please summarize the following legal call transcript into a structured JSON format.";
      "";
      "Extract and organize the information into the following sections:";
      "";
      "1. **Key Points**: Provide 3-5 bullet points summarizing the most important details discussed.";
      "2. **Action Items**: For each action item, include:";
      "   - **Title**: A short title for the action item.";
      "   - **Task**: The specific task to be completed.";
      "   - **Description**: Additional details about the task.";
      "   - **Deadline**: The deadline, if mentioned.";
      "";
      "Format the response as a JSON object with the structure:";
      "";
      "{";
      "  " +:+ quoted "summary" +:+ ": {";
      "    " +:+ quoted "key_points" +:+ ": [" +:+ quoted "<Point 1>" +:+ ", "
        +:+ quoted "<Point 2>" +:+ ", " +:+ quoted "<Point 3>" +:+ "],";
      "    " +:+ quoted "action_items" +:+ ": [";
      action_item "<Action Item 1>" +:+ ",";
      action_item "<Action Item 2>";
      "    ]";
      "  }";
      "}";
      "";
      "Return ONLY the JSON object with no additional text or explanation. Ensure it is properly formatted JSON.";
      "";
      "Here's the transcript:";
      full_transcript;
      ""
    ] in
  ∃ data rest,
    trace (summarize ext full_transcript chunks_dir audio_path w).2
    = trace w ++ PostChatCompletion key data :: rest
    ∧ Forall (fun e => ¬ is_request e) rest
    ∧ model data = "gpt-4o-mini"
    ∧ messages data = [("system", system_message); ("user", user_message)]
    ∧ Py.contains full_transcript user_message = true.
Proof.
  intros Hk Hne system_message action_item user_message.
  assert (Huser : user_message = user_prompt_head +:+ full_transcript +:+ nl).
  { vm_compute. reflexivity. }
  exists (chat_payload full_transcript).
  assert (Hbody : model (chat_payload full_transcript) = "gpt-4o-mini"
                  ∧ messages (chat_payload full_transcript)
                    = [("system", system_message); ("user", user_message)]
                  ∧ Py.contains full_transcript user_message = true).
  { split; [done|]. rewrite Huser. split; [done|apply contains_embedded]. }
  destruct (summarize_cases full_transcript chunks_dir audio_path w)
    as [[[H|H] _]|(key' & Hk' & _ & Hcases)]; [congruence|congruence|].
  assert (key' = key) as -> by congruence.
  destruct Hcases as [(e & _ & ->)|[(text & _ & _ & ->)|(text & j & _ & _ & ->)]].
  - exists []. split; [done|]. split; [constructor|done].
  - exists []. split; [done|]. split; [constructor|done].
  - cbn [snd]. clearbody system_message user_message.
    set (data := chat_payload full_transcript) in *. clearbody data.
    destruct (clean_up_trace chunks_dir audio_path
                (log (PostChatCompletion key data) w)) as [_ H].
    cbn zeta in H.
    change (trace (log (PostChatCompletion key data) w))
      with (trace w ++ [PostChatCompletion key data]) in H.
    destruct H as [H|[H|H]]; rewrite H, <- ?app_assoc; cbn [app].
    + exists []. split; [done|]. split; [constructor|done].
    + exists [Rmtree chunks_dir]. split; [done|]. split; [|done].
      repeat constructor. by intros [].
    + exists [Rmtree chunks_dir; Remove audio_path].
      split; [done|]. split; [|done].
      repeat constructor; by intros [].
Qed.

End Summarizer.

(** ** The entry point *)

Section EntryPoint.

Context {J : Type} (ext : Externals J).

Lemma logged_only_refl P w : logged_only P (OPENAI_API_KEY w) (trace w) w.
Proof. split; [done|]. exists []. by rewrite app_nil_r. Qed.

(** What STEPS 4 and 5 log: at most one chat request, under the
    environment's credential, and the removals of the clean-up; the
    clean-up runs only when a summary is returned. *)
Lemma logged_only_merge_and_summarize P k t0 rs cd ap w r w' :
  (∀ key data, k = Some key → key ≠ EmptyString →
               P (PostChatCompletion key data)) →
  (∀ p, P (Remove p)) →
  ((∀ j, r ≠ Summary j) ∨ ∀ p, P (Rmtree p)) →
  logged_only P k t0 w →
  merge_and_summarize ext rs cd ap w = (inr r, w') →
  logged_only P k t0 w'.
Proof.
  intros Pchat Premove Prm Hw. unfold merge_and_summarize.
  destruct (merge_transcripts rs) as [r0|t]; [by intros [= <- <-]|].
  destruct Hw as [Hk Hlog].
  destruct (summarize_cases ext t cd ap w)
    as [[_ ->]|(key & Hkey & Hne & [(e & _ & ->)|[(text & _ & _ & ->)|(text & j & _ & _ & ->)]])];
    intros [= <- <-]; try done.
  1,2: apply logged_only_log; [apply Pchat; congruence|done].
  destruct Prm as [Hr|Prm]; [by destruct (Hr j)|].
  set (w1 := log _ w).
  assert (Hw1 : logged_only P k t0 w1)
    by (apply logged_only_log; [apply Pchat; congruence|done]).
  destruct (clean_up_trace cd ap w1) as [Hk' Ht]. cbn zeta in Hk', Ht.
  destruct Hw1 as [Hk1 (evs & Hevs & Hall)].
  split; [congruence|].
  destruct Ht as [Ht|[Ht|Ht]]; rewrite Ht, Hevs, <- ?app_assoc;
    eexists; (split; [done|]); rewrite ?Forall_app; repeat split;
    try done; by repeat constructor.
Qed.

Lemma temp_dir_merge_and_summarize temp_dir vp rs ap w r w' :
  temp_dir_exists temp_dir w →
  merge_and_summarize ext rs
    (Path.join temp_dir ((Path.splitext (Path.basename vp)).1 +:+ "_chunks"))
    ap w = (inr r, w') →
  temp_dir_exists temp_dir w'.
Proof.
  intros Hw. unfold merge_and_summarize.
  destruct (merge_transcripts rs) as [r0|t]; [by intros [= <- <-]|].
  set (cd := Path.join _ _).
  destruct (summarize_cases ext t cd ap w)
    as [[_ ->]|(key & Hkey & Hne & [(e & _ & ->)|[(text & _ & _ & ->)|(text & j & _ & _ & ->)]])];
    intros [= <- <-]; try done.
  set (w1 := log _ w).
  assert (Hw1 : temp_dir_exists temp_dir w1) by done.
  unfold clean_up, try_except, bind.
  pose proof (temp_dir_rmtree temp_dir
                ((Path.splitext (Path.basename vp)).1 +:+ "_chunks") w1) as Hrm.
  fold cd in Hrm.
  destruct (Os.rmtree cd w1) as [[e|[]] w2]; simpl in Hrm |- *.
  - apply Hrm; [|by destruct (Path.splitext _).1|done].
    by apply prefix_append_relative; [apply video_name_relative|].
  - pose proof (temp_dir_remove temp_dir ap w2) as Hrem.
    destruct (Os.remove ap w2) as [[e|[]] w3]; simpl in Hrem |- *;
      apply Hrem, Hrm; try done.
    all: try by destruct (Path.splitext _).1.
    all: by apply prefix_append_relative; [apply video_name_relative|].
Qed.

(** The credential of every request comes from the environment: the entry
    point never changes OPENAI_API_KEY, every request it sends carries
    that value as bearer, and with no value there it sends no request at
    all. *)
Lemma requests_bear_environment_credential
    (video_path temp_dir : string) (concurrency_level chunk_length_sec : Z)
    (is_url : bool) (completion : list nat) (w : World) :
  let run := transcribe_and_summarize_video ext video_path temp_dir
               concurrency_level chunk_length_sec is_url completion w in
  OPENAI_API_KEY run.2 = OPENAI_API_KEY w
  ∧ ∃ evs, trace run.2 = trace w ++ evs
      ∧ Forall (bears (OPENAI_API_KEY w)) evs
      ∧ (OPENAI_API_KEY w = None → Forall (fun e => ¬ is_request e) evs).
Proof.
  intros run.
  set (k := OPENAI_API_KEY w).
  assert (Hrun : logged_only (bears k) k (trace w) run.2).
  { unfold run, transcribe_and_summarize_video.
    unshelve epose proof (pipeline_body_cases ext
      (logged_only (bears k) k (trace w)) _ _ _ _ _ _ _
      video_path temp_dir concurrency_level chunk_length_sec is_url
      completion w) as Hcases.
    { intros. by apply logged_only_makedirs. }
    { intros. by apply logged_only_write. }
    { intros. by apply logged_only_remove. }
    { intros. by apply logged_only_log. }
    { intros. apply logged_only_whisper; [by intros ?? H1 H2; split|done]. }
    { intros. by apply logged_only_log. }
    { intros. by apply logged_only_log. }
    assert (Hmk : ∀ w1, Os.makedirs temp_dir w = (inr tt, w1) →
                        logged_only (bears k) k (trace w) w1).
    { intros w1 Hmk. replace w1 with (Os.makedirs temp_dir w).2
        by (by rewrite Hmk).
      apply logged_only_makedirs, logged_only_refl. }
    specialize (Hcases Hmk).
    destruct (pipeline_body _ _ _ _ _ _ _ w) as [[e|[r|r]] w']; cbn [snd].
    - destruct Hcases as [[-> _]|H]; [apply logged_only_refl|done].
    - done.
    - destruct Hcases as (vp & ap & rs & wm & Hwm & Hms).
      eapply logged_only_merge_and_summarize; [| | |exact Hwm|exact Hms];
        [by intros ?? H1 H2; split|done|by right]. }
  destruct Hrun as [Hk (evs & Hevs & Hall)].
  split; [done|]. exists evs. repeat split; [done..|].
  intros Hnone. eapply Forall_impl; [exact Hall|].
  intros e He Hreq. rewrite Hnone in He.
  destruct e; simpl in *; try done; by destruct He.
Qed.

Lemma makedirs_establishes temp_dir w w1 :
  Os.makedirs temp_dir w = (inr tt, w1) → temp_dir_exists temp_dir w1.
Proof.
  unfold Os.makedirs, temp_dir_exists.
  repeat case_match; intros [= <-]; try done; simpl.
  by rewrite lookup_insert_eq.
Qed.

(** C7 (amended): the call never removes the temp directory: unless
    creating it fails at the start, it is still there when the call ends,
    on every path. The chunks directory is removed only on the path that
    returns a summary; a call that ends any other way removes no
    directory at all. *)
Theorem C7_temp_dir_is_left_behind
    (video_path temp_dir : string) (concurrency_level chunk_length_sec : Z)
    (is_url : bool) (completion : list nat) (w : World) :
  let run := transcribe_and_summarize_video ext video_path temp_dir
               concurrency_level chunk_length_sec is_url completion w in
  ((∃ e, Os.makedirs temp_dir w = (inl e, w) ∧ run = (Uncaught e, w))
   ∨ files run.2 !! temp_dir = Some Directory)
  ∧ match run.1 with
    | Summary _ => True
    | _ => ∃ evs, trace run.2 = trace w ++ evs
                  ∧ Forall (fun e => ¬ is_rmtree e) evs
    end.
Proof.
  intros run. split.
  - unfold run, transcribe_and_summarize_video.
    unshelve epose proof (pipeline_body_cases ext
      (temp_dir_exists temp_dir) _ _ _ _ _ _ _
      video_path temp_dir concurrency_level chunk_length_sec is_url
      completion w (makedirs_establishes temp_dir w)) as Hcases.
    { intros. by apply temp_dir_makedirs. }
    { intros. by apply temp_dir_write. }
    { intros. by apply temp_dir_remove. }
    { intros. by apply temp_dir_log. }
    { intros. by apply temp_dir_whisper. }
    { intros. by apply temp_dir_log. }
    { intros. by apply temp_dir_log. }
    destruct (pipeline_body _ _ _ _ _ _ _ w) as [[e|[r|r]] w']; cbn [snd].
    + destruct Hcases as [[-> Hmk]|[_ H]]; [left; eauto|by right].
    + right. apply Hcases.
    + right. destruct Hcases as (vp & ap & rs & wm & Hwm & Hms).
      by destruct (temp_dir_merge_and_summarize temp_dir vp rs ap wm r w').
  - set (k := OPENAI_API_KEY w).
    set (P := fun e => ¬ is_rmtree e).
    assert (Hrun : match run.1 with
                   | Summary _ => True
                   | _ => logged_only P k (trace w) run.2
                   end).
    { unfold run, transcribe_and_summarize_video.
      unshelve epose proof (pipeline_body_cases ext
        (logged_only P k (trace w)) _ _ _ _ _ _ _
        video_path temp_dir concurrency_level chunk_length_sec is_url
        completion w) as Hcases.
      { intros. by apply logged_only_makedirs. }
      { intros. by apply logged_only_write. }
      { intros. apply logged_only_remove; [by intros ? []|done]. }
      { intros. apply logged_only_log; [by intros []|done]. }
      { intros. apply logged_only_whisper; [by intros ???? []|done]. }
      { intros. apply logged_only_log; [by intros []|done]. }
      { intros. apply logged_only_log; [by intros []|done]. }
      assert (Hmk : ∀ w1, Os.makedirs temp_dir w = (inr tt, w1) →
                          logged_only P k (trace w) w1).
      { intros w1 Hmk. replace w1 with (Os.makedirs temp_dir w).2
          by (by rewrite Hmk).
        apply logged_only_makedirs, logged_only_refl. }
      specialize (Hcases Hmk).
      destruct (pipeline_body _ _ _ _ _ _ _ w) as [[e|[r|r]] w']; cbn [fst snd].
      - destruct Hcases as [[-> _]|H]; [apply logged_only_refl|done].
      - by destruct r.
      - destruct Hcases as (vp & ap & rs & wm & Hwm & Hms).
        assert (Hnot : (∀ j, r ≠ Summary j) → logged_only P k (trace w) w').
        { intros Hr. eapply logged_only_merge_and_summarize;
            [| | |exact Hwm|exact Hms];
            [by intros ???? []|by intros ? []|by left]. }
        destruct r; try done; by apply Hnot. }
    destruct run.1; try done; by destruct Hrun as [_ ?].
Qed.

(** Whenever a chat request of the run is answered with a text that
    [json.loads] rejects with [JSONDecodeError], the entry point returns
    the parse failure: the error tag together with that very text,
    unchanged, and no summary. *)
Lemma rejected_summary_keeps_raw_text
    (video_path temp_dir : string) (concurrency_level chunk_length_sec : Z)
    (is_url : bool) (completion : list nat) (w : World)
    (key text : string) (data : ChatPayload) (evs : list Event) :
  let run := transcribe_and_summarize_video ext video_path temp_dir
               concurrency_level chunk_length_sec is_url completion w in
  trace run.2 = trace w ++ evs →
  PostChatCompletion key data ∈ evs →
  chat ext key data = ChatContent text →
  json_loads ext text = JSONDecodeError →
  run.1 = SummaryParseError text.
Proof.
  intros run Hevs Hin Hchat Hjson.
  set (k := OPENAI_API_KEY w).
  set (P := fun e => ¬ is_chat_request e).
  assert (Hquiet : ∀ w', logged_only P k (trace w) w' →
                         trace w' = trace w ++ evs → False).
  { intros w' [_ (evs' & Ht & Hall)] Ht'. rewrite Ht in Ht'.
    apply app_inv_head in Ht' as ->.
    rewrite Forall_forall in Hall. by apply (Hall _ Hin). }
  revert Hevs. unfold run, transcribe_and_summarize_video.
  unshelve epose proof (pipeline_body_cases ext
    (logged_only P k (trace w)) _ _ _ _ _ _ _
    video_path temp_dir concurrency_level chunk_length_sec is_url
    completion w) as Hcases.
  { intros. by apply logged_only_makedirs. }
  { intros. by apply logged_only_write. }
  { intros. apply logged_only_remove; [by intros ? []|done]. }
  { intros. apply logged_only_log; [by intros []|done]. }
  { intros. apply logged_only_whisper; [by intros ???? []|done]. }
  { intros. apply logged_only_log; [by intros []|done]. }
  { intros. apply logged_only_log; [by intros []|done]. }
  assert (Hmk : ∀ w1, Os.makedirs temp_dir w = (inr tt, w1) →
                      logged_only P k (trace w) w1).
  { intros w1 Hmk. replace w1 with (Os.makedirs temp_dir w).2
      by (by rewrite Hmk).
    apply logged_only_makedirs, logged_only_refl. }
  specialize (Hcases Hmk).
  destruct (pipeline_body _ _ _ _ _ _ _ w) as [[e|[r|r]] w']; cbn [fst snd];
    intros Hevs.
  - exfalso. destruct Hcases as [[-> _]|H];
      [apply (Hquiet w); [apply logged_only_refl|done]|by apply (Hquiet w')].
  - exfalso. by apply (Hquiet w').
  - destruct Hcases as (vp & ap & rs & wm & Hwm & Hms).
    revert Hms. unfold merge_and_summarize.
    destruct (merge_transcripts rs) as [r0|t].
    { intros [= <- <-]. exfalso. by apply (Hquiet wm). }
    set (cd := Path.join _ _).
    pose proof Hwm as Hwm'. destruct Hwm as [Hk (evs1 & Ht1 & Hall1)].
    assert (Hsplit : ∀ key' evs2,
      trace w' = trace wm ++ PostChatCompletion key' (chat_payload t) :: evs2 →
      Forall P evs2 → key' = key ∧ chat_payload t = data).
    { intros key' evs2 Ht2 Hall2. rewrite Ht2, Ht1, <- app_assoc in Hevs.
      apply app_inv_head in Hevs as <-.
      rewrite Forall_forall in Hall1, Hall2.
      apply elem_of_app in Hin as [Hin|Hin]; [by destruct (Hall1 _ Hin)|].
      apply elem_of_cons in Hin as [[= -> ->]|Hin]; [done|].
      by destruct (Hall2 _ Hin). }
    destruct (summarize_cases ext t cd ap wm)
      as [[_ ->]|(key' & Hkey & Hne & [(e & He & ->)|[(text' & Ht & Hj & ->)|(text' & j & Ht & Hj & ->)]])];
      intros [= <- <-].
    + exfalso. by apply (Hquiet wm).
    + destruct (Hsplit key' []) as [-> Hd]; [done|done|].
      rewrite Hd, Hchat in He.
      destruct He as [He|(text' & He & Hj)]; [done|]. congruence.
    + destruct (Hsplit key' []) as [-> Hd]; [done|done|].
      rewrite Hd, Hchat in Ht. by simplify_eq.
    + exfalso.
      destruct (clean_up_trace cd ap
                  (log (PostChatCompletion key' (chat_payload t)) wm))
        as [_ Hc]. cbn zeta in Hc. simpl in Hc.
      destruct Hc as [Hc|[Hc|Hc]]; rewrite <- ?app_assoc in Hc; simpl in Hc;
        (edestruct (Hsplit key') as [-> Hd];
         [exact Hc|by repeat constructor; intros []|]);
        rewrite Hd, Hchat in Ht; simplify_eq; congruence.
Qed.

End EntryPoint.

(** ** Chunk file names and chunk_ids *)

Section ChunkIds.

Lemma rsplit1_append_none c s t :
  Path.rsplit1 c t = None →
  Path.rsplit1 c (s +:+ t)
  = match Path.rsplit1 c s with
    | Some (h, t') => Some (h, t' +:+ t)
    | None => None
    end.
Proof.
  intros Ht. induction s as [|a s IH]; [exact Ht|].
  rewrite append_cons. cbn [Path.rsplit1]. rewrite IH.
  destruct (Path.rsplit1 c s) as [[h t']|]; [done|].
  by destruct (Ascii.eqb a c).
Qed.

Lemma rsplit1_append_last c s t :
  Path.rsplit1 c t = None → Path.rsplit1 c (s +:+ String c t) = Some (s, t).
Proof.
  intros Ht. induction s as [|a s IH].
  - change (EmptyString +:+ String c t) with (String c t).
    cbn [Path.rsplit1]. by rewrite Ht, Ascii.eqb_refl.
  - rewrite append_cons. cbn [Path.rsplit1]. by rewrite IH.
Qed.

(** A decimal numeral has neither a slash nor a dot. *)
Lemma str_plain (n : nat) :
  Path.rsplit1 "/" (Py.str n) = None ∧ Path.rsplit1 "." (Py.str n) = None.
Proof.
  unfold Py.str. generalize (Nat.to_uint n). intros d.
  induction d as [|d [IH1 IH2]|d [IH1 IH2]|d [IH1 IH2]|d [IH1 IH2]|d [IH1 IH2]
                  |d [IH1 IH2]|d [IH1 IH2]|d [IH1 IH2]|d [IH1 IH2]|d [IH1 IH2]];
    [done|..]; cbn [NilEmpty.string_of_uint Path.rsplit1];
    by rewrite IH1, IH2.
Qed.

Lemma ends_with_char_split c s :
  Path.ends_with_char c s = true → ∃ x, s = x +:+ String c EmptyString.
Proof.
  induction s as [|a s IH]; [done|]. cbn [Path.ends_with_char].
  destruct s as [|b s].
  - intros ->%Ascii.eqb_eq. by exists EmptyString.
  - intros [x Hx]%IH. exists (String a x). by rewrite append_cons, <- Hx.
Qed.

Lemma basename_join dir name :
  Path.rsplit1 "/" name = None → Path.basename (Path.join dir name) = name.
Proof.
  intros Hname. unfold Path.join.
  destruct (String.prefix "/" name) eqn:Hp.
  { apply prefix_slash in Hp as [s ->]. by apply rsplit1_leading in Hname. }
  unfold Path.basename. destruct dir as [|a dir]; [by rewrite Hname|].
  destruct (Path.ends_with_char "/" (String a dir)) eqn:He.
  - apply ends_with_char_split in He as [x ->].
    rewrite append_assoc.
    change (String "/" EmptyString +:+ name) with (String "/"%char name).
    by rewrite rsplit1_append_last.
  - change ("/" +:+ name) with (String "/"%char name).
    by rewrite rsplit1_append_last.
Qed.

Lemma all_char_append c s t :
  Path.all_char c t = false → Path.all_char c (s +:+ t) = false.
Proof.
  intros Ht. induction s as [|a s IH]; [done|].
  rewrite append_cons. cbn [Path.all_char]. rewrite IH. apply andb_false_r.
Qed.

(** The chunk_id that [process_audio_chunk] derives from the [i]-th chunk
    file of a recording named [v] is [v_chunk_i]. *)
Lemma chunk_id_of_chunk_file chunks_dir v i :
  Path.rsplit1 "/" v = None →
  (Path.splitext (Path.basename (chunk_file chunks_dir v i))).1
  = v +:+ "_chunk_" +:+ Py.str i.
Proof.
  intros Hv. destruct (str_plain i) as [Hslash Hdot].
  assert (Hname : Path.rsplit1 "/" (v +:+ "_chunk_" +:+ Py.str i +:+ ".wav")
                  = None).
  { rewrite rsplit1_append_none, Hv; [done|].
    change ("_chunk_" +:+ Py.str i +:+ ".wav")
      with (String "_" (String "c" (String "h" (String "u" (String "n"
             (String "k" (String "_" (Py.str i +:+ ".wav")))))))).
    cbn [Path.rsplit1]. by rewrite rsplit1_append_none, Hslash. }
  unfold chunk_file. rewrite basename_join by done.
  unfold Path.splitext. rewrite Hname.
  replace (v +:+ "_chunk_" +:+ Py.str i +:+ ".wav")
    with ((v +:+ "_chunk_" +:+ Py.str i) +:+ String "." "wav")
    by (by rewrite !append_assoc).
  rewrite rsplit1_append_last by done.
  by rewrite all_char_append.
Qed.

Lemma rsplit1_prefix_none c s t :
  Path.rsplit1 c (s +:+ t) = None → Path.rsplit1 c s = None.
Proof.
  induction s as [|a s IH]; [done|].
  rewrite append_cons. cbn [Path.rsplit1].
  destruct (Path.rsplit1 c (s +:+ t)) as [[]|]; [done|].
  rewrite IH by done. by destruct (Ascii.eqb a c).
Qed.

(** The name under which the entry point files its chunks has no slash. *)
Lemma video_name_no_slash video_path :
  Path.rsplit1 "/" (Path.splitext (Path.basename video_path)).1 = None.
Proof.
  pose proof (basename_no_slash video_path) as Hname.
  set (name := Path.basename video_path) in *.
  unfold Path.splitext. rewrite Hname.
  destruct (Path.rsplit1 "." name) as [[stem ext0]|] eqn:Hdot; [|done].
  apply rsplit1_split in Hdot as [Hn _].
  destruct (Path.all_char "." stem); simpl; [done|].
  rewrite Hn in Hname. by apply rsplit1_prefix_none in Hname.
Qed.

Lemma process_audio_chunk_id {J} (ext : Externals J)
    temp_dir chunks_dir v i w r w' :
  Path.rsplit1 "/" v = None →
  process_audio_chunk ext temp_dir (chunk_file chunks_dir v i) w
  = (inr r, w') →
  chunk_id r = v +:+ "_chunk_" +:+ Py.str i.
Proof.
  intros Hv. unfold process_audio_chunk, bind.
  destruct (audio_to_text_single_call _ _ _ w) as [[e|c] w1]; [done|].
  rewrite chunk_id_of_chunk_file by done.
  unfold ret. intros [= <- <-]. by destruct c.
Qed.

(** A piece without underscores before a delimiter is the first piece. *)
Lemma split_plain_piece a rest :
  Path.rsplit1 "_" a = None →
  Py.split_go delimiter 0 (a +:+ delimiter +:+ rest)
  = a :: Py.split_go delimiter 0 rest.
Proof.
  induction a as [|c a IH]; intros Ha.
  - change (EmptyString +:+ delimiter +:+ rest)
      with (String "_" (String "c" (String "h" (String "u" (String "n"
             (String "k" (String "_" rest))))))).
    unfold delimiter. cbn [Py.split_go].
    rewrite !prefix_cons, prefix_nil.
    repeat (destruct (ascii_dec _ _); [|done]). done.
  - cbn [Path.rsplit1] in Ha.
    destruct (Path.rsplit1 "_" a) as [[]|]; [done|].
    destruct (Ascii.eqb_spec c "_") as [|Hc]; [done|].
    rewrite append_cons. cbn [Py.split_go].
    unfold delimiter at 1. rewrite prefix_cons.
    destruct (ascii_dec "_" c) as [<-|_]; [done|].
    by rewrite IH.
Qed.

(** For a recording named [a_chunk_b], with no underscore in [a] or [b],
    the text after the first delimiter of every chunk_id is [b]: the
    assembler reads its index from the name, not from the chunk number. *)
Lemma segment_of_delimited_name a b i :
  Path.rsplit1 "_" a = None → Path.rsplit1 "_" b = None →
  index_segment ((a +:+ delimiter +:+ b) +:+ "_chunk_" +:+ Py.str i)
  = Some b.
Proof.
  intros Ha Hb. unfold index_segment, Py.split.
  change "_chunk_" with delimiter.
  rewrite append_assoc, append_assoc.
  rewrite split_plain_piece by done.
  by rewrite split_plain_piece.
Qed.

(** Such a recording fails in the assembler when [b] is no integer
    literal, and gives every chunk the same sort key when it is one. *)
Lemma delimited_name_sort_key a b i x :
  Path.rsplit1 "_" a = None → Path.rsplit1 "_" b = None →
  chunk_id x = (a +:+ delimiter +:+ b) +:+ "_chunk_" +:+ Py.str i →
  sort_key x = match Py.int b with
               | Some k => inr k
               | None => inl (ValueError b)
               end.
Proof.
  intros Ha Hb Hid. apply sort_key_segment. rewrite Hid.
  by apply segment_of_delimited_name.
Qed.

(** [int(str(n))] is [n]. *)
Lemma int_digits_of_uint d : ∀ acc : nat,
  Py.int_digits (Z.of_nat acc) (NilEmpty.string_of_uint d)
  = Some (Z.of_nat (Nat.of_uint_acc d acc)).
Proof.
  induction d; intros acc;
    cbn [NilEmpty.string_of_uint Nat.of_uint_acc]; [done|..];
    cbn [Py.int_digits];
    match goal with
    | |- context [Py.digit_val ?c] =>
        let v := eval vm_compute in (Py.digit_val c) in
        change (Py.digit_val c) with v; cbv iota
    end;
    rewrite <- IHd; f_equal; rewrite Nat.tail_mul_spec; lia.
Qed.

Lemma int_str (n : nat) : Py.int (Py.str n) = Some (Z.of_nat n).
Proof.
  unfold Py.str. pose proof (Unsigned.of_to n) as Hn.
  unfold Nat.of_uint in Hn.
  destruct (Nat.to_uint n) as [|d|d|d|d|d|d|d|d|d|d] eqn:E.
  { simpl in Hn. subst n. discriminate. }
  all: cbn [NilEmpty.string_of_uint Nat.of_uint_acc] in Hn |- *.
  all: unfold Py.int; cbn [Py.lstrip].
  all: match goal with
       | |- context [Py.isspace ?c] =>
           let v := eval vm_compute in (Py.isspace c) in
           change (Py.isspace c) with v; cbv iota
       end.
  all: cbv beta iota zeta;
       match goal with
       | |- context [Py.digit_val ?c] =>
           let v := eval vm_compute in (Py.digit_val c) in
           change (Py.digit_val c) with v; cbv iota
       end.
  all: match goal with
       | |- context [Py.int_digits ?k ?s] =>
           let m := eval vm_compute in (Z.to_nat k) in
           change k with (Z.of_nat m)
       end; rewrite int_digits_of_uint; cbn [fmap option_fmap option_map];
       rewrite Z.mul_1_l, <- Hn, Nat.tail_mul_spec; reflexivity.
Qed.

Lemma str_no_underscore (n : nat) : Path.rsplit1 "_" (Py.str n) = None.
Proof.
  unfold Py.str. generalize (Nat.to_uint n). intros d.
  induction d; [done|..]; cbn [NilEmpty.string_of_uint Path.rsplit1];
    by rewrite IHd.
Qed.

Lemma no_underscore_no_delimiter s :
  Path.rsplit1 "_" s = None → Py.contains delimiter s = false.
Proof.
  induction s as [|c s IH]; [done|]. cbn [Path.rsplit1 Py.contains].
  destruct (Path.rsplit1 "_" s) as [[]|]; [done|].
  destruct (Ascii.eqb_spec c "_") as [|Hc]; [done|]. intros _.
  rewrite IH by done. unfold delimiter. rewrite prefix_cons.
  by destruct (ascii_dec "_" c) as [<-|].
Qed.

(** For a recording whose name has no underscore, the index the assembler
    reads from a chunk_id is the chunk number. *)
Lemma plain_name_sort_key v i x :
  Path.rsplit1 "_" v = None →
  chunk_id x = v +:+ "_chunk_" +:+ Py.str i →
  sort_key x = inr (Z.of_nat i).
Proof.
  intros Hv Hid.
  rewrite (sort_key_segment x (Py.str i)); [by rewrite int_str|].
  rewrite Hid. unfold index_segment, Py.split.
  change "_chunk_" with delimiter. rewrite split_plain_piece by done.
  by rewrite contains_false_split
    by apply no_underscore_no_delimiter, str_no_underscore.
Qed.

(** Chunk results of such a recording, one per chunk number, meet the
    conditions under which the assembler's output does not depend on the
    order of collection. *)
Lemma plain_recording_indexed v (rs : list ChunkResult) (number : ChunkResult → nat) :
  Path.rsplit1 "_" v = None →
  (∀ x, x ∈ rs → chunk_id x = v +:+ "_chunk_" +:+ Py.str (number x)) →
  NoDup (number <$> rs) →
  (∀ x, x ∈ rs → indexed x) ∧ NoDup (index <$> rs).
Proof.
  intros Hv Hid Hnd.
  assert (Hkey : ∀ x, x ∈ rs → sort_key x = inr (Z.of_nat (number x))).
  { intros x Hx. apply (plain_name_sort_key v); [done|by apply Hid]. }
  split.
  - intros x Hx. eexists. by apply Hkey.
  - assert (Heq : index <$> rs = Z.of_nat <$> (number <$> rs)).
    { rewrite <- list_fmap_compose. apply list_fmap_ext.
      intros _ x Hx%list_elem_of_lookup_2. unfold index. simpl.
      by rewrite Hkey. }
    rewrite Heq. apply (NoDup_fmap_2 _). done.
Qed.

End ChunkIds.

(** ** Runs of the sample *)


(** The sample recording of 150 s at a chunk length of 60 s: three
    chunks of 60, 60 and 30 seconds, at the chunk files 0, 1 and 2. *)
Example splitter_cuts_sample_in_three :
  let source := mkAudio 16000 2 2400000 in
  let run := split_audio (J:=string) "tmp/talk.wav" "tmp/talk_chunks" "talk"
               60 (chunk_world "tmp/talk.wav" source None) in
  run.1 = inr (inr ["tmp/talk_chunks/talk_chunk_0.wav";
                    "tmp/talk_chunks/talk_chunk_1.wav";
                    "tmp/talk_chunks/talk_chunk_2.wav"])
  ∧ trace run.2
    = [Export "tmp/talk_chunks/talk_chunk_0.wav" (mkAudio 16000 2 960000);
       Export "tmp/talk_chunks/talk_chunk_1.wav" (mkAudio 16000 2 960000);
       Export "tmp/talk_chunks/talk_chunk_2.wav" (mkAudio 16000 2 480000)]
  ∧ len_ms <$> exported (trace run.2) = [60000; 60000; 30000].
Proof. cbv zeta. repeat split; vm_compute; reflexivity. Qed.



(** C5, at a chunk under the limit: with no credential in the environment,
    and likewise when the service answers with an error body, the client
    returns an empty transcript and no error, so the chunk result carries no
    error either. *)
Theorem C5_missing_credential_surfaces_no_error :
  let path := "tmp/talk_chunks/talk_chunk_0.wav" in
  let a := mkAudio 16000 2 960000 in
  audio_to_text_single_call sample_services path "tmp" (chunk_world path a None)
  = (inr (ContentTranscript ""), chunk_world path a None)
  ∧ process_audio_chunk sample_services "tmp" path (chunk_world path a None)
    = (inr (mkChunkResult "talk_chunk_0" "talk_chunk_0.wav" None (Some "")),
       chunk_world path a None)
  ∧ process_audio_chunk failing_services "tmp" path
      (chunk_world path a (Some "sk"))
    = (inr (mkChunkResult "talk_chunk_0" "talk_chunk_0.wav" None (Some "")),
       log (PostTranscription "sk" path) (chunk_world path a (Some "sk"))).
Proof. cbv zeta. repeat split; vm_compute; reflexivity. Qed.

(** A download that breaks off: the HEAD and the GET have been sent, what
    was received is left at the download path, and the call returns the
    download failure. *)
Example broken_download_leaves_partial_file :
  let url := "https://media.example/stream/" in
  let run := transcribe_and_summarize_video broken_download_services url
               "tmp" 5 60 true [0; 1; 2]%nat (mkWorld ∅ (Some "sk") []) in
  run.1 = Err "Failed to download from URL: "
            (Some (DownloadFailed (ExternalError "ChunkedEncodingError")))
  ∧ trace run.2 = [Head url; Get url]
  ∧ files run.2
    = {[ "tmp" := Directory; "tmp/downloaded_file_1f0c2a9e.mp4" := Blob ]}.
Proof. cbv zeta. repeat split; vm_compute; reflexivity. Qed.

(** A download that succeeds: the file is saved under the last component
    of the path of the URL, and the run goes on from it. *)
Example download_is_saved_under_its_name :
  let url := "https://media.example/media/download.mp4" in
  let run := transcribe_and_summarize_video sample_services url
               "tmp" 5 60 true [0; 1; 2]%nat (mkWorld ∅ (Some "sk") []) in
  run.1 = Summary "{}"
  ∧ take 1 (trace run.2) = [Get url]
  ∧ files run.2 !! "tmp/download.mp4" = Some Blob
  ∧ input_path sample_services url "tmp" true = "tmp/download.mp4".
Proof. cbv zeta. repeat split; vm_compute; reflexivity. Qed.

Lemma C8_witness :
  let t := "The lessee said {rent} is due on the 1st." in
  ∃ data rest,
    trace (summarize sample_services t "tmp/talk_chunks" "tmp/talk.wav"
             summarizer_world).2
    = trace summarizer_world ++ PostChatCompletion "sk" data :: rest
    ∧ Forall (fun e => ¬ is_request e) rest
    ∧ model data = "gpt-4o-mini"
    ∧ messages data = [("system", system_prompt); ("user", user_prompt t)]
    ∧ Py.contains t (user_prompt t) = true.
Proof.
  apply (C8_user_message_embeds_transcript sample_services
           "The lessee said {rent} is due on the 1st."
           "tmp/talk_chunks" "tmp/talk.wav" "sk" summarizer_world).
  - reflexivity.
  - discriminate.
Defined.

(** A run whose chat request is answered with prose: the text comes back
    with the parse failure. *)
Example prose_summary_keeps_raw_text :
  (transcribe_and_summarize_video chatty_services "in/talk.mp4" "tmp" 5 60
     false [0; 1; 2]%nat (sample_world "in/talk.mp4" (Some "sk"))).1
  = SummaryParseError "Sure! Here is the summary you asked for.".
Proof.
  apply (rejected_summary_keeps_raw_text chatty_services "in/talk.mp4"
           "tmp" 5 60 false [0; 1; 2]%nat
           (sample_world "in/talk.mp4" (Some "sk")) "sk"
           "Sure! Here is the summary you asked for."
           (chat_payload
              "<talk_chunk_0.wav> <talk_chunk_1.wav> <talk_chunk_2.wav>")
           (trace (transcribe_and_summarize_video chatty_services
                     "in/talk.mp4" "tmp" 5 60 false [0; 1; 2]%nat
                     (sample_world "in/talk.mp4" (Some "sk"))).2)).
  - reflexivity.
  - apply list_elem_of_lookup. exists 6%nat. vm_compute. reflexivity.
  - reflexivity.
  - vm_compute. reflexivity.
Qed.

(** C6, at a run whose chat request is answered with two thousand opening
    brackets: the text is no JSON, [json.loads] raises RecursionError on
    it, which is no [JSONDecodeError], and the call returns the
    summarization failure with that exception: the text of the service is
    not in the result, and the parse failure is not what is returned. *)
Theorem C6_nested_text_loses_raw_text :
  let text := repeated "[" 2000 in
  let transcript :=
    "<talk_chunk_0.wav> <talk_chunk_1.wav> <talk_chunk_2.wav>" in
  let run := transcribe_and_summarize_video nested_services "in/talk.mp4"
               "tmp" 5 60 false [0; 1; 2]%nat
               (sample_world "in/talk.mp4" (Some "sk")) in
  String.length text = 2000%nat
  ∧ last (trace run.2) = Some (PostChatCompletion "sk" (chat_payload transcript))
  ∧ chat nested_services "sk" (chat_payload transcript) = ChatContent text
  ∧ json_loads nested_services text
    = JsonRaises (ExternalError "RecursionError")
  ∧ run.1 = Err "Summarization failed: "
              (Some (ExternalError "RecursionError"))
  ∧ run.1 ≠ ErrRaw "Failed to parse JSON summary" text.
Proof.
  cbv zeta. repeat split; try (vm_compute; reflexivity).
  vm_compute. discriminate.
Qed.

(** C7 as stated fails on both kinds of exit: after a run that returns a
    summary the temp directory is still there, and after a run that fails
    for want of a transcript the temp directory, the canonical audio file,
    the chunks directory and the chunk files are all still there. *)
Lemma C7_counterexample :
  let ok := transcribe_and_summarize_video sample_services "in/talk.mp4" "tmp"
              5 60 false [0; 1; 2]%nat (sample_world "in/talk.mp4" (Some "sk")) in
  let ko := transcribe_and_summarize_video sample_services "in/talk.mp4" "tmp"
              5 60 false [0; 1; 2]%nat (sample_world "in/talk.mp4" None) in
  ok.1 = Summary "{}"
  ∧ files ok.2 !! "tmp" = Some Directory
  ∧ ko.1 = NoTranscriptError
  ∧ files ko.2 !! "tmp" = Some Directory
  ∧ files ko.2 !! "tmp/talk.wav" = Some (Wav (mkAudio 16000 2 2400000))
  ∧ files ko.2 !! "tmp/talk_chunks" = Some Directory
  ∧ files ko.2 !! "tmp/talk_chunks/talk_chunk_0.wav"
    = Some (Wav (mkAudio 16000 2 960000)).
Proof. cbv zeta. repeat split; vm_compute; reflexivity. Qed.

(** C9, at two calls with the same arguments, files and services: the
    entry point has no credential argument and reads OPENAI_API_KEY from the
    environment, so the call returns a summary where the variable is set and
    the no-transcript failure where it is not. *)
Theorem C9_environment_decides_outcome :
  let w1 := sample_world "in/talk.mp4" (Some "sk") in
  let w2 := sample_world "in/talk.mp4" None in
  let run := transcribe_and_summarize_video sample_services "in/talk.mp4" "tmp"
               5 60 false [0; 1; 2]%nat in
  files w1 = files w2 ∧ trace w1 = trace w2
  ∧ (run w1).1 = Summary "{}"
  ∧ (run w2).1 = NoTranscriptError
  ∧ (run w1).1 ≠ (run w2).1.
Proof.
  cbv zeta. repeat split; try (vm_compute; reflexivity).
  vm_compute. discriminate.
Qed.

(** ** The steps of the entry point, one by one *)

(** Membership, or not, in one of the fixed lists of messages. *)
Ltac among :=
  unfold stops_early, early_messages, assembler_messages, summarizer_messages;
  cbn [app];
  repeat first [apply list_elem_of_here | apply list_elem_of_further].
Ltac not_among H :=
  unfold early_messages, assembler_messages, summarizer_messages in H;
  cbn [app] in H;
  repeat (apply elem_of_cons in H as [H|H]; [discriminate H|]);
  by apply elem_of_nil in H.

Section Steps.

Context {J : Type} (ext : Externals J).

(** The name of the download: what it yields, and the HEAD request it
    may take. *)
Lemma download_name_run url w :
  download_name ext url w
  = (saved_name ext url, if head_sent ext url then log (Head url) w else w).
Proof.
  unfold download_name, saved_name, head_sent, bind, lift, emit, ret.
  destruct (url_path ext url) as [e|path]; [done|]. cbv zeta.
  destruct (_ || _); [|done].
  destruct (head_extension ext url) as [e|[[|c x]|]]; done.
Qed.

(** The download step does not raise. When it fails it has sent the
    requests of the download up to the one that failed, and has left the
    files as they were but for what a broken download has written at the
    download path. When it succeeds it has sent them all and written the
    body at the download path. *)
Lemma resolve_input_cases video_path temp_dir is_url w :
  match resolve_input ext video_path temp_dir is_url w with
  | (inl _, _) => False
  | (inr (inl r), w') =>
      is_url = true
      ∧ (∃ e, r = Err "Failed to download from URL: " (Some e))
      ∧ OPENAI_API_KEY w' = OPENAI_API_KEY w
      ∧ (∃ evs, trace w' = trace w ++ evs
                ∧ evs `prefix_of` download_requests ext video_path)
      ∧ (files w' = files w
         ∨ ∃ file_name partial,
             saved_name ext video_path = inr file_name
             ∧ files w' = <[Path.join temp_dir file_name := partial]> (files w))
  | (inr (inr vp), w') =>
      if is_url then
        ∃ file_name body,
          saved_name ext video_path = inr file_name
          ∧ url_get ext video_path = GetStream body None
          ∧ vp = Path.join temp_dir file_name
          ∧ w' = mkWorld (<[vp := body]> (files w)) (OPENAI_API_KEY w)
                   (trace w ++ download_requests ext video_path)
      else vp = video_path ∧ w' = w
  end.
Proof.
  unfold resolve_input. destruct is_url; [|done].
  unfold try_except, bind at 1. rewrite download_name_run.
  unfold download_requests.
  set (w0 := if head_sent ext video_path then _ else w).
  assert (Hw0 : files w0 = files w ∧ OPENAI_API_KEY w0 = OPENAI_API_KEY w
                ∧ trace w0 = trace w
                    ++ (if head_sent ext video_path then [Head video_path]
                        else [])).
  { unfold w0. destruct (head_sent ext video_path); simpl; [done|].
    by rewrite app_nil_r. }
  clearbody w0. destruct Hw0 as (Hf & Hk & Ht).
  destruct (saved_name ext video_path) as [e|file_name].
  { unfold ret. split_and!; eauto.
    eexists. split; [exact Ht|]. by apply prefix_app_r. }
  unfold bind, download_file_from_url, try_except, bind, emit.
  set (w1 := log (Get video_path) w0).
  assert (Hw1 : files w1 = files w ∧ OPENAI_API_KEY w1 = OPENAI_API_KEY w
                ∧ trace w1 = trace w
                    ++ (if head_sent ext video_path then [Head video_path]
                        else []) ++ [Get video_path]).
  { unfold w1. simpl. by rewrite Ht, <- app_assoc. }
  clearbody w1. destruct Hw1 as (Hf1 & Hk1 & Ht1).
  destruct (url_get ext video_path) as [e|written broken].
  { unfold raise, ret. split_and!; eauto. }
  unfold Os.open_wb. case_bool_decide.
  { unfold raise, ret. split_and!; eauto. }
  unfold Os.write. rewrite Hf1.
  destruct (files w !! Path.join temp_dir file_name) as [[| |]|] eqn:Hp.
  { unfold raise, ret. split_and!; eauto. }
  all: destruct broken as [e|]; unfold raise, ret;
    cbn [files OPENAI_API_KEY trace set_files]; rewrite ?Hf1.
  all: try (split_and!; by eauto).
  all: try (exists file_name, written; split_and!; try done;
            unfold set_files; by rewrite Hf1, Hk1, Ht1).
Qed.

(** The normalizer does not raise and logs nothing; the audio file it
    yields is the canonical one. *)
Lemma extract_audio_cases video_path temp_dir video_name w :
  match extract_audio ext video_path temp_dir video_name w with
  | (inl _, _) => False
  | (inr (inl r), w') =>
      trace w' = trace w
      ∧ ∃ e, r = Err (match get_file_type ext video_path with
                      | Video => "Audio extraction failed: "
                      | Audio => "Audio conversion failed: "
                      end) (Some e)
  | (inr (inr audio_path), w') =>
      trace w' = trace w
      ∧ audio_path = Path.join temp_dir (video_name +:+ ".wav")
  end.
Proof.
  assert (Hmk : ∀ p w0, trace (Os.makedirs p w0).2 = trace w0).
  { intros p w0. unfold Os.makedirs. by repeat case_match. }
  assert (Hwr : ∀ p d w0, trace (Os.write p d w0).2 = trace w0).
  { intros p d w0. unfold Os.write. by repeat case_match. }
  assert (Hff : ∀ c o w0, trace (run_ffmpeg ext c o w0).2 = trace w0).
  { intros c o w0. unfold run_ffmpeg, bind, lift.
    destruct (ffmpeg ext c); [done|]. apply Hwr. }
  assert (Hcp : ∀ s d w0, trace (Os.copy s d w0).2 = trace w0).
  { intros s d w0. unfold Os.copy, bind, Os.open_rb.
    destruct (files w0 !! s) as [[]|]; try done;
      destruct (files w0 !! d) as [[]|]; apply Hwr. }
  unfold extract_audio.
  destruct (get_file_type ext video_path); unfold try_except, bind at 1.
  - specialize (Hmk (Path.dirname (Path.join temp_dir (video_name +:+ ".wav"))) w).
    destruct (Os.makedirs _ w) as [[e|[]] w1]; simpl in Hmk;
      [unfold ret; eauto|].
    unfold bind. match goal with |- context [run_ffmpeg ext ?c ?o w1] =>
      specialize (Hff c o w1); destruct (run_ffmpeg ext c o w1) as [[e|[]] w2]
    end; simpl in Hff; unfold ret; split; try congruence; eauto.
  - specialize (Hmk (Path.dirname (Path.join temp_dir (video_name +:+ ".wav"))) w).
    destruct (Os.makedirs _ w) as [[e|[]] w1]; simpl in Hmk;
      [unfold ret; eauto|].
    destruct (negb (Path.endswith _ _)).
    + unfold bind. match goal with |- context [run_ffmpeg ext ?c ?o w1] =>
        specialize (Hff c o w1); destruct (run_ffmpeg ext c o w1) as [[e|[]] w2]
      end; simpl in Hff; unfold ret; split; try congruence; eauto.
    + destruct (String.eqb_spec video_path
                  (Path.join temp_dir (video_name +:+ ".wav"))) as [Heq|Hne];
        cbn [negb]; [unfold ret; split; congruence|].
      unfold bind. match goal with |- context [Os.copy ?s ?d w1] =>
        specialize (Hcp s d w1); destruct (Os.copy s d w1) as [[e|[]] w2]
      end; simpl in Hcp; unfold ret; split; try congruence; eauto.
Qed.

(** The splitter does not raise. *)
Lemma split_audio_cases audio_path chunks_dir video_name chunk_length_sec w :
  match split_audio (J:=J) audio_path chunks_dir video_name chunk_length_sec w with
  | (inl _, _) => False
  | (inr (inl r), w') =>
      r = EmptyAudioError ∨ ∃ e, r = Err "Audio chunking failed: " (Some e)
  | (inr (inr audio_chunks), w') => audio_chunks ≠ []
  end.
Proof.
  unfold split_audio, try_except.
  destruct (bind _ _ w) as [[e|r] w'] eqn:Hrun; [unfold ret; eauto|].
  revert Hrun. unfold bind.
  repeat case_match; intros; simplify_eq; unfold ret in *; simplify_eq; eauto.
Qed.

(** The collection of the futures does not raise. *)
Lemma collect_returns temp_dir audio_chunks completion : ∀ w,
  ∃ rs w', collect ext temp_dir audio_chunks completion w = (inr rs, w').
Proof.
  induction completion as [|idx rest IH]; intros w; simpl.
  - unfold ret. eauto.
  - destruct (audio_chunks !! idx) as [chunk_path|]; [|apply IH].
    unfold bind at 1, try_except, bind at 1.
    destruct (process_audio_chunk_returns ext temp_dir chunk_path w)
      as (x & w1 & ->).
    unfold ret at 1. unfold bind.
    destruct (IH w1) as (rs & w' & ->). unfold ret. eauto.
Qed.

(** Every run of the entry point ends at one of its steps. *)
Lemma transcribe_and_summarize_video_unfolds video_path temp_dir
    concurrency_level chunk_length_sec is_url completion w :
  Unfolds ext video_path temp_dir concurrency_level chunk_length_sec is_url
    completion w
    (transcribe_and_summarize_video ext video_path temp_dir concurrency_level
       chunk_length_sec is_url completion w).
Proof.
  unfold transcribe_and_summarize_video, pipeline_body, bind at 1.
  destruct (Os.makedirs temp_dir w) as [[e|[]] w1] eqn:Hmk.
  { assert (w1 = w) as -> by (by eapply makedirs_raises). by constructor. }
  unfold returning at 1, bind at 1.
  pose proof (resolve_input_cases video_path temp_dir is_url w1) as H1.
  destruct (resolve_input _ _ _ _ w1) as [[e|[r|vp]] w2] eqn:Hres; [done| |].
  { unfold ret. by eapply ends_at_download. }
  unfold returning at 1, bind at 1.
  fold (video_name_of vp). fold (chunks_dir_of temp_dir vp).
  pose proof (extract_audio_cases vp temp_dir (video_name_of vp) w2) as H2.
  destruct (extract_audio _ _ _ _ w2) as [[e|[r|ap]] w3] eqn:Hext; [done| |].
  { unfold ret. by eapply ends_at_normalizer. }
  unfold returning at 1, bind at 1.
  pose proof (split_audio_cases ap (chunks_dir_of temp_dir vp)
                (video_name_of vp) chunk_length_sec w3) as H3.
  destruct (split_audio _ _ _ _ w3) as [[e|[r|audio_chunks]] w4] eqn:Hsplit;
    [done| |].
  { unfold ret. by eapply ends_at_splitter. }
  unfold bind at 1, dispatch.
  destruct (Z.leb_spec concurrency_level 0) as [Hc|Hc].
  { unfold raise. by eapply ends_at_pool. }
  destruct (collect_returns temp_dir audio_chunks completion w4)
    as (rs & w5 & Hcol).
  rewrite Hcol. unfold bind.
  destruct (merge_and_summarize_returns ext rs (chunks_dir_of temp_dir vp) ap w5)
    as (r & w6 & Hms).
  rewrite Hms. unfold ret. by eapply ends_after_pool.
Qed.

End Steps.

(** ** The outcomes of the entry point *)

Section Outcomes.

Context {J : Type} (ext : Externals J).

Lemma step_keeps (I : World → Prop) {A} (m : M A) w r w' :
  preserves I m → I w → m w = (r, w') → I w'.
Proof. intros Hm Hw Heq. specialize (Hm w Hw). by rewrite Heq in Hm. Qed.

Lemma preserves_makedirs_logged P k t0 p :
  preserves (logged_only P k t0) (Os.makedirs p).
Proof. intros w. apply logged_only_makedirs. Qed.

(** The steps before the pool log nothing but the requests of the
    download and exports. *)
Lemma preserves_resolve_input_logged P k t0 video_path temp_dir is_url :
  (∀ e, is_download e → P e) →
  preserves (logged_only P k t0) (resolve_input ext video_path temp_dir is_url).
Proof.
  intros HP. apply preserves_resolve_input; intros;
    [by apply logged_only_write|apply logged_only_log; [by apply HP|done]..].
Qed.

Lemma preserves_extract_audio_logged P k t0 video_path temp_dir video_name :
  preserves (logged_only P k t0)
    (extract_audio ext video_path temp_dir video_name).
Proof.
  apply preserves_extract_audio; intros;
    [by apply logged_only_makedirs|by apply logged_only_write].
Qed.

Lemma preserves_split_audio_logged P k t0 audio_path chunks_dir video_name
    chunk_length_sec :
  (∀ p a, P (Export p a)) →
  preserves (logged_only P k t0)
    (split_audio (J:=J) audio_path chunks_dir video_name chunk_length_sec).
Proof.
  intros HP. apply preserves_split_audio; intros;
    [by apply logged_only_makedirs|by apply logged_only_write
    |by apply logged_only_log].
Qed.

Lemma preserves_collect_logged P k t0 temp_dir audio_chunks completion :
  (∀ p a, P (Export p a)) → (∀ p, P (Remove p)) →
  (∀ key p, k = Some key → key ≠ EmptyString → P (PostTranscription key p)) →
  preserves (logged_only P k t0) (collect ext temp_dir audio_chunks completion).
Proof.
  intros HPe HPr HPt. apply preserves_collect; intros;
    [by apply logged_only_write|by apply logged_only_remove
    |by apply logged_only_log|by apply logged_only_whisper].
Qed.

(** What the steps before the pool have logged when the run leaves them:
    the requests of the download and exports only. *)
Lemma before_pool_logged P video_path temp_dir chunk_length_sec is_url w
    w1 vp w2 ap w3 r w4 :
  (∀ p a, P (Export p a)) →
  (∀ e, is_download e → P e) →
  Os.makedirs temp_dir w = (inr tt, w1) →
  resolve_input ext video_path temp_dir is_url w1 = (inr (inr vp), w2) →
  extract_audio ext vp temp_dir (video_name_of vp) w2 = (inr (inr ap), w3) →
  split_audio (J:=J) ap (chunks_dir_of temp_dir vp) (video_name_of vp)
    chunk_length_sec w3 = (r, w4) →
  logged_only P (OPENAI_API_KEY w) (trace w) w4.
Proof.
  intros HP HPd Hmk Hres Hext Hsplit.
  eapply step_keeps; [by apply preserves_split_audio_logged| |exact Hsplit].
  eapply step_keeps; [apply preserves_extract_audio_logged| |exact Hext].
  eapply step_keeps; [by apply preserves_resolve_input_logged| |exact Hres].
  eapply step_keeps; [apply preserves_makedirs_logged| |exact Hmk].
  apply logged_only_refl.
Qed.

(** The ways STEPS 4 and 5 end. *)
Lemma merge_and_summarize_cases rs cd ap w r w' :
  merge_and_summarize ext rs cd ap w = (inr r, w') →
  (w' = w
   ∧ (r = NoTranscriptError ∨ (∃ e, r = TranscriptMergingFailed e)
      ∨ (r = MissingCredentialError
         ∧ (OPENAI_API_KEY w = None ∨ OPENAI_API_KEY w = Some EmptyString))))
  ∨ ∃ t key,
      merge_transcripts (J:=J) rs = inr t
      ∧ OPENAI_API_KEY w = Some key ∧ key ≠ EmptyString
      ∧ let data := chat_payload t in
        let w1 := log (PostChatCompletion key data) w in
        (∃ e, (chat ext key data = ChatRaises e
               ∨ ∃ text, chat ext key data = ChatContent text
                         ∧ json_loads ext text = JsonRaises e)
              ∧ r = SummarizationError e ∧ w' = w1)
        ∨ (∃ text, chat ext key data = ChatContent text
              ∧ json_loads ext text = JSONDecodeError
              ∧ r = SummaryParseError text ∧ w' = w1)
        ∨ (∃ text j, chat ext key data = ChatContent text
              ∧ json_loads ext text = JsonValue j
              ∧ r = Summary j ∧ w' = (clean_up cd ap w1).2).
Proof.
  unfold merge_and_summarize.
  destruct (merge_transcripts rs) as [r0|t] eqn:Hm.
  - intros [= <- <-]. left. split; [done|].
    revert Hm. unfold merge_transcripts.
    destruct (sorted rs) as [e|s]; [intros [= <-]; eauto|].
    destruct (Py.join _ _); [intros [= <-]; eauto|done].
  - destruct (summarize_cases ext t cd ap w)
      as [[Hk ->]|(key & Hkey & Hne & [(e & He & ->)|[(text & Ht & Hj & ->)|(text & j & Ht & Hj & ->)]])];
      intros [= <- <-].
    + left. eauto.
    + right. exists t, key. repeat split; try done. left. eauto.
    + right. exists t, key. repeat split; try done. right. left. eauto.
    + right. exists t, key. repeat split; try done. right. right. eauto 6.
Qed.

(** X1: the outcomes of a call form a closed set. A returned error carries
    one of nine fixed messages, a parse failure carries a text on which
    [json.loads] raised [JSONDecodeError], a summary is the value that
    [json.loads] returned for a text, and an exception escapes the call in
    two cases only: the temp directory cannot be created, or the
    concurrency level is not positive. *)
Theorem outcomes_are_closed
    (video_path temp_dir : string) (concurrency_level chunk_length_sec : Z)
    (is_url : bool) (completion : list nat) (w : World) :
  let run := transcribe_and_summarize_video ext video_path temp_dir
               concurrency_level chunk_length_sec is_url completion w in
  match run.1 with
  | Summary j => ∃ text, json_loads ext text = JsonValue j
  | ErrRaw msg raw =>
      msg = "Failed to parse JSON summary"
      ∧ json_loads ext raw = JSONDecodeError
  | Err msg _ =>
      msg ∈ early_messages ++ assembler_messages ++ summarizer_messages
  | Uncaught e =>
      Os.makedirs temp_dir w = (inl e, w)
      ∨ (concurrency_level ≤ 0
         ∧ e = ValueError "max_workers must be greater than 0")
  end.
Proof.
  intros run. unfold run.
  destruct (transcribe_and_summarize_video_unfolds ext video_path temp_dir
              concurrency_level chunk_length_sec is_url completion w)
    as [e Hmk|w1 r w2 Hmk Hres|w1 vp w2 r w3 Hmk Hres Hext
        |w1 vp w2 ap w3 r w4 Hmk Hres Hext Hsplit
        |w1 vp w2 ap w3 chunks w4 Hmk Hres Hext Hsplit Hc
        |w1 vp w2 ap w3 chunks w4 rs w5 r w6 Hmk Hres Hext Hsplit Hc Hcol Hms];
    cbn [fst].
  - by left.
  - pose proof (resolve_input_cases ext video_path temp_dir is_url w1) as H.
    rewrite Hres in H. destruct H as (_ & (e & ->) & _). among.
  - pose proof (extract_audio_cases ext vp temp_dir (video_name_of vp) w2) as H.
    rewrite Hext in H. destruct H as (_ & e & ->).
    destruct (get_file_type ext vp); among.
  - pose proof (split_audio_cases (J:=J) ap (chunks_dir_of temp_dir vp)
                  (video_name_of vp) chunk_length_sec w3) as H.
    rewrite Hsplit in H. destruct H as [->|[e ->]]; among.
  - by right.
  - apply merge_and_summarize_cases in Hms
      as [[_ [->|[[e ->]|[-> _]]]]|(t & key & _ & _ & _ & Hcases)];
      [among..|].
    cbn zeta in Hcases.
    destruct Hcases as [(e & _ & -> & _)|[(text & _ & Hj & -> & _)|(text & j & _ & Hj & -> & _)]];
      [among|done|eauto].
Qed.

End Outcomes.

Section Requests.

Context {J : Type} (ext : Externals J).

Variables (video_path temp_dir : string)
          (concurrency_level chunk_length_sec : Z) (is_url : bool)
          (completion : list nat) (w : World).

(** A run either stops before the pool, having logged the requests of
    the download and exports only, or goes through the pool and ends in
    STEPS 4 and 5. *)
Lemma unfolds_logged P r w' :
  (∀ p a, P (Export p a)) →
  (∀ e, is_download e → P e) →
  Unfolds ext video_path temp_dir concurrency_level chunk_length_sec is_url
    completion w (r, w') →
  (stops_early r ∧ logged_only P (OPENAI_API_KEY w) (trace w) w')
  ∨ ∃ vp ap audio_chunks w4 rs w5,
      logged_only P (OPENAI_API_KEY w) (trace w) w4
      ∧ collect ext temp_dir audio_chunks completion w4 = (inr rs, w5)
      ∧ merge_and_summarize ext rs (chunks_dir_of temp_dir vp) ap w5
        = (inr r, w').
Proof.
  intros HP HPd Hu.
  inversion Hu
    as [e Hmk|w1 r0 w2 Hmk Hres|w1 vp w2 r0 w3 Hmk Hres Hext
        |w1 vp w2 ap w3 r0 w4 Hmk Hres Hext Hsplit
        |w1 vp w2 ap w3 chunks w4 Hmk Hres Hext Hsplit Hc
        |w1 vp w2 ap w3 chunks w4 rs w5 r0 w6 Hmk Hres Hext Hsplit Hc Hcol Hms];
    subst.
  - left. split; [done|apply logged_only_refl].
  - left.
    pose proof (resolve_input_cases ext video_path temp_dir is_url w1) as H.
    rewrite Hres in H. destruct H as (_ & (e & ->) & _). split; [among|].
    eapply step_keeps;
      [by apply (preserves_resolve_input_logged ext)| |exact Hres].
    eapply step_keeps; [apply preserves_makedirs_logged| |exact Hmk].
    apply logged_only_refl.
  - left.
    pose proof (extract_audio_cases ext vp temp_dir (video_name_of vp) w2) as H.
    rewrite Hext in H. destruct H as (_ & e & ->). split.
    { destruct (get_file_type ext vp); among. }
    eapply step_keeps; [apply (preserves_extract_audio_logged ext)| |exact Hext].
    eapply step_keeps;
      [by apply (preserves_resolve_input_logged ext)| |exact Hres].
    eapply step_keeps; [apply preserves_makedirs_logged| |exact Hmk].
    apply logged_only_refl.
  - left.
    pose proof (split_audio_cases (J:=J) ap (chunks_dir_of temp_dir vp)
                  (video_name_of vp) chunk_length_sec w3) as H.
    rewrite Hsplit in H. split; [destruct H as [->|[e ->]]; among|].
    by eapply (before_pool_logged ext).
  - left. split; [done|]. by eapply (before_pool_logged ext).
  - right. exists vp, ap, chunks, w4, rs, w5. split; [|done].
    by eapply (before_pool_logged ext).
Qed.

(** The requests that the download step has sent when the run leaves
    it. *)
Lemma resolve_input_requests w1 r w2 :
  resolve_input ext video_path temp_dir is_url w1 = (r, w2) →
  ∃ reqs, trace w2 = trace w1 ++ reqs
    ∧ reqs `prefix_of` (if is_url then download_requests ext video_path
                        else []).
Proof.
  intros Hres.
  pose proof (resolve_input_cases ext video_path temp_dir is_url w1) as H.
  rewrite Hres in H. destruct r as [e|[r|vp]]; [done| |].
  - destruct H as (-> & _ & _ & (evs & Ht & Hp) & _). by exists evs.
  - destruct is_url.
    + destruct H as (file_name & body & _ & _ & _ & ->).
      by exists (download_requests ext video_path).
    + destruct H as [_ ->]. exists []. by rewrite app_nil_r.
Qed.

(** X2: a call that stops before the pool starts has sent no request to
    the speech-to-text or the chat service. What it has logged is, in
    order, requests of the download (for a URL: the HEAD that a generated
    name takes, then the GET, as far as the download got) and then chunk
    exports; when the download or the conversion to WAV fails, no chunk
    has been exported. *)
Theorem nothing_sent_before_pool :
  let run := transcribe_and_summarize_video ext video_path temp_dir
               concurrency_level chunk_length_sec is_url completion w in
  ∃ reqs evs, trace run.2 = trace w ++ reqs ++ evs
    ∧ reqs `prefix_of` (if is_url then download_requests ext video_path
                        else [])
    ∧ match run.1 with
      | Uncaught _ => Forall is_export evs
      | Err msg _ =>
          (msg ∈ ["Failed to download from URL: "; "Audio extraction failed: ";
                  "Audio conversion failed: "] → evs = [])
          ∧ (msg ∈ early_messages → Forall is_export evs)
      | _ => True
      end.
Proof.
  intros run. unfold run.
  pose proof (transcribe_and_summarize_video_unfolds ext video_path temp_dir
                concurrency_level chunk_length_sec is_url completion w) as Hu.
  destruct (transcribe_and_summarize_video _ _ _ _ _ _ _ w) as [r w'].
  cbn [fst snd].
  assert (Hmk : ∀ w1, Os.makedirs temp_dir w = (inr tt, w1) → trace w1 = trace w).
  { intros w1. unfold Os.makedirs. repeat case_match; by intros [= <-]. }
  assert (Hsp : ∀ ap cd vn w3 r3 w4,
            split_audio (J:=J) ap cd vn chunk_length_sec w3 = (r3, w4) →
            ∃ evs, trace w4 = trace w3 ++ evs ∧ Forall is_export evs).
  { intros ap cd vn w3 r3 w4 Hsplit.
    assert (Hl : logged_only is_export (OPENAI_API_KEY w3) (trace w3) w4).
    { eapply step_keeps; [by apply (preserves_split_audio_logged (J:=J))|
                          apply logged_only_refl|exact Hsplit]. }
    by destruct Hl as [_ ?]. }
  inversion Hu
    as [e Hmk1|w1 r0 w2 Hmk1 Hres|w1 vp w2 r0 w3 Hmk1 Hres Hext
        |w1 vp w2 ap w3 r0 w4 Hmk1 Hres Hext Hsplit
        |w1 vp w2 ap w3 chunks w4 Hmk1 Hres Hext Hsplit Hc
        |w1 vp w2 ap w3 chunks w4 rs w5 r0 w6 Hmk1 Hres Hext Hsplit Hc Hcol Hms];
    subst.
  - exists [], []. rewrite !app_nil_r. split_and!; [done| |done].
    by eexists.
  - destruct (resolve_input_requests _ _ _ Hres) as (reqs & Ht & Hp).
    pose proof (resolve_input_cases ext video_path temp_dir is_url w1) as H.
    rewrite Hres in H. destruct H as (_ & (e & ->) & _).
    exists reqs, []. rewrite app_nil_r, Ht, (Hmk w1) by done. done.
  - destruct (resolve_input_requests _ _ _ Hres) as (reqs & Ht & Hp).
    pose proof (extract_audio_cases ext vp temp_dir (video_name_of vp) w2) as H.
    rewrite Hext in H. destruct H as (Ht3 & e & ->).
    exists reqs, []. rewrite app_nil_r, Ht3, Ht, (Hmk w1) by done. done.
  - destruct (resolve_input_requests _ _ _ Hres) as (reqs & Ht & Hp).
    pose proof (extract_audio_cases ext vp temp_dir (video_name_of vp) w2) as H.
    rewrite Hext in H. destruct H as (Ht3 & _).
    destruct (Hsp _ _ _ _ _ _ Hsplit) as (evs & Ht4 & Hall).
    exists reqs, evs. rewrite Ht4, Ht3, Ht, (Hmk w1), <- app_assoc by done.
    split_and!; [done..|].
    pose proof (split_audio_cases (J:=J) ap (chunks_dir_of temp_dir vp)
                  (video_name_of vp) chunk_length_sec w3) as H.
    rewrite Hsplit in H. destruct H as [->|[e ->]]; (split; [|done]);
      intros Hmsg; exfalso; not_among Hmsg.
  - destruct (resolve_input_requests _ _ _ Hres) as (reqs & Ht & Hp).
    pose proof (extract_audio_cases ext vp temp_dir (video_name_of vp) w2) as H.
    rewrite Hext in H. destruct H as (Ht3 & _).
    destruct (Hsp _ _ _ _ _ _ Hsplit) as (evs & Ht4 & Hall).
    exists reqs, evs. rewrite Ht4, Ht3, Ht, (Hmk w1), <- app_assoc by done.
    done.
  - assert (Hl : logged_only (fun _ => True) (OPENAI_API_KEY w) (trace w) w5).
    { eapply step_keeps; [by apply (preserves_collect_logged ext)| |exact Hcol].
      by eapply (before_pool_logged ext). }
    assert (Hl' : logged_only (fun _ => True) (OPENAI_API_KEY w) (trace w) w').
    { eapply logged_only_merge_and_summarize; [| | |exact Hl|exact Hms];
        [done|done|by right]. }
    destruct Hl' as [_ (evs & Hevs & _)]. exists [], evs.
    split; [done|]. split; [by eexists|].
    apply merge_and_summarize_cases in Hms
      as [[_ [->|[[e ->]|[-> _]]]]|(t & key & _ & _ & _ & Hcases)].
    1-3: split; intros Hmsg; exfalso; not_among Hmsg.
    cbn zeta in Hcases.
    destruct Hcases as [(e & _ & -> & _)|[(text & _ & Hj & -> & _)|(text & j & _ & Hj & -> & _)]];
      [|done..].
    split; intros Hmsg; exfalso; not_among Hmsg.
Qed.

(** X3: the chat request is the last request of a call, and there is at
    most one. A call that returns a summary, a parse failure or a
    summarization failure has sent exactly one chat request, after every
    transcription request, and only removals follow it; a call that ends
    in any other way has sent none. *)
Theorem chat_request_comes_last :
  let run := transcribe_and_summarize_video ext video_path temp_dir
               concurrency_level chunk_length_sec is_url completion w in
  ∃ evs, trace run.2 = trace w ++ evs
    ∧ ((summarizer_called run.1
        ∧ ∃ pre key data post,
            evs = pre ++ PostChatCompletion key data :: post
            ∧ Forall (fun e => ¬ is_chat_request e) pre
            ∧ Forall (fun e => ¬ is_request e) post)
       ∨ (¬ summarizer_called run.1
          ∧ Forall (fun e => ¬ is_chat_request e) evs)).
Proof.
  intros run. unfold run.
  pose proof (transcribe_and_summarize_video_unfolds ext video_path temp_dir
                concurrency_level chunk_length_sec is_url completion w) as Hu.
  destruct (transcribe_and_summarize_video _ _ _ _ _ _ _ w) as [r w'].
  cbn [fst snd].
  set (P := fun e => ¬ is_chat_request e).
  destruct (unfolds_logged P r w') as [[Hr Hl]|Hl];
    [by intros ?? []|by intros [] ? []|done| |].
  - destruct Hl as [_ (evs & Hevs & Hall)]. exists evs. split; [done|].
    right. split; [|done].
    destruct r as [j|msg cause|msg raw|e]; simpl in *; try done;
      [intros ->; not_among Hr|by intros []].
  - destruct Hl as (vp & ap & chunks & w4 & rs & w5 & Hl4 & Hcol & Hms).
    assert (Hl5 : logged_only P (OPENAI_API_KEY w) (trace w) w5).
    { eapply step_keeps; [apply (preserves_collect_logged ext)| |exact Hcol];
        [by intros ?? []|by intros ? []|by intros ???? []|done]. }
    destruct Hl5 as [Hk (evs & Hevs & Hall)].
    apply merge_and_summarize_cases in Hms
      as [[-> Hr]|(t & key & _ & _ & _ & Hcases)].
    { exists evs. split; [done|]. right. split; [|done].
      destruct Hr as [->|[[e ->]|[-> _]]]; by simpl. }
    cbn zeta in Hcases.
    set (data := chat_payload t) in *.
    assert (Hend : ∀ post, trace w' = trace w5 ++ PostChatCompletion key data :: post →
                           Forall (fun e => ¬ is_request e) post →
                           summarizer_called r →
      ∃ evs0, trace w' = trace w ++ evs0
        ∧ ((summarizer_called r
            ∧ ∃ pre key0 data0 post0,
                evs0 = pre ++ PostChatCompletion key0 data0 :: post0
                ∧ Forall P pre ∧ Forall (fun e => ¬ is_request e) post0)
           ∨ (¬ summarizer_called r ∧ Forall P evs0))).
    { intros post Ht Hpost Hr. exists (evs ++ PostChatCompletion key data :: post).
      split; [by rewrite Ht, Hevs, <- app_assoc|].
      left. split; [done|]. by exists evs, key, data, post. }
    destruct Hcases as [(e & _ & -> & ->)|[(text & _ & _ & -> & ->)|(text & j & _ & _ & -> & ->)]].
    + by apply (Hend []).
    + by apply (Hend []).
    + destruct (clean_up_trace (chunks_dir_of temp_dir vp) ap
                  (log (PostChatCompletion key data) w5)) as [_ Hc].
      cbn zeta in Hc. simpl in Hc.
      destruct Hc as [Hc|[Hc|Hc]]; rewrite <- ?app_assoc in Hc; simpl in Hc.
      * by apply (Hend []).
      * apply (Hend [Rmtree (chunks_dir_of temp_dir vp)]); [done| |done].
        by repeat constructor; intros [].
      * apply (Hend [Rmtree (chunks_dir_of temp_dir vp); Remove ap]);
          [done| |done].
        by repeat constructor; intros [].
Qed.

End Requests.

(** ** More on the chunk splitter *)

Section SplitterEdges.

Context {J : Type} (ext : Externals J).

(** The splitter yields chunks only for a positive chunk length. *)
Lemma split_audio_needs_positive_length audio_path chunks_dir video_name
    chunk_length_sec w audio_chunks w' :
  split_audio (J:=J) audio_path chunks_dir video_name chunk_length_sec w
  = (inr (inr audio_chunks), w') →
  0 < chunk_length_sec.
Proof.
  unfold split_audio, try_except, bind at 1.
  destruct (Os.makedirs chunks_dir w) as [[e|[]] w1]; [by unfold ret|].
  unfold bind at 1.
  destruct (from_file audio_path w1) as [[e|audio] w2]; [by unfold ret|].
  unfold bind at 1, lift, py_range.
  destruct (Z.eqb_spec (chunk_length_sec * 1000) 0); [by unfold ret|].
  destruct (Z.ltb_spec (chunk_length_sec * 1000) 0); [by unfold bind, ret|].
  intros _. lia.
Qed.

(** X4: settings that are not positive never reach the pool. With a
    concurrency level or a chunk length of zero or less, the call ends
    before any chunk is transcribed: it returns one of the early failures,
    or an exception escapes it. *)
Theorem invalid_settings_stop_early
    (video_path temp_dir : string) (concurrency_level chunk_length_sec : Z)
    (is_url : bool) (completion : list nat) (w : World) :
  concurrency_level ≤ 0 ∨ chunk_length_sec ≤ 0 →
  stops_early
    (transcribe_and_summarize_video ext video_path temp_dir concurrency_level
       chunk_length_sec is_url completion w).1.
Proof.
  intros Hbad.
  destruct (transcribe_and_summarize_video_unfolds ext video_path temp_dir
              concurrency_level chunk_length_sec is_url completion w)
    as [e Hmk|w1 r w2 Hmk Hres|w1 vp w2 r w3 Hmk Hres Hext
        |w1 vp w2 ap w3 r w4 Hmk Hres Hext Hsplit
        |w1 vp w2 ap w3 chunks w4 Hmk Hres Hext Hsplit Hc
        |w1 vp w2 ap w3 chunks w4 rs w5 r w6 Hmk Hres Hext Hsplit Hc Hcol Hms];
    cbn [fst].
  - done.
  - pose proof (resolve_input_cases ext video_path temp_dir is_url w1) as H.
    rewrite Hres in H. destruct H as (_ & (e & ->) & _). among.
  - pose proof (extract_audio_cases ext vp temp_dir (video_name_of vp) w2) as H.
    rewrite Hext in H. destruct H as (_ & e & ->).
    destruct (get_file_type ext vp); among.
  - pose proof (split_audio_cases (J:=J) ap (chunks_dir_of temp_dir vp)
                  (video_name_of vp) chunk_length_sec w3) as H.
    rewrite Hsplit in H. destruct H as [->|[e ->]]; among.
  - done.
  - apply split_audio_needs_positive_length in Hsplit. lia.
Qed.

(** X5: the splitter at a chunk length that is not positive. A length of
    zero makes [range] raise, and the splitter returns the chunking failure
    with that exception; a negative length gives an empty range, and the
    splitter returns the empty-audio failure. In both cases the chunks
    directory has been created and nothing has been exported. *)
Theorem split_audio_without_windows (w : World)
    (audio_path chunks_dir video_name : string)
    (source : AudioSegment) (L : Z) :
  L ≤ 0 →
  files w !! audio_path = Some (Wav source) →
  chunks_dir ≠ EmptyString →
  files w !! chunks_dir = None ∨ files w !! chunks_dir = Some Directory →
  split_audio (J:=J) audio_path chunks_dir video_name L w
  = (inr (inl (if decide (L = 0)
               then Err "Audio chunking failed: "
                      (Some (ValueError "range() arg 3 must not be zero"))
               else EmptyAudioError)),
     set_files (fun _ => <[chunks_dir := Directory]> (files w)) w).
Proof.
  intros HL Hsrc Hcd Hdir.
  assert (Hne : chunks_dir ≠ audio_path).
  { intros ->. destruct Hdir as [H|H]; rewrite H in Hsrc; done. }
  unfold split_audio, try_except, bind at 1.
  rewrite makedirs_ok by done.
  set (w1 := set_files _ w).
  unfold bind at 1, from_file, bind at 1, Os.open_rb.
  replace (files w1 !! audio_path) with (Some (Wav source))
    by (unfold w1; simpl; by rewrite lookup_insert_ne).
  unfold ret at 1, bind at 1, lift, py_range.
  destruct (decide (L = 0)) as [->|HL0]; [done|].
  destruct (Z.eqb_spec (L * 1000) 0); [lia|].
  destruct (Z.ltb_spec (L * 1000) 0); [|lia].
  done.
Qed.

End SplitterEdges.

(** ** Chunk files do not collide *)

Section ChunkFiles.

Lemma append_nil_l (s : string) : EmptyString +:+ s = s.
Proof. done. Qed.

Lemma append_inv_l (s a b : string) : s +:+ a = s +:+ b → a = b.
Proof.
  induction s as [|c s IH]; [done|]. rewrite !append_cons.
  intros [= H]. by apply IH.
Qed.

Lemma append_inv_r (a b s : string) : a +:+ s = b +:+ s → a = b.
Proof.
  revert b. induction a as [|c a IH]; intros [|d b] H.
  - done.
  - apply (f_equal String.length) in H. rewrite !length_append in H.
    simpl in H. lia.
  - apply (f_equal String.length) in H. rewrite !length_append in H.
    simpl in H. lia.
  - rewrite !append_cons in H. injection H as -> H. f_equal. by apply IH.
Qed.

(** Distinct numbers have distinct decimal numerals. *)
Lemma str_inj (i j : nat) : Py.str i = Py.str j → i = j.
Proof.
  unfold Py.str. intros H.
  apply Unsigned.to_uint_inj.
  assert (Some (Nat.to_uint i) = Some (Nat.to_uint j)) as [= ->]; [|done].
  by rewrite <- !NilEmpty.usu, H.
Qed.

Lemma join_inv dir a b :
  String.prefix "/" a = String.prefix "/" b →
  Path.join dir a = Path.join dir b → a = b.
Proof.
  unfold Path.join. intros <-.
  destruct (String.prefix "/" a); [done|].
  destruct dir as [|c dir]; [done|].
  destruct (Path.ends_with_char "/" (String c dir)); intros H.
  - by apply append_inv_l in H.
  - by apply append_inv_l, append_inv_l in H.
Qed.

(** X7: the chunk files of a recording are pairwise distinct, so no export
    of the splitter overwrites another: the file of chunk [i] is the file
    of chunk [j] only when [i = j]. *)
Theorem chunk_files_are_distinct (chunks_dir video_name : string) (i j : nat) :
  chunk_file chunks_dir video_name i = chunk_file chunks_dir video_name j
  ↔ i = j.
Proof.
  split; [|by intros ->]. unfold chunk_file. intros H.
  apply join_inv in H.
  - apply append_inv_l, append_inv_l, append_inv_r in H. by apply str_inj.
  - destruct video_name as [|c v].
    + rewrite !append_nil_l. change "_chunk_" with (String "_" "chunk_").
      by rewrite !append_cons, !prefix_cons.
    + rewrite !(append_cons c), !prefix_cons, !prefix_nil. done.
Qed.

End ChunkFiles.

(** ** More on the transcription client *)

Section ClientEdges.

Context {J : Type} (ext : Externals J).

(** X8: an upload that raises is reported. When the call to the
    speech-to-text service raises for a chunk under the limit, the chunk
    result carries that exception as its error and no transcript, and the
    request has been made. *)
Theorem raising_upload_is_reported
    (temp_dir chunk_path key : string) (w : World) (a : AudioSegment) (e : Exn) :
  files w !! chunk_path = Some (Wav a) →
  raw_len a ≤ LIMIT →
  OPENAI_API_KEY w = Some key →
  key ≠ EmptyString →
  whisper ext key chunk_path = WhisperRaises e →
  process_audio_chunk ext temp_dir chunk_path w
  = (inr (mkChunkResult (Path.splitext (Path.basename chunk_path)).1
            (Path.basename chunk_path) (Some e) None),
     log (PostTranscription key chunk_path) w).
Proof.
  intros Hf Hle Hk Hne Hraise.
  unfold process_audio_chunk, audio_to_text_single_call, from_file, Os.open_rb.
  unfold try_except, bind, ret, lift. rewrite Hf.
  destruct (Z.ltb_spec LIMIT (raw_len a)); [lia|].
  unfold transcribe_with_openai_whisper, bind.
  rewrite (getenv_api_key_some key) by done.
  unfold Os.open_rb, emit, raise. rewrite Hf, Hraise. done.
Qed.

Section SubWindowLoop.

Variables (temp_dir file_path : string).

Let path (i : nat) : string := sub_window_path temp_dir file_path i.

(** The loop when the upload of one sub-window raises: the sub-windows
    before it are exported, uploaded and deleted; the file of the one that
    raises stays where it was exported. *)
Lemma transcribe_sub_windows_raises key e pre c post : ∀ i w transcript,
  OPENAI_API_KEY w = Some key → key ≠ EmptyString →
  (∀ k, files w !! path k ≠ Some Directory) →
  (∀ k, (i ≤ k < i + length pre)%nat →
        ¬ reply_raises (whisper ext key (path k))) →
  whisper ext key (path (i + length pre)) = WhisperRaises e →
  ∃ w',
    transcribe_sub_windows ext temp_dir file_path i (pre ++ c :: post)
      transcript w = (inl e, w')
    ∧ files w' !! path (i + length pre) = Some (Wav c)
    ∧ trace w' = trace w
        ++ concat (imap (fun k => sub_window_events temp_dir file_path key (i + k)) pre)
        ++ [Export (path (i + length pre)) c;
            PostTranscription key (path (i + length pre))].
Proof.
  induction pre as [|c0 pre IH]; intros i w transcript Hk Hne Hdir Hr Hraise.
  - simpl in *. rewrite Nat.add_0_r in *.
    cbn [transcribe_sub_windows]. fold (path i).
    unfold bind at 1. rewrite export_ok by apply Hdir.
    set (w1 := log _ _).
    exists (log (PostTranscription key (path i)) w1).
    assert (Hf1 : files w1 !! path i = Some (Wav c))
      by (unfold w1; simpl; by rewrite lookup_insert_eq).
    split; [|split].
    + unfold bind at 1, transcribe_with_openai_whisper, bind at 1.
      rewrite (getenv_api_key_some key) by done.
      unfold bind, Os.open_rb, emit, raise. by rewrite Hf1, Hraise.
    + done.
    + unfold w1. simpl. by rewrite <- app_assoc.
  - cbn [app transcribe_sub_windows]. fold (path i).
    unfold bind at 1. rewrite export_ok by apply Hdir.
    set (w1 := log _ _).
    destruct (transcribe_with_openai_whisper_ok ext key (path i) w1 (Wav c0))
      as [rj Hcall]; [done|done| |done| |].
    { unfold w1; simpl. by rewrite lookup_insert_eq. }
    { apply Hr. simpl. lia. }
    unfold bind at 1. rewrite Hcall. cbn [snd].
    set (w2 := log _ w1).
    unfold bind at 1, Os.remove.
    replace (files w2 !! path i) with (Some (Wav c0))
      by (unfold w2, w1; simpl; by rewrite lookup_insert_eq).
    set (w3 := log _ _).
    assert (Hfiles3 : files w3 = delete (path i) (files w)).
    { unfold w3, w2, w1; simpl. by rewrite delete_insert_eq. }
    destruct (IH (S i) w3 (transcript +:+
                reply_text (whisper ext key (path i)) +:+ " "))
      as (w' & Hrun & Hleft & Htr); [done|done| | | |].
    { intros k. rewrite Hfiles3.
      destruct (decide (path i = path k)) as [<-|Hne'].
      - by rewrite lookup_delete_eq.
      - rewrite lookup_delete_ne by done. apply Hdir. }
    { intros k Hk'. apply Hr. simpl. lia. }
    { by replace (S i + length pre)%nat with (i + length (c0 :: pre))%nat
        by (simpl; lia). }
    exists w'. rewrite Hrun.
    replace (i + length (c0 :: pre))%nat with (S i + length pre)%nat
      by (simpl; lia).
    split; [done|]. split; [done|].
    rewrite Htr, imap_cons. cbn [concat]. rewrite Nat.add_0_r.
    unfold w3, w2, w1, sub_window_events at 2; simpl.
    rewrite <- !app_assoc. simpl. do 6 f_equal.
    apply imap_ext. intros k x _. simpl. f_equal. lia.
Qed.

(** The loop without a credential: every sub-window is exported and
    deleted, nothing is uploaded, and each adds one space. *)
Lemma transcribe_sub_windows_no_key chunks : ∀ i w transcript,
  OPENAI_API_KEY w = None ∨ OPENAI_API_KEY w = Some EmptyString →
  (∀ k, files w !! path k ≠ Some Directory) →
  ∃ w',
    transcribe_sub_windows ext temp_dir file_path i chunks transcript w
    = (inr (transcript +:+ spaced (replicate (length chunks) EmptyString)), w')
    ∧ trace w' = trace w
        ++ concat (imap (fun k c => [Export (path (i + k)) c;
                                     Remove (path (i + k))]) chunks).
Proof.
  induction chunks as [|c chunks IH]; intros i w transcript Hk Hdir.
  - exists w. simpl. by rewrite append_nil_r, app_nil_r.
  - cbn [transcribe_sub_windows]. fold (path i).
    unfold bind at 1. rewrite export_ok by apply Hdir.
    set (w1 := log _ _).
    unfold bind at 1.
    rewrite transcribe_with_openai_whisper_no_key by done. cbn [snd].
    unfold bind at 1, Os.remove.
    replace (files w1 !! path i) with (Some (Wav c))
      by (unfold w1; simpl; by rewrite lookup_insert_eq).
    set (w3 := log _ _).
    assert (Hfiles3 : files w3 = delete (path i) (files w)).
    { unfold w3, w1; simpl. by rewrite delete_insert_eq. }
    destruct (IH (S i) w3 (transcript +:+ EmptyString +:+ " "))
      as (w' & Hrun & Htr); [done| |].
    { intros k. rewrite Hfiles3.
      destruct (decide (path i = path k)) as [<-|Hne'].
      - by rewrite lookup_delete_eq.
      - rewrite lookup_delete_ne by done. apply Hdir. }
    exists w'. rewrite Hrun. split.
    + cbn [length replicate spaced foldr]. by rewrite !append_assoc.
    + rewrite Htr, imap_cons. cbn [concat]. rewrite Nat.add_0_r.
      unfold w3, w1; simpl.
      rewrite <- !app_assoc. simpl. do 4 f_equal.
      apply imap_ext. intros k x _. simpl.
      by replace (S (i + k)) with (i + S k)%nat by lia.
Qed.

End SubWindowLoop.

(** X9: a raising upload inside an oversized chunk. When the upload of
    sub-window [j] raises, the client returns that exception as the error
    of the whole chunk: the texts of the sub-windows before [j] are lost,
    the sub-windows after [j] are never exported, and the file of
    sub-window [j] is left in the temp directory. *)
Theorem raising_sub_window_leaves_file
    (file_path temp_dir key : string) (w : World) (a : AudioSegment)
    (pre post : list AudioSegment) (c : AudioSegment) (e : Exn) :
  files w !! file_path = Some (Wav a) →
  LIMIT < raw_len a →
  OPENAI_API_KEY w = Some key →
  key ≠ EmptyString →
  (∀ k, files w !! sub_window_path temp_dir file_path k ≠ Some Directory) →
  sub_windows a = inr (pre ++ c :: post) →
  (∀ k, (k < length pre)%nat →
        ¬ reply_raises (whisper ext key (sub_window_path temp_dir file_path k))) →
  whisper ext key (sub_window_path temp_dir file_path (length pre))
  = WhisperRaises e →
  ∃ w',
    audio_to_text_single_call ext file_path temp_dir w
    = (inr (ContentError e), w')
    ∧ files w' !! sub_window_path temp_dir file_path (length pre)
      = Some (Wav c)
    ∧ trace w' = trace w
        ++ concat (imap (sub_window_events temp_dir file_path key) pre)
        ++ [Export (sub_window_path temp_dir file_path (length pre)) c;
            PostTranscription key
              (sub_window_path temp_dir file_path (length pre))].
Proof.
  intros Hf Hgt Hk Hne Hdir Hsub Hr Hraise.
  destruct (transcribe_sub_windows_raises temp_dir file_path key e pre c post
              0 w EmptyString) as (w' & Hrun & Hleft & Htr);
    [done|done|done|intros k Hk'; apply Hr; lia|done|].
  exists w'. split; [|split; [done|by rewrite Htr]].
  revert Hsub.
  unfold audio_to_text_single_call, sub_windows, from_file, Os.open_rb.
  unfold try_except, bind, ret, lift. rewrite Hf.
  destruct (Z.ltb_spec LIMIT (raw_len a)); [|lia].
  destruct (PyFloat.truediv _ (PyFloat.of_int (len_ms a))) as [e0|bpm];
    [done|].
  destruct (PyFloat.truediv _ bpm) as [e0|d]; [done|].
  intros ->. by rewrite Hrun.
Qed.

(** X10: an oversized chunk without a credential. The client exports and
    deletes every sub-window, uploads nothing, and returns a transcript of
    one space per sub-window: a non-empty transcript, where a chunk under
    the limit gives the empty one. *)
Theorem oversized_chunk_without_credential
    (file_path temp_dir : string) (w : World) (a : AudioSegment)
    (chunks : list AudioSegment) :
  files w !! file_path = Some (Wav a) →
  LIMIT < raw_len a →
  OPENAI_API_KEY w = None ∨ OPENAI_API_KEY w = Some EmptyString →
  (∀ k, files w !! sub_window_path temp_dir file_path k ≠ Some Directory) →
  sub_windows a = inr chunks →
  let transcript := spaced (replicate (length chunks) EmptyString) in
  ∃ w',
    audio_to_text_single_call ext file_path temp_dir w
    = (inr (ContentTranscript transcript), w')
    ∧ String.length transcript = length chunks
    ∧ (chunks ≠ [] → truthy (Some transcript) = true)
    ∧ trace w' = trace w
        ++ concat (imap (fun k c =>
                           [Export (sub_window_path temp_dir file_path k) c;
                            Remove (sub_window_path temp_dir file_path k)])
                     chunks).
Proof.
  intros Hf Hgt Hk Hdir Hsub transcript.
  destruct (transcribe_sub_windows_no_key temp_dir file_path chunks 0 w
              EmptyString) as (w' & Hrun & Htr); [done|done|].
  exists w'. split; [|split; [|split]].
  - revert Hsub.
    unfold audio_to_text_single_call, sub_windows, from_file, Os.open_rb.
    unfold try_except, bind, ret, lift. rewrite Hf.
    destruct (Z.ltb_spec LIMIT (raw_len a)); [|lia].
    destruct (PyFloat.truediv _ (PyFloat.of_int (len_ms a))) as [e0|bpm];
      [done|].
    destruct (PyFloat.truediv _ bpm) as [e0|d]; [done|].
    intros ->. by rewrite Hrun.
  - unfold transcript. clear. induction chunks as [|c chunks IH]; [done|].
    change (spaced (replicate (length (c :: chunks)) EmptyString))
      with (String " " (spaced (replicate (length chunks) EmptyString))).
    cbn [String.length length]. by rewrite IH.
  - unfold transcript. by destruct chunks.
  - by rewrite Htr.
Qed.

End ClientEdges.

(** ** The pool *)

Section Pool.

Context {J : Type} (ext : Externals J).

Lemma process_audio_chunk_result temp_dir chunk_path w r w' :
  process_audio_chunk ext temp_dir chunk_path w = (inr r, w') →
  result_of chunk_path r.
Proof.
  unfold process_audio_chunk, bind.
  destruct (audio_to_text_single_call _ _ _ w) as [[e|c] w1]; [done|].
  unfold ret. intros [= <- <-].
  destruct c; repeat split; simpl; try done; first [by eexists|by intros []].
Qed.

(** The results come one per settled future, in the order of
    completion. *)
Lemma collect_results temp_dir audio_chunks completion : ∀ w,
  ∃ rs w',
    collect ext temp_dir audio_chunks completion w = (inr rs, w')
    ∧ Forall2 result_of (omap (audio_chunks !!.) completion) rs.
Proof.
  induction completion as [|idx rest IH]; intros w; simpl.
  - exists [], w. by split; [|constructor].
  - destruct (audio_chunks !! idx) as [chunk_path|]; [|apply IH].
    unfold bind at 1, try_except, bind at 1.
    destruct (process_audio_chunk_returns ext temp_dir chunk_path w)
      as (x & w1 & Hx).
    rewrite Hx. unfold ret at 1. unfold bind.
    destruct (IH w1) as (rs & w' & -> & Hrs). unfold ret.
    exists (x :: rs), w'. split; [done|]. constructor; [|done].
    by eapply process_audio_chunk_result.
Qed.

Lemma omap_lookup_seq {A} (l pre : list A) :
  omap ((pre ++ l) !!.) (seq (length pre) (length l)) = l.
Proof.
  revert pre. induction l as [|x l IH]; intros pre; [done|].
  cbn [length seq omap list_omap].
  rewrite lookup_app_r, Nat.sub_diag by lia. cbn [lookup list_lookup].
  f_equal. specialize (IH (pre ++ [x])).
  rewrite <- app_assoc, length_app in IH. cbn [length app] in IH.
  by rewrite Nat.add_1_r in IH.
Qed.

(** X11: the pool loses no chunk and invents none. With a positive
    concurrency level the dispatcher does not raise; it returns one result
    per settled future, in the order of completion, each named after its
    chunk file and carrying either an error or a transcript, never both and
    never neither. When every future settles once, the results are those
    of the chunk files, each exactly once. *)
Theorem pool_keeps_every_chunk
    (temp_dir : string) (audio_chunks : list string) (concurrency_level : Z)
    (completion : list nat) (w : World) :
  0 < concurrency_level →
  ∃ rs w',
    dispatch ext temp_dir audio_chunks concurrency_level completion w
    = (inr rs, w')
    ∧ Forall2 result_of (omap (audio_chunks !!.) completion) rs
    ∧ (completion ≡ₚ seq 0 (length audio_chunks) →
       file_name <$> rs ≡ₚ Path.basename <$> audio_chunks).
Proof.
  intros Hc. unfold dispatch.
  destruct (Z.leb_spec concurrency_level 0); [lia|].
  destruct (collect_results temp_dir audio_chunks completion w)
    as (rs & w' & Hrun & Hrs).
  exists rs, w'. split; [done|]. split; [done|]. intros Hperm.
  assert (Hnames : file_name <$> rs
                   = Path.basename <$> omap (audio_chunks !!.) completion).
  { clear -Hrs. induction Hrs as [|p r ps rs [Hn _] _ IH]; [done|].
    cbn [fmap list_fmap]. by rewrite Hn, IH. }
  rewrite Hnames, Hperm.
  pose proof (omap_lookup_seq audio_chunks []) as Hall.
  cbn [app length] in Hall. by rewrite Hall.
Qed.

(** X12: the chunk_ids number the chunks. For the chunk files that the
    splitter writes for a recording named [v], the results of the pool
    carry the chunk_ids [v_chunk_i], [i] running through the order of
    completion. *)
Theorem chunk_ids_number_the_chunks
    (temp_dir chunks_dir v : string) (n : nat) (concurrency_level : Z)
    (completion : list nat) (w : World) :
  0 < concurrency_level →
  Path.rsplit1 "/" v = None →
  Forall (fun i => (i < n)%nat) completion →
  ∃ rs w',
    dispatch ext temp_dir (chunk_file chunks_dir v <$> seq 0 n)
      concurrency_level completion w = (inr rs, w')
    ∧ chunk_id <$> rs
      = (fun i => v +:+ "_chunk_" +:+ Py.str i) <$> completion.
Proof.
  intros Hc Hv Hall. unfold dispatch.
  destruct (Z.leb_spec concurrency_level 0); [lia|].
  destruct (collect_results temp_dir (chunk_file chunks_dir v <$> seq 0 n)
              completion w) as (rs & w' & Hrun & Hrs).
  exists rs, w'. split; [done|].
  assert (Hpaths : omap ((chunk_file chunks_dir v <$> seq 0 n) !!.) completion
                   = chunk_file chunks_dir v <$> completion).
  { clear -Hall. induction Hall as [|i l Hi _ IH]; [done|].
    cbn [omap list_omap fmap list_fmap].
    rewrite list_lookup_fmap, lookup_seq_lt by done. simpl. by rewrite IH. }
  rewrite Hpaths in Hrs. clear -Hrs Hv.
  remember (chunk_file chunks_dir v <$> completion) as ps eqn:Hps.
  revert completion Hps.
  induction Hrs as [|p r ps rs (_ & Hid & _) _ IH]; intros [|i l] Hps;
    try done.
  cbn [fmap list_fmap] in *. injection Hps as -> ->.
  rewrite Hid, chunk_id_of_chunk_file by done. f_equal. by apply IH.
Qed.

End Pool.

(** ** More on the assembler *)

Section AssemblerOrder.

Context {J : Type}.

(** X13: recordings with a plain name are merged in chunk order. When the
    name of the recording has no underscore, the index that the assembler
    reads from a chunk_id [v_chunk_i] is [i]; with one result per chunk,
    the merged transcript takes the transcripts in ascending chunk number,
    whatever the order in which the results were collected. *)
Theorem plain_names_merge_in_chunk_order
    (v : string) (rs : list ChunkResult) (number : ChunkResult → nat) :
  Path.rsplit1 "_" v = None →
  (∀ x, x ∈ rs → chunk_id x = v +:+ "_chunk_" +:+ Py.str (number x)) →
  NoDup (number <$> rs) →
  (∀ x, x ∈ rs → sort_key x = inr (Z.of_nat (number x)))
  ∧ (∃ s, s ≡ₚ rs
       ∧ StronglySorted (fun x y => (number x < number y)%nat) s
       ∧ merge_transcripts (J:=J) rs =
           match Py.join " " (transcripts s) with
           | EmptyString => inl NoTranscriptError
           | String c t => inr (String c t)
           end)
  ∧ ∀ rs', rs' ≡ₚ rs →
      merge_transcripts (J:=J) rs' = merge_transcripts rs.
Proof.
  intros Hv Hid Hnd.
  assert (Hkey : ∀ x, x ∈ rs → sort_key x = inr (Z.of_nat (number x))).
  { intros x Hx. apply (plain_name_sort_key v); [done|by apply Hid]. }
  destruct (plain_recording_indexed v rs number Hv Hid Hnd) as [Hind Hndi].
  destruct (sorted_distinct rs Hind Hndi) as (s & Hs & Hps & Hsort).
  split; [done|]. split.
  - exists s. split; [done|]. split; [|by apply merge_transcripts_sorted].
    assert (Hin : Forall (fun x => index x = Z.of_nat (number x)) s).
    { apply Forall_forall. intros x Hx. rewrite Hps in Hx.
      unfold index. by rewrite Hkey. }
    clear -Hsort Hin. induction Hsort as [|x s Hs IH Hall]; [constructor|].
    apply Forall_cons in Hin as [Hx Hin].
    constructor; [by apply IH|].
    rewrite Forall_forall in Hall, Hin |- *. intros y Hy.
    specialize (Hall y Hy). specialize (Hin y Hy). lia.
  - intros rs' Hp.
    destruct (sorted_distinct rs') as (s2 & Hs2 & Hps2 & Hsort2).
    { intros x Hx. apply Hind. by rewrite <- Hp. }
    { by rewrite Hp. }
    assert (s2 = s) as ->.
    { apply strictly_sorted_unique; [done..|]. by rewrite Hps2, Hps. }
    by rewrite (merge_transcripts_sorted rs s), (merge_transcripts_sorted rs' s).
Qed.

(** A list whose keys are all the same is left as it is by the sort. *)
Lemma stable_sort_constant {A} (k : Z) (l : list (Z * A)) :
  Forall (fun kx => kx.1 = k) l → stable_sort l = l.
Proof.
  induction 1 as [|kx l Hk Hl IH]; [done|].
  cbn [stable_sort foldr]. fold (stable_sort l). rewrite IH.
  destruct Hl as [|ky l Hky _]; [done|].
  cbn [insert_stable]. destruct (Z.ltb_spec ky.1 kx.1); [lia|done].
Qed.

(** X14: recordings named [a_chunk_b] are merged in the order of
    completion. When the name of the recording is [a_chunk_b] with [b] an
    integer literal, every chunk_id yields the index [b], the sort leaves
    the results as they were collected, and the merged transcript follows
    the order of completion instead of the chunk numbers. *)
Theorem delimited_names_merge_in_completion_order
    (a b : string) (k : Z) (rs : list ChunkResult) :
  Path.rsplit1 "_" a = None →
  Path.rsplit1 "_" b = None →
  Py.int b = Some k →
  (∀ x, x ∈ rs →
        ∃ i, chunk_id x = (a +:+ delimiter +:+ b) +:+ "_chunk_" +:+ Py.str i) →
  sorted rs = inr rs
  ∧ merge_transcripts (J:=J) rs =
      match Py.join " " (transcripts rs) with
      | EmptyString => inl NoTranscriptError
      | String c t => inr (String c t)
      end.
Proof.
  intros Ha Hb Hint Hid.
  assert (Hkey : ∀ x, x ∈ rs → sort_key x = inr k).
  { intros x Hx. destruct (Hid x Hx) as [i Hi].
    rewrite (delimited_name_sort_key a b i x) by done. by rewrite Hint. }
  assert (Hsorted : sorted rs = inr rs).
  { unfold sorted. rewrite decorate_indexed by (intros x Hx; eexists; by apply Hkey).
    rewrite (stable_sort_constant k).
    - by rewrite <- list_fmap_compose, list_fmap_id.
    - apply Forall_fmap, Forall_forall. intros x Hx. simpl.
      unfold index. by rewrite Hkey. }
  split; [done|]. by apply merge_transcripts_sorted.
Qed.

(** Sorting commutes with leaving entries out. *)
Lemma insert_stable_head {A} (kx : Z * A) (l : list (Z * A)) :
  Forall (fun ky => kx.1 ≤ ky.1) l → insert_stable kx l = kx :: l.
Proof.
  destruct 1 as [|ky l Hk _]; [done|].
  cbn [insert_stable]. destruct (Z.ltb_spec ky.1 kx.1); [lia|done].
Qed.

Lemma insert_stable_filter_sorted {A} (Q : Z * A → Prop)
    `{∀ x, Decision (Q x)} (kx : Z * A) (l : list (Z * A)) :
  StronglySorted key_le l →
  filter Q (insert_stable kx l)
  = if decide (Q kx) then insert_stable kx (filter Q l) else filter Q l.
Proof.
  induction 1 as [|ky l Hs IH Hall]; cbn [insert_stable].
  - rewrite filter_cons, filter_nil. by destruct (decide (Q kx)).
  - destruct (Z.ltb_spec ky.1 kx.1) as [Hlt|Hge].
    + rewrite !(filter_cons _ ky), IH.
      destruct (decide (Q ky)), (decide (Q kx)); try done.
      cbn [insert_stable]. by destruct (Z.ltb_spec ky.1 kx.1); [|lia].
    + rewrite (filter_cons _ kx).
      destruct (decide (Q kx)); [|done].
      rewrite insert_stable_head; [done|].
      apply Forall_forall. intros kz [_ Hz]%list_elem_of_filter.
      apply elem_of_cons in Hz as [->|Hz]; [done|].
      rewrite Forall_forall in Hall. specialize (Hall kz Hz).
      unfold key_le in Hall. lia.
Qed.

Lemma stable_sort_filter_commute {A} (Q : Z * A → Prop)
    `{∀ x, Decision (Q x)} (l : list (Z * A)) :
  stable_sort (filter Q l) = filter Q (stable_sort l).
Proof.
  induction l as [|kx l IH]; [done|].
  cbn [stable_sort foldr]. fold (stable_sort l).
  rewrite insert_stable_filter_sorted by apply stable_sort_sorted.
  rewrite filter_cons. destruct (decide (Q kx)); [|done].
  cbn [stable_sort foldr]. fold (stable_sort (filter Q l)). by rewrite IH.
Qed.

Lemma transcripts_filter (l : list ChunkResult) :
  transcripts (filter (fun x => truthy (transcript x) = true) l)
  = transcripts l.
Proof.
  induction l as [|x l IH]; [done|].
  rewrite filter_cons. unfold transcripts in *.
  destruct (decide (truthy (transcript x) = true)) as [Ht|Ht];
    cbn [omap list_omap].
  - by rewrite IH.
  - apply not_true_is_false in Ht. by rewrite Ht.
Qed.

(** X15: chunks without a transcript are dropped in silence. When every
    chunk_id yields an index, the assembler gives the same output with and
    without the results whose transcript is missing or empty: a failed
    chunk leaves no mark on the merged transcript, not even a gap. *)
Theorem failed_chunks_leave_no_mark (rs : list ChunkResult) :
  (∀ x, x ∈ rs → indexed x) →
  merge_transcripts (J:=J)
    (filter (fun x => truthy (transcript x) = true) rs)
  = merge_transcripts rs.
Proof.
  intros Hind.
  set (keep := fun x : ChunkResult => truthy (transcript x) = true).
  assert (Hind' : ∀ x, x ∈ filter keep rs → indexed x).
  { intros x [_ Hx]%list_elem_of_filter. by apply Hind. }
  unfold merge_transcripts, sorted.
  rewrite (decorate_indexed rs Hind), (decorate_indexed _ Hind').
  set (d := (fun x => (index x, x)) <$> rs).
  assert (Hd : (fun x => (index x, x)) <$> filter keep rs
               = filter (fun kx : Z * ChunkResult => keep kx.2) d).
  { unfold d. clear. induction rs as [|x l IH]; [done|].
    rewrite fmap_cons, !filter_cons. simpl.
    destruct (decide (keep x)); by rewrite <- IH. }
  rewrite Hd, stable_sort_filter_commute.
  assert (Hsnd : ∀ l : list (Z * ChunkResult),
             (filter (fun kx : Z * ChunkResult => keep kx.2) l).*2
             = filter keep (l.*2)).
  { clear. induction l as [|kx l IH]; [done|].
    rewrite fmap_cons, !filter_cons. simpl.
    destruct (decide (keep kx.2)); by rewrite <- IH. }
  by rewrite Hsnd, transcripts_filter.
Qed.

End AssemblerOrder.

(** ** More on the summarizer *)

Section SummarizerEdges.

Context {J : Type} (ext : Externals J).

(** The clean-up when the chunks directory and the audio file are in
    place. *)
Lemma clean_up_run cd ap w d :
  files w !! cd = Some Directory →
  files w !! ap = Some d → d ≠ Directory → Os.under cd ap = false →
  clean_up cd ap w
  = (inr tt,
     mkWorld
       (delete ap (filter (fun kv : string * FileData => negb (Os.under cd kv.1))
                     (delete cd (files w))))
       (OPENAI_API_KEY w) (trace w ++ [Rmtree cd; Remove ap])).
Proof.
  intros Hcd Hap Hd Hunder.
  assert (Hne : cd ≠ ap) by (intros ->; rewrite Hcd in Hap; by simplify_eq).
  set (kept := filter (fun kv : string * FileData => negb (Os.under cd kv.1))
                 (delete cd (files w))).
  assert (Hap' : kept !! ap = Some d).
  { apply map_lookup_filter_Some. split; [by rewrite lookup_delete_ne|].
    simpl. by rewrite Hunder. }
  unfold clean_up, try_except, bind, ret, Os.rmtree. rewrite Hcd.
  unfold Os.remove. cbn [files log set_files]. fold kept. rewrite Hap'.
  destruct d; [done| |]; unfold log, set_files; simpl;
    by rewrite <- app_assoc.
Qed.

(** X16: a summary cleans up after itself. When the chat service answers
    with a text that parses, and the chunks directory and the audio file
    are in place, the summarizer returns the summary, removes the chunks
    directory with everything below it and the audio file, and touches no
    other file. *)
Theorem summary_cleans_up
    (full_transcript chunks_dir audio_path key text : string) (j : J)
    (w : World) (d : FileData) :
  OPENAI_API_KEY w = Some key →
  key ≠ EmptyString →
  chat ext key (chat_payload full_transcript) = ChatContent text →
  json_loads ext text = JsonValue j →
  files w !! chunks_dir = Some Directory →
  files w !! audio_path = Some d →
  d ≠ Directory →
  Os.under chunks_dir audio_path = false →
  let run := summarize ext full_transcript chunks_dir audio_path w in
  run.1 = inr (Summary j)
  ∧ (∀ q, files run.2 !! q
          = if decide (q = chunks_dir ∨ q = audio_path
                       ∨ Os.under chunks_dir q = true)
            then None else files w !! q)
  ∧ trace run.2
    = trace w ++ [PostChatCompletion key (chat_payload full_transcript);
                  Rmtree chunks_dir; Remove audio_path].
Proof.
  intros Hk Hne Hchat Hjson Hcd Hap Hd Hunder run.
  assert (Hrun : run = (inr (Summary j),
                        (clean_up chunks_dir audio_path
                           (log (PostChatCompletion key
                                   (chat_payload full_transcript)) w)).2)).
  { unfold run.
    destruct (summarize_cases ext full_transcript chunks_dir audio_path w)
      as [[[H|H] _]|(key' & Hk' & _ & Hcases)]; [congruence|congruence|].
    assert (key' = key) as -> by congruence.
    destruct Hcases as [(e & [He|(text' & Ht & Hj)] & _)
                       |[(text' & Ht & Hj & _)|(text' & j' & Ht & Hj & ->)]];
      [congruence|congruence|congruence|].
    do 2 f_equal. congruence. }
  rewrite Hrun.
  rewrite (clean_up_run chunks_dir audio_path _ d) by done.
  cbn [fst snd files trace log]. split; [done|]. split.
  - intros q. destruct (decide (q = audio_path)) as [->|Hq].
    { rewrite lookup_delete_eq. by rewrite decide_True by auto. }
    rewrite lookup_delete_ne by done.
    destruct (decide (q = chunks_dir)) as [->|Hq'].
    { rewrite decide_True by auto. apply map_lookup_filter_None. left.
      by rewrite lookup_delete_eq. }
    destruct (Os.under chunks_dir q) eqn:Hu.
    { rewrite decide_True by auto. apply map_lookup_filter_None. right.
      intros x _. simpl. rewrite Hu. by intros []. }
    rewrite decide_False by (intros [?|[?|?]]; done).
    destruct (files w !! q) as [x|] eqn:Hq''.
    + apply map_lookup_filter_Some. split; [by rewrite lookup_delete_ne|].
      simpl. by rewrite Hu.
    + apply map_lookup_filter_None. left. by rewrite lookup_delete_ne.
  - by rewrite <- app_assoc.
Qed.

(** X17: the summarizer changes files on one path only. A call to the
    summarizer that does not return a summary leaves every file as it was;
    and when the chunks directory is not there, a summary is returned all
    the same and the audio file is not removed either: the two removals sit
    in one [try], and the first failure skips the second. *)
Theorem summarizer_removes_only_on_success
    (full_transcript chunks_dir audio_path : string) (w : World) :
  let run := summarize ext full_transcript chunks_dir audio_path w in
  match run.1 with
  | inr (Summary _) =>
      files w !! chunks_dir ≠ Some Directory → files run.2 = files w
  | _ => files run.2 = files w
  end.
Proof.
  intros run. unfold run.
  destruct (summarize_cases ext full_transcript chunks_dir audio_path w)
    as [[_ ->]|(key & _ & _ & [(e & _ & ->)|[(text & _ & _ & ->)|(text & j & _ & _ & ->)]])];
    cbn [fst snd]; try done.
  intros Hcd. unfold clean_up, try_except, bind, Os.rmtree.
  cbn [files log].
  destruct (files w !! chunks_dir) as [[]|]; done.
Qed.

End SummarizerEdges.

(** ** The page *)

Section PageProperties.

Context {J : Type} (ext : Externals J).

(** Both calls of the page pass [api_key], which is no parameter of the
    entry point: the call raises before the function runs. *)
Lemma call_with_api_key_raises keywords video_path temp_dir concurrency
    chunk_length is_url completion w :
  keywords = ["video_path"; "temp_dir"; "concurrency_level";
              "chunk_length_sec"; "api_key"]
  ∨ keywords = ["video_path"; "temp_dir"; "concurrency_level";
                "chunk_length_sec"; "is_url"; "api_key"] →
  App.call ext keywords video_path temp_dir concurrency chunk_length is_url
    completion w
  = (inl (App.TypeError "api_key"), w).
Proof.
  intros [-> | ->]; unfold App.call; by vm_compute (App.unexpected_keyword _).
Qed.

Lemma process_url_raises s secrets url concurrency chunk_length completion w :
  App.process_url ext s secrets url concurrency chunk_length completion w
  = (inl match App.get_key secrets with
         | inl e => e
         | inr _ => App.TypeError "api_key"
         end, w).
Proof.
  unfold App.process_url, bind, lift.
  destruct (App.get_key secrets) as [e|k]; [done|].
  by rewrite call_with_api_key_raises by auto.
Qed.

Lemma process_file_raises s secrets f concurrency chunk_length completion w :
  let path := Path.join (App.temp_dir s) (App.name f) in
  App.process_file ext s secrets f concurrency chunk_length completion w
  = match files w !! path with
    | Some Directory => (inl (IsADirectoryError path), w)
    | _ => (inl match App.get_key secrets with
                | inl e => e
                | inr _ => App.TypeError "api_key"
                end,
            set_files (insert path (App.getbuffer f)) w)
    end.
Proof.
  intros path. unfold App.process_file. fold path.
  unfold bind at 1, Os.write.
  destruct (files w !! path) as [[]|]; [done|..];
    unfold bind, lift;
    (destruct (App.get_key secrets) as [e|k]; [done|]);
    by rewrite call_with_api_key_raises by auto.
Qed.

(** The [try] of the handler logs nothing, and ends with an exception or
    with the message that no input was given. *)
Lemma process_try_cases s secrets concurrency chunk_length completion w :
  let run := App.process_try ext s secrets concurrency chunk_length
               completion w in
  trace run.2 = trace w
  ∧ OPENAI_API_KEY run.2 = OPENAI_API_KEY w
  ∧ (files w !! App.temp_dir s = None
     ∨ files w !! App.temp_dir s = Some Directory →
     files run.2 !! App.temp_dir s = Some Directory)
  ∧ ((∃ e, run.1 = inl e)
     ∨ run.1
       = inr [App.Error "No media input found. Please upload a file or provide a URL.";
              App.ErrorBox "No media input provided" None]).
Proof.
  cbn zeta.
  destruct (App.process_try ext s secrets concurrency chunk_length completion w)
    as [r w'] eqn:Hrun. cbn [fst snd].
  revert Hrun. unfold App.process_try, bind at 1.
  assert (Htd : App.temp_dir s ≠ EmptyString) by done.
  destruct (Os.makedirs (App.temp_dir s) w) as [[e|[]] w1] eqn:Hmk.
  { assert (w1 = w) as -> by (by eapply makedirs_raises).
    intros [= <- <-]. split; [done|]. split; [done|]. split; [|eauto].
    intros Hd. by rewrite makedirs_ok in Hmk. }
  assert (Hw1 : trace w1 = trace w ∧ OPENAI_API_KEY w1 = OPENAI_API_KEY w
                ∧ files w1 !! App.temp_dir s = Some Directory).
  { apply makedirs_establishes in Hmk as Hex. destruct Hex as [_ Hex].
    revert Hmk. unfold Os.makedirs.
    repeat case_match; intros [= <-]; try done. }
  destruct Hw1 as (Ht & Hk & Hd).
  unfold bind at 1.
  destruct (if bool_decide (App.media_source s = Some "file")
            then App.uploaded_file s else None) as [f|].
  - rewrite process_file_raises.
    destruct (files w1 !! Path.join (App.temp_dir s) (App.name f))
      as [[]|] eqn:Hp; intros [= <- <-]; repeat split; eauto; intros _;
      cbn [files set_files];
      (rewrite lookup_insert_ne; [done|congruence]).
  - destruct (if bool_decide (App.media_source s = Some "url")
              then App.video_url s else None) as [[|c url]|].
    + unfold App.no_media, ret. intros [= <- <-]. repeat split; eauto.
    + rewrite process_url_raises. intros [= <- <-]. repeat split; eauto.
    + unfold App.no_media, ret. intros [= <- <-]. repeat split; eauto.
Qed.

(** X18: a click on Process never shows a summary. Both calls of the page
    pass the keyword [api_key], which the entry point does not accept, so
    the call raises before the function runs: whatever the session, the
    secrets and the settings, the handler shows no success box and no
    summary, sends no request and logs at most the removal of its temp
    directory, and does not raise itself. *)
Theorem process_never_shows_a_summary
    (s : App.SessionState) (secrets : App.Secrets)
    (concurrency chunk_length : Z) (completion : list nat) (w : World) :
  let run := App.process ext s secrets concurrency chunk_length completion w in
  ∃ shown, run.1 = inr shown
    ∧ Forall (fun x => match x with
                       | App.SuccessBox _ | App.SummaryTabs _ => False
                       | _ => True
                       end) shown
    ∧ (trace run.2 = trace w
       ∨ trace run.2 = trace w ++ [Rmtree (App.temp_dir s)])
    ∧ OPENAI_API_KEY run.2 = OPENAI_API_KEY w.
Proof.
  cbn zeta.
  destruct (App.process ext s secrets concurrency chunk_length completion w)
    as [r w'] eqn:Hrun. cbn [fst snd].
  revert Hrun. unfold App.process, bind at 1, try_except.
  destruct (process_try_cases s secrets concurrency chunk_length completion w)
    as (Ht & Hk & _ & Hr). cbn zeta in Ht, Hk, Hr.
  destruct (App.process_try ext s secrets concurrency chunk_length completion w)
    as [r1 w1]. cbn [fst snd] in *.
  assert (Hshown : ∃ shown, (match r1 with
                             | inl e => ret [App.ApplicationError e] w1
                             | inr a => (inr a, w1)
                             end) = (inr shown, w1)
            ∧ Forall (fun x : App.Shown J => match x with
                               | App.SuccessBox _ | App.SummaryTabs _ => False
                               | _ => True
                               end) shown).
  { destruct Hr as [[e ->]| ->]; eexists; (split; [done|]);
      by repeat constructor. }
  destruct Hshown as (shown & -> & Hall).
  unfold bind, App.clean_temp_dir, Os.rmtree, ret.
  destruct (files w1 !! App.temp_dir s) as [[]|]; intros [= <- <-];
    eexists; (split; [done|]); rewrite ?Forall_app; repeat split;
    try done; try (by repeat constructor); simpl; rewrite ?Ht; auto.
Qed.

(** A relative name joined to a directory lies under it. *)
Lemma under_join dir name :
  dir ≠ EmptyString → String.prefix "/" name = false →
  Os.under dir (Path.join dir name) = true.
Proof.
  intros Hd Hrel. unfold Os.under, Path.join. rewrite Hrel.
  destruct dir as [|c dir]; [done|].
  destruct (Path.ends_with_char "/" (String c dir)).
  - apply prefix_append_same.
  - rewrite <- append_assoc. apply prefix_append_same.
Qed.

(** X19: what a click on Process does. With the key in the secrets, a
    file or a URL in the session and an unused temp directory, the handler
    saves the upload, fails to call the entry point, shows the TypeError
    as an application error and removes the temp directory: every file is
    as it was before the click, and no request has been sent. *)
Theorem click_shows_the_type_error
    (s : App.SessionState) (key : string)
    (concurrency chunk_length : Z) (completion : list nat) (w : World) :
  files w !! App.temp_dir s = None →
  (∀ q, Os.under (App.temp_dir s) q = true → files w !! q = None) →
  (App.media_source s = Some "file"
   ∧ ∃ f, App.uploaded_file s = Some f
          ∧ App.name f ≠ EmptyString
          ∧ String.prefix "/" (App.name f) = false)
  ∨ (App.media_source s = Some "url"
     ∧ ∃ c url, App.video_url s = Some (String c url)) →
  App.process ext s (App.SecretsToml (Some key)) concurrency chunk_length
    completion w
  = (inr [App.ApplicationError (App.TypeError "api_key")],
     log (Rmtree (App.temp_dir s)) w).
Proof.
  intros Hfresh Hempty Hmedia.
  set (td := App.temp_dir s) in *.
  assert (Htd : td ≠ EmptyString) by done.
  set (w1 := set_files (fun _ => <[td := Directory]> (files w)) w).
  assert (Hclean : ∀ w2,
    files w2 !! td = Some Directory →
    OPENAI_API_KEY w2 = OPENAI_API_KEY w → trace w2 = trace w →
    (∀ q, q ≠ td → Os.under td q = false → files w2 !! q = files w !! q) →
    App.clean_temp_dir (J:=J) s w2 = (inr [], log (Rmtree td) w)).
  { intros w2 Hd Hk Ht Hout. unfold App.clean_temp_dir, Os.rmtree. fold td.
    rewrite Hd. f_equal. destruct w2 as [fs2 k2 t2], w as [fs k t].
    unfold log, set_files; simpl in *. subst. f_equal.
    apply map_eq. intros q.
    destruct (decide (q = td)) as [->|Hq].
    { rewrite Hfresh. apply map_lookup_filter_None. left.
      by rewrite lookup_delete_eq. }
    destruct (Os.under td q) eqn:Hu.
    { rewrite (Hempty q Hu). apply map_lookup_filter_None. right.
      intros x _. simpl. rewrite Hu. by intros []. }
    rewrite <- (Hout q Hq Hu).
    destruct (fs2 !! q) as [x|] eqn:Hx.
    - apply map_lookup_filter_Some. split; [by rewrite lookup_delete_ne|].
      simpl. by rewrite Hu.
    - apply map_lookup_filter_None. left. by rewrite lookup_delete_ne. }
  unfold App.process, bind at 1, try_except, App.process_try, bind at 1.
  fold td. rewrite makedirs_ok by auto. fold w1.
  unfold bind at 1.
  destruct Hmedia as [[Hsrc (f & Hf & Hname & Hrel)]|[Hsrc (c & url & Hurl)]].
  - rewrite Hsrc, Hf. rewrite bool_decide_eq_true_2 by done.
    rewrite process_file_raises. fold td.
    assert (Hu : Os.under td (Path.join td (App.name f)) = true)
      by (by apply under_join).
    assert (Hne : Path.join td (App.name f) ≠ td).
    { intros Heq. pose proof (join_longer td (App.name f) Htd Hrel Hname) as Hl.
      rewrite Heq in Hl. lia. }
    replace (files w1 !! Path.join td (App.name f)) with (@None FileData).
    2: { unfold w1; simpl. rewrite lookup_insert_ne by done.
         by rewrite Hempty. }
    cbn [App.get_key]. unfold ret at 1, bind.
    rewrite Hclean; [done| | | |].
    + unfold w1; simpl. rewrite lookup_insert_ne by done.
      by rewrite lookup_insert_eq.
    + done.
    + done.
    + intros q Hq Hu'. unfold w1; simpl.
      rewrite lookup_insert_ne by (intros <-; congruence).
      by rewrite lookup_insert_ne.
  - rewrite Hsrc, Hurl.
    rewrite bool_decide_eq_false_2 by done.
    rewrite bool_decide_eq_true_2 by done.
    rewrite process_url_raises.
    cbn [App.get_key]. unfold ret at 1, bind.
    rewrite Hclean; [done| | | |].
    + unfold w1; simpl. by rewrite lookup_insert_eq.
    + done.
    + done.
    + intros q Hq Hu'. unfold w1; simpl. by rewrite lookup_insert_ne.
Qed.

(** X20: the page removes the temp directory that the entry point leaves
    behind. Unless a regular file is in its place, the temp directory and
    everything under it, whatever was there before the click, are gone
    when the handler ends. *)
Theorem process_removes_temp_dir
    (s : App.SessionState) (secrets : App.Secrets)
    (concurrency chunk_length : Z) (completion : list nat) (w : World) :
  files w !! App.temp_dir s = None
  ∨ files w !! App.temp_dir s = Some Directory →
  let run := App.process ext s secrets concurrency chunk_length completion w in
  files run.2 !! App.temp_dir s = None
  ∧ (∀ q, Os.under (App.temp_dir s) q = true → files run.2 !! q = None)
  ∧ trace run.2 = trace w ++ [Rmtree (App.temp_dir s)].
Proof.
  intros Hd0. cbn zeta.
  destruct (App.process ext s secrets concurrency chunk_length completion w)
    as [r w'] eqn:Hrun. cbn [fst snd].
  revert Hrun. unfold App.process, bind at 1, try_except.
  destruct (process_try_cases s secrets concurrency chunk_length completion w)
    as (Ht & _ & Hd & _). cbn zeta in Ht, Hd. specialize (Hd Hd0).
  destruct (App.process_try ext s secrets concurrency chunk_length completion w)
    as [r1 w1]. cbn [fst snd] in *.
  assert (Hshown : ∃ shown, (match r1 with
                             | inl e => ret [App.ApplicationError e] w1
                             | inr a => (inr a, w1)
                             end) = (inr shown, w1)).
  { destruct r1; unfold ret; eauto. }
  destruct Hshown as (shown & ->).
  unfold bind, App.clean_temp_dir, Os.rmtree, ret. rewrite Hd.
  intros [= <- <-]. cbn [files trace log set_files]. split; [|split].
  - apply map_lookup_filter_None. left. by rewrite lookup_delete_eq.
  - intros q Hq. apply map_lookup_filter_None. right.
    intros x _. simpl. rewrite Hq. by intros [].
  - by rewrite Ht.
Qed.

(** The extension of a path is that of its last component. *)
Lemma splitext_join dir name :
  Path.rsplit1 "/" name = None →
  (Path.splitext (Path.join dir name)).2 = (Path.splitext name).2.
Proof.
  intros Hname.
  assert (Hlast : Path.rsplit1 "/" (Path.join dir name) = None
                  ∧ Path.join dir name = name
                  ∨ ∃ h, Path.rsplit1 "/" (Path.join dir name) = Some (h, name)).
  { unfold Path.join.
    destruct (String.prefix "/" name) eqn:Hp.
    { apply prefix_slash in Hp as [x ->]. by apply rsplit1_leading in Hname. }
    destruct dir as [|a dir]; [by left|]. right.
    destruct (Path.ends_with_char "/" (String a dir)) eqn:He.
    - apply ends_with_char_split in He as [x ->]. exists x.
      rewrite append_assoc.
      change (String "/" EmptyString +:+ name) with (String "/"%char name).
      by rewrite rsplit1_append_last.
    - exists (String a dir).
      change ("/" +:+ name) with (String "/"%char name).
      by rewrite rsplit1_append_last. }
  unfold Path.splitext. rewrite Hname.
  destruct Hlast as [[-> ->]|[h ->]];
    destruct (Path.rsplit1 "." name) as [[stem e]|]; try done;
    by destruct (Path.all_char "." stem).
Qed.

Lemma no_dot_no_separator e :
  Path.rsplit1 "." e = None → Py.contains "." e = false.
Proof.
  induction e as [|c e IH]; [done|]. cbn [Path.rsplit1 Py.contains].
  destruct (Path.rsplit1 "." e) as [[]|]; [done|].
  destruct (Ascii.eqb_spec c ".") as [|Hc]; [done|]. intros _.
  rewrite IH by done. rewrite prefix_cons.
  by destruct (ascii_dec "." c) as [<-|].
Qed.

(** The last piece of [name.split('.')] is the text after the last dot. *)
Lemma split_dot_last stem e :
  Path.rsplit1 "." e = None →
  ∃ p ps, Py.split "." (stem +:+ String "." e) = p :: ps ++ [e].
Proof.
  intros He. unfold Py.split. induction stem as [|c stem (p & ps & IH)].
  - rewrite append_nil_l. cbn [Py.split_go].
    rewrite prefix_cons, prefix_nil. destruct (ascii_dec "." "."); [|done].
    cbn [String.length Nat.pred].
    rewrite (contains_false_split "." e) by (by apply no_dot_no_separator).
    by exists EmptyString, [].
  - rewrite append_cons. cbn [Py.split_go]. rewrite prefix_cons, prefix_nil.
    cbn [String.length Nat.pred]. rewrite IH.
    destruct (ascii_dec "." c).
    + by exists EmptyString, (p :: ps).
    + by exists (String c p), ps.
Qed.

Lemma lower_dot e : Path.lower (String "." e) = String "." (Path.lower e).
Proof. done. Qed.

(** X21: the preview of the page and the entry point agree on the kind of
    an upload. For an uploaded file whose name has an extension in the
    sense of [os.path.splitext], a name shown with the video player is
    treated as video by [get_file_type], and a name shown with the audio
    player as audio, whatever the MIME table says. (A name such as [.mp3],
    which is all extension, is previewed as audio and has no extension for
    [splitext].) *)
Theorem preview_agrees_with_get_file_type
    (s : App.SessionState) (f : App.UploadedFile) (t : FileType) :
  Path.rsplit1 "/" (App.name f) = None →
  (Path.splitext (App.name f)).2 ≠ EmptyString →
  App.preview f = Some t →
  get_file_type ext (Path.join (App.temp_dir s) (App.name f)) = t.
Proof.
  intros Hname Hext.
  assert (Hsplit : ∃ stem e, App.name f = stem +:+ String "." e
                     ∧ Path.rsplit1 "." e = None
                     ∧ (Path.splitext (App.name f)).2 = String "." e).
  { revert Hext. unfold Path.splitext. rewrite Hname.
    destruct (Path.rsplit1 "." (App.name f)) as [[stem e]|] eqn:Hdot; [|done].
    apply rsplit1_split in Hdot as [Hn He].
    destruct (Path.all_char "." stem); [done|]. intros _.
    by exists stem, e. }
  destruct Hsplit as (stem & e & Hn & He & Hx).
  unfold get_file_type. rewrite splitext_join, Hx, lower_dot by done.
  unfold App.preview, App.file_extension. rewrite Hn.
  destruct (split_dot_last stem e He) as (p & ps & ->).
  rewrite app_comm_cons, last_snoc. cbn [default from_option id].
  generalize (Path.lower e). intros x.
  destruct (bool_decide (x ∈ ["mp4"; "mov"; "avi"; "webm"; "mkv"])) eqn:Hv.
  { apply bool_decide_eq_true in Hv. cbv iota. intros [= <-].
    rewrite bool_decide_eq_true_2; [done|].
    repeat (apply elem_of_cons in Hv as [->|Hv]; [among|]).
    by apply elem_of_nil in Hv. }
  destruct (bool_decide (x ∈ ["mp3"; "wav"; "ogg"; "m4a"; "flac"; "aac"]))
    eqn:Ha; cbv iota; [|done].
  apply bool_decide_eq_true in Ha. intros [= <-].
  repeat (apply elem_of_cons in Ha as [->|Ha]; [by vm_compute|]).
  by apply elem_of_nil in Ha.
Qed.

End PageProperties.

(** ** The call stays inside its temp directory *)

Section Confinement.

Context {J : Type} (ext : Externals J).

Lemma join_relative dir name :
  dir ≠ EmptyString → String.prefix "/" name = false →
  Path.join dir name = slashed dir +:+ name.
Proof.
  intros Hd Hrel. unfold Path.join, slashed. rewrite Hrel.
  destruct dir as [|c dir]; [done|].
  destruct (Path.ends_with_char "/" (String c dir)); [done|].
  by rewrite append_assoc.
Qed.

Lemma under_slashed dir x : Os.under dir (slashed dir +:+ x) = true.
Proof. unfold Os.under. fold (slashed dir). apply prefix_append_same. Qed.

Lemma slashed_not_empty dir x : dir ≠ EmptyString → slashed dir +:+ x ≠ EmptyString.
Proof. unfold slashed. by destruct dir, (Path.ends_with_char _ _). Qed.

(** What is joined to something joined to a directory lies under it. *)
Lemma under_join_join dir x y :
  dir ≠ EmptyString → String.prefix "/" x = false →
  String.prefix "/" y = false →
  Os.under dir (Path.join (Path.join dir x) y) = true.
Proof.
  intros Hd Hx Hy. rewrite (join_relative dir x) by done.
  rewrite join_relative by (by try apply slashed_not_empty).
  unfold slashed at 1.
  destruct (Path.ends_with_char "/" (slashed dir +:+ x));
    rewrite !append_assoc; apply under_slashed.
Qed.

Lemma basename_relative p r :
  String.prefix "/" (Path.basename p +:+ r) = false
  ∨ Path.basename p = EmptyString.
Proof.
  pose proof (basename_no_slash p) as Hb.
  destruct (Path.basename p) as [|c b]; [by right|]. left.
  rewrite append_cons, prefix_cons.
  destruct (ascii_dec "/" c) as [<-|]; [|done].
  by apply rsplit1_leading in Hb.
Qed.

(** The files of the sub-windows lie under the temp directory. *)
Lemma sub_window_path_under temp_dir file_path i :
  temp_dir ≠ EmptyString →
  Os.under temp_dir (sub_window_path temp_dir file_path i) = true.
Proof.
  intros Hd. unfold sub_window_path. apply under_join; [done|].
  destruct (basename_relative file_path ("_chunk_" +:+ Py.str i +:+ ".wav"))
    as [H| ->]; [done|].
  rewrite append_nil_l. change "_chunk_" with (String "_" "chunk_").
  by rewrite append_cons, prefix_cons.
Qed.

(** The chunk files of the entry point lie under the temp directory. *)
Lemma chunk_file_under temp_dir vp i :
  temp_dir ≠ EmptyString →
  Os.under temp_dir
    (chunk_file (chunks_dir_of temp_dir vp) (video_name_of vp) i) = true.
Proof.
  intros Hd. unfold chunk_file, chunks_dir_of.
  pose proof (video_name_relative vp) as Hv. fold (video_name_of vp) in Hv.
  apply under_join_join; [done|..]; by apply prefix_append_relative.
Qed.

(** The steps that write, upload and remove, for an invariant [I] that
    exports and removals keep at the paths that satisfy [Qw], and uploads
    at the paths that satisfy [Qu]. *)
Section Confined.

Variables (I : World → Prop) (Qw Qu : string → Prop).

Hypothesis I_write : ∀ p a, Qw p → preserves I (Os.write p (Wav a)).
Hypothesis I_remove : ∀ p, Qw p → preserves I (Os.remove p).
Hypothesis I_export : ∀ p a w, Qw p → I w → I (log (Export p a) w).
Hypothesis I_whisper :
  ∀ p, Qu p → preserves I (transcribe_with_openai_whisper ext p).

Lemma confined_export a p : Qw p → preserves I (export a p).
Proof.
  intros Hp. apply preserves_bind; [by apply I_write|].
  intros _ w Hw. by apply I_export.
Qed.

Lemma confined_transcribe_sub_windows temp_dir file_path chunks :
  (∀ i, Qw (sub_window_path temp_dir file_path i)
        ∧ Qu (sub_window_path temp_dir file_path i)) →
  ∀ i transcript,
    preserves I
      (transcribe_sub_windows ext temp_dir file_path i chunks transcript).
Proof.
  intros Hp.
  induction chunks as [|c chunks IH]; intros i transcript;
    cbn [transcribe_sub_windows]; [apply preserves_ret|].
  destruct (Hp i) as [Hw Hu].
  apply preserves_bind; [by apply confined_export|]. intros _.
  apply preserves_bind; [by apply I_whisper|]. intros r.
  apply preserves_bind; [by apply I_remove|]. intros _. apply IH.
Qed.

Lemma confined_audio_to_text_single_call file_path temp_dir :
  Qu file_path →
  (∀ i, Qw (sub_window_path temp_dir file_path i)
        ∧ Qu (sub_window_path temp_dir file_path i)) →
  preserves I (audio_to_text_single_call ext file_path temp_dir).
Proof.
  intros Hp Hsub. unfold audio_to_text_single_call.
  apply preserves_try_except; [|intros e; apply preserves_ret].
  apply preserves_bind; [apply preserves_from_file|]. intros a.
  destruct (LIMIT <? raw_len a).
  - apply preserves_bind; [apply preserves_lift|]. intros bpm.
    apply preserves_bind; [apply preserves_lift|]. intros d.
    apply preserves_bind; [apply preserves_lift|]. intros chunks.
    apply preserves_bind; [by apply confined_transcribe_sub_windows|].
    intros t. apply preserves_ret.
  - apply preserves_bind; [by apply I_whisper|].
    intros r. apply preserves_ret.
Qed.

Lemma confined_process_audio_chunk temp_dir chunk_path :
  Qu chunk_path →
  (∀ i, Qw (sub_window_path temp_dir chunk_path i)
        ∧ Qu (sub_window_path temp_dir chunk_path i)) →
  preserves I (process_audio_chunk ext temp_dir chunk_path).
Proof.
  intros Hp Hsub. unfold process_audio_chunk.
  apply preserves_bind; [by apply confined_audio_to_text_single_call|].
  intros c. apply preserves_ret.
Qed.

Lemma confined_collect temp_dir audio_chunks completion :
  Forall (fun p => Qu p ∧ ∀ i, Qw (sub_window_path temp_dir p i)
                               ∧ Qu (sub_window_path temp_dir p i))
    audio_chunks →
  preserves I (collect ext temp_dir audio_chunks completion).
Proof.
  intros Hall.
  induction completion as [|idx rest IH]; cbn [collect];
    [apply preserves_ret|].
  destruct (audio_chunks !! idx) as [chunk_path|] eqn:Hidx; [|done].
  assert (Hp : Qu chunk_path
               ∧ ∀ i, Qw (sub_window_path temp_dir chunk_path i)
                      ∧ Qu (sub_window_path temp_dir chunk_path i)).
  { rewrite Forall_forall in Hall. apply Hall.
    by eapply list_elem_of_lookup_2. }
  destruct Hp as [Hp Hsub].
  apply preserves_bind.
  - apply preserves_try_except; [|intros e; apply preserves_ret].
    apply preserves_bind; [|intros x; apply preserves_ret].
    by apply confined_process_audio_chunk.
  - intros r. apply preserves_bind; [done|]. intros rs. apply preserves_ret.
Qed.

Lemma confined_export_chunks a chunk_length_ms chunks_dir video_name starts :
  (∀ i, Qw (chunk_file chunks_dir video_name i)) →
  ∀ i, preserves I
         (export_chunks a chunk_length_ms chunks_dir video_name i starts).
Proof.
  intros Hp.
  induction starts as [|start rest IH]; intros i; cbn [export_chunks];
    [apply preserves_ret|].
  apply preserves_bind; [apply preserves_lift|]. intros chunk.
  apply preserves_bind; [by apply confined_export|].
  intros _. apply preserves_bind; [apply IH|]. intros l. apply preserves_ret.
Qed.

End Confined.

Section Logged.

Variables (temp_dir : string) (k : option string) (t0 : list Event).

Hypothesis temp_dir_named : temp_dir ≠ EmptyString.

Let I : World → Prop := logged_only (inside temp_dir) k t0.
Let Q (p : string) : Prop := Os.under temp_dir p = true.

Lemma inside_write p a : Q p → preserves I (Os.write p (Wav a)).
Proof. intros _ w. apply logged_only_write. Qed.

Lemma inside_log_export p a w : Q p → I w → I (log (Export p a) w).
Proof. intros Hp Hw. by apply logged_only_log. Qed.

Lemma inside_remove p : Q p → preserves I (Os.remove p).
Proof.
  intros Hp w Hw. unfold Os.remove.
  repeat case_match; simpl; first [done|by apply logged_only_log].
Qed.

Lemma inside_whisper p :
  Q p → preserves I (transcribe_with_openai_whisper ext p).
Proof.
  intros Hp w Hw.
  unfold transcribe_with_openai_whisper, bind, Os.getenv_api_key.
  destruct (OPENAI_API_KEY w) as [[|c key]|]; try done.
  unfold Os.open_rb, emit, ret, raise.
  repeat case_match; simplify_eq; simpl; first [done|by apply logged_only_log].
Qed.

Lemma inside_collect audio_chunks completion :
  Forall (fun p => Os.under temp_dir p = true) audio_chunks →
  preserves I (collect ext temp_dir audio_chunks completion).
Proof.
  intros Hall.
  apply (confined_collect I Q Q inside_write inside_remove inside_log_export
           inside_whisper).
  eapply Forall_impl; [exact Hall|]. intros p Hp. split; [done|].
  intros i. split; by apply sub_window_path_under.
Qed.

Lemma inside_split_audio audio_path chunk_length_sec vp :
  preserves I
    (split_audio (J:=J) audio_path (chunks_dir_of temp_dir vp)
       (video_name_of vp) chunk_length_sec).
Proof.
  unfold split_audio.
  apply preserves_try_except; [|intros e; apply preserves_ret].
  apply preserves_bind; [intros w; apply logged_only_makedirs|]. intros _.
  apply preserves_bind; [apply preserves_from_file|]. intros a.
  apply preserves_bind; [apply preserves_lift|]. intros starts.
  apply preserves_bind.
  - apply (confined_export_chunks I Q inside_write inside_log_export).
    intros i. by apply chunk_file_under.
  - intros l. destruct l; apply preserves_ret.
Qed.

End Logged.

(** The chunk paths that the splitter returns are the chunk files, in
    the order of their numbers. *)
Lemma export_chunks_paths a chunk_length_ms chunks_dir video_name starts :
  ∀ i w audio_chunks w',
    export_chunks a chunk_length_ms chunks_dir video_name i starts w
    = (inr audio_chunks, w') →
    audio_chunks = chunk_file chunks_dir video_name <$> seq i (length starts).
Proof.
  induction starts as [|start rest IH]; intros i w audio_chunks w';
    cbn [export_chunks].
  { unfold ret. by intros [= <- <-]. }
  unfold bind at 1, lift. destruct (slice _ _ _) as [e|chunk]; [done|].
  unfold bind at 1. destruct (export _ _ w) as [[e|[]] w1]; [done|].
  unfold bind.
  destruct (export_chunks _ _ _ _ (S i) rest w1) as [[e|l] w2] eqn:Hrest;
    [done|].
  unfold ret. intros [= <- <-]. cbn [length seq fmap list_fmap]. f_equal.
  by eapply IH.
Qed.

Lemma split_audio_paths audio_path chunks_dir video_name chunk_length_sec
    w audio_chunks w' :
  split_audio (J:=J) audio_path chunks_dir video_name chunk_length_sec w
  = (inr (inr audio_chunks), w') →
  audio_chunks
  = chunk_file chunks_dir video_name <$> seq 0 (length audio_chunks).
Proof.
  unfold split_audio, try_except, bind at 1.
  destruct (Os.makedirs chunks_dir w) as [[e|[]] w1]; [by unfold ret|].
  unfold bind at 1.
  destruct (from_file audio_path w1) as [[e|a] w2]; [by unfold ret|].
  unfold bind at 1, lift.
  destruct (py_range _ _) as [e|starts]; [by unfold ret|].
  unfold bind.
  destruct (export_chunks _ _ _ _ 0 starts w2) as [[e|l] w3] eqn:Hl;
    [by unfold ret|].
  apply export_chunks_paths in Hl.
  destruct l; unfold ret; intros [= <- <-].
  rewrite Hl at 1. by rewrite Hl, length_fmap, length_seq.
Qed.

Lemma split_audio_chunk_files audio_path chunks_dir video_name
    chunk_length_sec w audio_chunks w' :
  split_audio (J:=J) audio_path chunks_dir video_name chunk_length_sec w
  = (inr (inr audio_chunks), w') →
  Forall (fun p => ∃ j, p = chunk_file chunks_dir video_name j) audio_chunks.
Proof.
  intros ->%split_audio_paths. apply Forall_fmap, Forall_true. eauto.
Qed.

(** X22: the call stays inside its temp directory. Every file that a
    call exports, uploads or removes, and the directory it removes, lie
    under [temp_dir]: the chunk files, the files of the sub-windows, the
    chunks directory and the canonical audio file. Nothing outside the
    temp directory is uploaded or deleted, whatever the input path, the
    URL and the services. *)
Theorem call_stays_inside_temp_dir
    (video_path temp_dir : string) (concurrency_level chunk_length_sec : Z)
    (is_url : bool) (completion : list nat) (w : World) :
  let run := transcribe_and_summarize_video ext video_path temp_dir
               concurrency_level chunk_length_sec is_url completion w in
  ∃ evs, trace run.2 = trace w ++ evs ∧ Forall (inside temp_dir) evs.
Proof.
  intros run.
  set (I := logged_only (inside temp_dir) (OPENAI_API_KEY w) (trace w)).
  assert (Hrun : I run.2); [|by destruct Hrun as [_ ?]].
  unfold run.
  destruct (transcribe_and_summarize_video_unfolds ext video_path temp_dir
              concurrency_level chunk_length_sec is_url completion w)
    as [e Hmk|w1 r w2 Hmk Hres|w1 vp w2 r w3 Hmk Hres Hext
        |w1 vp w2 ap w3 r w4 Hmk Hres Hext Hsplit
        |w1 vp w2 ap w3 chunks w4 Hmk Hres Hext Hsplit Hc
        |w1 vp w2 ap w3 chunks w4 rs w5 r w6 Hmk Hres Hext Hsplit Hc Hcol Hms];
    cbn [snd]; try apply logged_only_refl.
  all: assert (Htd : temp_dir ≠ EmptyString)
         by (by destruct (makedirs_establishes temp_dir w w1 Hmk)).
  all: assert (H1 : I w1)
         by (eapply step_keeps; [apply preserves_makedirs_logged| |exact Hmk];
             apply logged_only_refl).
  all: assert (H2 : I w2)
         by (eapply step_keeps;
             [apply (preserves_resolve_input_logged ext); by intros []
             |exact H1|exact Hres]).
  1: done.
  all: assert (H3 : I w3)
         by (eapply step_keeps;
             [apply (preserves_extract_audio_logged ext)|exact H2|exact Hext]).
  1: done.
  all: assert (H4 : I w4)
         by (eapply step_keeps;
             [by apply inside_split_audio|exact H3|exact Hsplit]).
  1,2: done.
  assert (H5 : I w5).
  { eapply step_keeps; [|exact H4|exact Hcol].
    apply inside_collect; [done|].
    apply split_audio_chunk_files in Hsplit.
    eapply Forall_impl; [exact Hsplit|].
    intros p [j ->]. by apply chunk_file_under. }
  assert (Hcd : Os.under temp_dir (chunks_dir_of temp_dir vp) = true).
  { apply under_join; [done|].
    apply prefix_append_relative; [apply video_name_relative|done]. }
  assert (Hap : Os.under temp_dir ap = true).
  { pose proof (extract_audio_cases ext vp temp_dir (video_name_of vp) w2) as H.
    rewrite Hext in H. destruct H as [_ ->].
    apply under_join; [done|].
    apply prefix_append_relative; [apply video_name_relative|done]. }
  apply merge_and_summarize_cases in Hms
    as [[-> _]|(t & key & _ & _ & _ & Hcases)]; [done|].
  cbn zeta in Hcases.
  assert (Hchat : I (log (PostChatCompletion key (chat_payload t)) w5))
    by (by apply logged_only_log).
  destruct Hcases as [(e & _ & _ & ->)|[(text & _ & _ & _ & ->)|(text & j & _ & _ & _ & ->)]];
    [done..|].
  destruct (clean_up_trace (chunks_dir_of temp_dir vp) ap
              (log (PostChatCompletion key (chat_payload t)) w5))
    as [Hk Ht]. cbn zeta in Hk, Ht.
  destruct Hchat as [Hk1 (evs & Hevs & Hall)].
  split; [congruence|].
  destruct Ht as [Ht|[Ht|Ht]]; rewrite Ht, Hevs, <- ?app_assoc;
    eexists; (split; [done|]); rewrite ?Forall_app; repeat split;
    try done; by repeat constructor.
Qed.

End Confinement.

(** ** What a summary leaves behind *)

Section Intermediates.

Context {J : Type} (ext : Externals J).

Lemma ends_with_char_append c x y :
  y ≠ EmptyString →
  Path.ends_with_char c (x +:+ y) = Path.ends_with_char c y.
Proof.
  intros Hy. induction x as [|a x IH]; [done|].
  rewrite append_cons. cbn [Path.ends_with_char].
  destruct (x +:+ y) eqn:Hxy; [|done].
  destruct x; [by rewrite append_nil_l in Hxy|by rewrite append_cons in Hxy].
Qed.

Lemma prefix_append_inv s a b :
  String.prefix (s +:+ a) (s +:+ b) = String.prefix a b.
Proof.
  induction s as [|c s IH]; [done|].
  rewrite !append_cons, prefix_cons. by destruct (ascii_dec c c).
Qed.

(** The paths of a call, as texts that start with the temp directory. *)
Section Paths.

Variables (temp_dir vp : string).

Hypothesis temp_dir_named : temp_dir ≠ EmptyString.

Let v : string := video_name_of vp.
Let S : string := slashed temp_dir.

Lemma chunks_dir_text : chunks_dir_of temp_dir vp = S +:+ v +:+ "_chunks".
Proof.
  unfold chunks_dir_of. apply join_relative; [done|].
  apply prefix_append_relative; [apply video_name_relative|done].
Qed.

Lemma audio_path_text : audio_path_of temp_dir vp = S +:+ v +:+ ".wav".
Proof.
  unfold audio_path_of. apply join_relative; [done|].
  apply prefix_append_relative; [apply video_name_relative|done].
Qed.

Lemma chunk_name_relative i :
  String.prefix "/" (v +:+ "_chunk_" +:+ Py.str i +:+ ".wav") = false.
Proof. apply prefix_append_relative; [apply video_name_relative|done]. Qed.

Lemma chunk_name_no_slash i :
  Path.rsplit1 "/" (v +:+ "_chunk_" +:+ Py.str i +:+ ".wav") = None.
Proof.
  destruct (str_plain i) as [Hslash _].
  rewrite rsplit1_append_none.
  - unfold v, video_name_of. by rewrite video_name_no_slash.
  - change ("_chunk_" +:+ Py.str i +:+ ".wav")
      with (String "_" (String "c" (String "h" (String "u" (String "n"
             (String "k" (String "_" (Py.str i +:+ ".wav")))))))).
    cbn [Path.rsplit1]. by rewrite rsplit1_append_none, Hslash.
Qed.

Lemma chunk_file_text i :
  chunk_file (chunks_dir_of temp_dir vp) v i
  = S +:+ v +:+ "_chunks" +:+ "/" +:+ v +:+ "_chunk_" +:+ Py.str i +:+ ".wav".
Proof.
  unfold chunk_file. rewrite chunks_dir_text.
  rewrite join_relative; [|by apply slashed_not_empty|apply chunk_name_relative].
  unfold slashed at 1.
  rewrite <- (append_assoc S v), ends_with_char_append by done.
  cbn [Path.ends_with_char Ascii.eqb Bool.eqb]. by rewrite !append_assoc.
Qed.

Lemma sub_window_path_text i j :
  sub_window_path temp_dir (chunk_file (chunks_dir_of temp_dir vp) v i) j
  = S +:+ v +:+ "_chunk_" +:+ Py.str i +:+ ".wav" +:+ "_chunk_"
      +:+ Py.str j +:+ ".wav".
Proof.
  unfold sub_window_path, chunk_file.
  rewrite basename_join by apply chunk_name_no_slash.
  rewrite join_relative; [by rewrite !append_assoc|done|].
  rewrite !append_assoc.
  apply prefix_append_relative; [apply video_name_relative|done].
Qed.

(** The chunk files and the files of the sub-windows are neither the
    chunks directory nor the audio file. *)
Lemma chunk_file_apart i :
  chunk_file (chunks_dir_of temp_dir vp) v i ≠ chunks_dir_of temp_dir vp
  ∧ chunk_file (chunks_dir_of temp_dir vp) v i ≠ audio_path_of temp_dir vp.
Proof.
  rewrite chunk_file_text, chunks_dir_text, audio_path_text. split; intros H.
  - apply append_inv_l, append_inv_l in H.
    apply (f_equal String.length) in H. rewrite !length_append in H.
    simpl in H. lia.
  - apply append_inv_l, append_inv_l in H. discriminate H.
Qed.

Lemma sub_window_path_apart i j :
  sub_window_path temp_dir (chunk_file (chunks_dir_of temp_dir vp) v i) j
  ≠ chunks_dir_of temp_dir vp
  ∧ sub_window_path temp_dir (chunk_file (chunks_dir_of temp_dir vp) v i) j
    ≠ audio_path_of temp_dir vp.
Proof.
  rewrite sub_window_path_text, chunks_dir_text, audio_path_text.
  split; intros H; apply append_inv_l, append_inv_l in H; discriminate H.
Qed.

Lemma audio_path_outside_chunks_dir :
  Os.under (chunks_dir_of temp_dir vp) (audio_path_of temp_dir vp) = false.
Proof.
  unfold Os.under. rewrite chunks_dir_text, audio_path_text.
  rewrite <- (append_assoc S v "_chunks"), ends_with_char_append by done.
  cbn [Path.ends_with_char Ascii.eqb Bool.eqb].
  rewrite !append_assoc, !prefix_append_inv. done.
Qed.

End Paths.

(** The chunks directory and the audio file stay in place while other
    paths are written and removed. *)
Section InPlace.

Variables (chunks_dir audio_path : string).

Let I : World → Prop := intermediates_in_place chunks_dir audio_path.
Let Q (p : string) : Prop := p ≠ chunks_dir ∧ p ≠ audio_path.

Lemma in_place_write p a : Q p → preserves I (Os.write p (Wav a)).
Proof.
  intros [Hcd Hap] w [Hd (x & Hx & Hne)]. unfold Os.write.
  destruct (files w !! p) as [[]|]; cbn [snd]; try (by split; eauto);
    (split; cbn [files set_files]; [by rewrite lookup_insert_ne|]);
    exists x; by rewrite lookup_insert_ne.
Qed.

Lemma in_place_remove p : Q p → preserves I (Os.remove p).
Proof.
  intros [Hcd Hap] w [Hd (x & Hx & Hne)]. unfold Os.remove.
  destruct (files w !! p) as [[]|]; cbn [snd]; try (by split; eauto);
    (split; cbn [files set_files log]; [by rewrite lookup_delete_ne|]);
    exists x; by rewrite lookup_delete_ne.
Qed.

Lemma in_place_log_export p a w : Q p → I w → I (log (Export p a) w).
Proof. done. Qed.

Lemma in_place_whisper p :
  True → preserves I (transcribe_with_openai_whisper ext p).
Proof.
  intros _ w Hw.
  unfold transcribe_with_openai_whisper, bind, Os.getenv_api_key,
    Os.open_rb, emit, ret, raise.
  repeat case_match; simplify_eq; by simpl.
Qed.

End InPlace.

(** After the splitter has returned its chunks, the chunks directory and
    the audio file are in place. *)
Lemma split_audio_in_place temp_dir vp chunk_length_sec w audio_chunks w' :
  temp_dir ≠ EmptyString →
  split_audio (J:=J) (audio_path_of temp_dir vp) (chunks_dir_of temp_dir vp)
    (video_name_of vp) chunk_length_sec w = (inr (inr audio_chunks), w') →
  intermediates_in_place (chunks_dir_of temp_dir vp)
    (audio_path_of temp_dir vp) w'.
Proof.
  intros Htd. set (cd := chunks_dir_of temp_dir vp).
  set (ap := audio_path_of temp_dir vp).
  unfold split_audio, try_except, bind at 1.
  destruct (Os.makedirs cd w) as [[e|[]] w1] eqn:Hmk; [by unfold ret|].
  apply makedirs_establishes in Hmk as [_ Hcd].
  unfold bind at 1, from_file, bind at 1, Os.open_rb.
  destruct (files w1 !! ap) as [[|a|]|] eqn:Hap;
    try (by unfold ret, raise).
  unfold ret at 1, bind at 1, lift.
  destruct (py_range _ _) as [e|starts]; [by unfold ret|].
  unfold bind.
  assert (H1 : intermediates_in_place cd ap w1)
    by (split; [done|by exists (Wav a)]).
  pose proof (confined_export_chunks (intermediates_in_place cd ap)
                (fun p => p ≠ cd ∧ p ≠ ap)
                (in_place_write cd ap) (in_place_log_export cd ap)
                a (chunk_length_sec * 1000) cd (video_name_of vp) starts
                (fun i => chunk_file_apart temp_dir vp Htd i) 0 w1 H1) as H2.
  destruct (export_chunks _ _ _ _ 0 starts w1) as [[e|l] w2];
    [by unfold ret|].
  destruct l; unfold ret; by intros [= <- <-].
Qed.

(** X23: a summary removes the chunks directory and the audio file. When
    the call returns a summary, the chunks directory, every path under it
    and the canonical audio file [temp_dir/<name>.wav] are gone, whatever
    the order of completion and whatever failed for single chunks; this
    includes the input itself when the input is a WAV file that already
    lies at that path. The files of sub-windows lie in the temp directory
    itself, not under the chunks directory, and are not among them. *)
Theorem summary_removes_chunks_and_audio
    (video_path temp_dir : string) (concurrency_level chunk_length_sec : Z)
    (is_url : bool) (completion : list nat) (w : World) (j : J) :
  let run := transcribe_and_summarize_video ext video_path temp_dir
               concurrency_level chunk_length_sec is_url completion w in
  let vp := input_path ext video_path temp_dir is_url in
  run.1 = Summary j →
  files run.2 !! chunks_dir_of temp_dir vp = None
  ∧ files run.2 !! audio_path_of temp_dir vp = None
  ∧ ∀ q, Os.under (chunks_dir_of temp_dir vp) q = true →
         files run.2 !! q = None.
Proof.
  intros run vp0. unfold run.
  destruct (transcribe_and_summarize_video_unfolds ext video_path temp_dir
              concurrency_level chunk_length_sec is_url completion w)
    as [e Hmk|w1 r w2 Hmk Hres|w1 vp w2 r w3 Hmk Hres Hext
        |w1 vp w2 ap w3 r w4 Hmk Hres Hext Hsplit
        |w1 vp w2 ap w3 chunks w4 Hmk Hres Hext Hsplit Hc
        |w1 vp w2 ap w3 chunks w4 rs w5 r w6 Hmk Hres Hext Hsplit Hc Hcol Hms];
    cbn [fst snd]; intros Hj; try done.
  - pose proof (resolve_input_cases ext video_path temp_dir is_url w1) as H.
    rewrite Hres in H. destruct H as (_ & (e & ->) & _). done.
  - pose proof (extract_audio_cases ext vp temp_dir (video_name_of vp) w2) as H.
    rewrite Hext in H. destruct H as (_ & e & ->). done.
  - pose proof (split_audio_cases (J:=J) ap (chunks_dir_of temp_dir vp)
                  (video_name_of vp) chunk_length_sec w3) as H.
    rewrite Hsplit in H. destruct H as [->|[e ->]]; done.
  - subst r.
    assert (Htd : temp_dir ≠ EmptyString)
      by (by destruct (makedirs_establishes temp_dir w w1 Hmk)).
    assert (vp = vp0) as ->.
    { pose proof (resolve_input_cases ext video_path temp_dir is_url w1) as H.
      rewrite Hres in H. unfold vp0, input_path.
      destruct is_url; [|by destruct H].
      by destruct H as (n & body & -> & _ & -> & _). }
    assert (ap = audio_path_of temp_dir vp0) as ->.
    { pose proof (extract_audio_cases ext vp0 temp_dir (video_name_of vp0) w2)
        as H. rewrite Hext in H. by destruct H. }
    set (cd := chunks_dir_of temp_dir vp0) in *.
    set (ap := audio_path_of temp_dir vp0) in *.
    assert (H4 : intermediates_in_place cd ap w4)
      by (by eapply split_audio_in_place).
    assert (H5 : intermediates_in_place cd ap w5).
    { eapply step_keeps; [|exact H4|exact Hcol].
      apply (confined_collect ext (intermediates_in_place cd ap)
               (fun p => p ≠ cd ∧ p ≠ ap) (fun _ => True)
               (in_place_write cd ap) (in_place_remove cd ap)
               (in_place_log_export cd ap) (in_place_whisper cd ap)).
      apply split_audio_chunk_files in Hsplit.
      eapply Forall_impl; [exact Hsplit|].
      intros p [i ->]. split; [done|].
      intros k. split; [by apply sub_window_path_apart|done]. }
    apply merge_and_summarize_cases in Hms
      as [[_ [?|[[? ?]|[? _]]]]|(t & key & _ & _ & _ & Hcases)]; try done.
    cbn zeta in Hcases.
    destruct Hcases as [(e & _ & ? & _)|[(text & _ & _ & ? & _)|(text & j' & _ & _ & _ & ->)]];
      try done.
    destruct H5 as [Hcd (d & Hap & Hd)].
    destruct (clean_up_removes cd ap
                (log (PostChatCompletion key (chat_payload t)) w5) d)
      as (H1 & H2 & H3 & _); try done.
    by apply audio_path_outside_chunks_dir.
Qed.

End Intermediates.

(** ** The order of completion *)

Section Schedule.

Context {J : Type} (ext : Externals J).

(** Two continuations that agree on their results give binds that
    agree. *)
Lemma bind_same_result {A B} (m : M A) (k k' : A → M B) w :
  (∀ a w1, m w = (inr a, w1) → (k a w1).1 = (k' a w1).1) →
  (bind m k w).1 = (bind m k' w).1.
Proof.
  intros H. unfold bind. destruct (m w) as [[e|a] w1]; [done|by apply H].
Qed.

Lemma returning_same_result {A B} (m : M (Result J + A))
    (k k' : A → M (Result J + B)) w :
  (∀ a w1, m w = (inr (inr a), w1) → (k a w1).1 = (k' a w1).1) →
  (returning m k w).1 = (returning m k' w).1.
Proof.
  intros H. unfold returning. apply bind_same_result.
  intros [r|a] w1 Hm; [done|by apply H].
Qed.

(** One round of the loop over the sub-windows. *)
Lemma transcribe_sub_windows_step temp_dir file_path i c rest t w :
  let p := sub_window_path temp_dir file_path i in
  let w1 := log (Export p c) (set_files (insert p (Wav c)) w) in
  transcribe_sub_windows ext temp_dir file_path i (c :: rest) t w
  = match files w !! p with
    | Some Directory => (inl (IsADirectoryError p), w)
    | _ =>
        match OPENAI_API_KEY w with
        | Some (String a key) =>
            let w2 := log (PostTranscription (String a key) p) w1 in
            match whisper ext (String a key) p with
            | WhisperRaises e => (inl e, w2)
            | r =>
                transcribe_sub_windows ext temp_dir file_path (S i) rest
                  (t +:+ reply_text r +:+ " ")
                  (log (Remove p) (set_files (delete p) w2))
            end
        | _ =>
            transcribe_sub_windows ext temp_dir file_path (S i) rest
              (t +:+ EmptyString +:+ " ")
              (log (Remove p) (set_files (delete p) w1))
        end
    end.
Proof.
  intros p w1. cbn [transcribe_sub_windows]. fold p.
  assert (Hw1 : files w1 !! p = Some (Wav c))
    by (cbn [w1 files log set_files]; by rewrite lookup_insert_eq).
  assert (Hrm : ∀ x, files x = files w1 →
            Os.remove p x = (inr tt, log (Remove p) (set_files (delete p) x))).
  { intros x Hx. unfold Os.remove. by rewrite Hx, Hw1. }
  unfold bind at 1, export, bind at 1, Os.write.
  destruct (files w !! p) as [[|a0|]|] eqn:Hp; [done|..].
  all: unfold emit at 1; fold w1.
  all: unfold bind at 1, transcribe_with_openai_whisper, bind at 1,
         Os.getenv_api_key.
  all: replace (OPENAI_API_KEY w1) with (OPENAI_API_KEY w) by done.
  all: destruct (OPENAI_API_KEY w) as [[|a key]|];
    [unfold ret at 1; unfold bind at 1; by rewrite Hrm
    |unfold bind at 1, Os.open_rb; rewrite Hw1; unfold bind at 1, emit;
     destruct (whisper ext (String a key) p) as [e|body|text];
       [done|..]; unfold ret at 1; unfold bind at 1; by rewrite Hrm
    |unfold ret at 1; unfold bind at 1; by rewrite Hrm].
Qed.

Lemma dirs_delete_insert (fs fs' : gmap string FileData) p d q :
  (fs !! q = Some Directory ↔ fs' !! q = Some Directory) →
  delete p (<[p:=d]> fs) !! q = Some Directory
  ↔ delete p (<[p:=d]> fs') !! q = Some Directory.
Proof.
  intros H. destruct (decide (q = p)) as [->|Hq].
  - by rewrite !lookup_delete_eq.
  - by rewrite !lookup_delete_ne, !lookup_insert_ne.
Qed.

(** What the loop over the sub-windows returns depends on the credential
    and on which of its paths are directories, and on nothing else in the
    world. *)
Lemma transcribe_sub_windows_same temp_dir file_path chunks : ∀ i t w w',
  OPENAI_API_KEY w = OPENAI_API_KEY w' →
  (∀ j, files w !! sub_window_path temp_dir file_path j = Some Directory
        ↔ files w' !! sub_window_path temp_dir file_path j = Some Directory) →
  (transcribe_sub_windows ext temp_dir file_path i chunks t w).1
  = (transcribe_sub_windows ext temp_dir file_path i chunks t w').1.
Proof.
  induction chunks as [|c rest IH]; intros i t w w' Hk Hd; [done|].
  rewrite !transcribe_sub_windows_step. cbv zeta.
  set (p := sub_window_path temp_dir file_path i).
  assert (Hnext : ∀ e e' j,
    files (log e (set_files (delete p)
             (log e' (set_files (insert p (Wav c)) w))))
      !! sub_window_path temp_dir file_path j = Some Directory
    ↔ files (log e (set_files (delete p)
               (log e' (set_files (insert p (Wav c)) w'))))
        !! sub_window_path temp_dir file_path j = Some Directory).
  { intros e e' j. cbn [files log set_files]. apply dirs_delete_insert, Hd. }
  assert (Hnext2 : ∀ e e' e'' j,
    files (log e (set_files (delete p)
             (log e'' (log e' (set_files (insert p (Wav c)) w)))))
      !! sub_window_path temp_dir file_path j = Some Directory
    ↔ files (log e (set_files (delete p)
               (log e'' (log e' (set_files (insert p (Wav c)) w')))))
        !! sub_window_path temp_dir file_path j = Some Directory).
  { intros e e' e'' j. cbn [files log set_files].
    apply dirs_delete_insert, Hd. }
  assert (Hkey : ∀ e e',
    OPENAI_API_KEY (log e (set_files (delete p)
                      (log e' (set_files (insert p (Wav c)) w))))
    = OPENAI_API_KEY (log e (set_files (delete p)
                        (log e' (set_files (insert p (Wav c)) w')))))
    by (intros e e'; exact Hk).
  assert (Hkey2 : ∀ e e' e'',
    OPENAI_API_KEY (log e (set_files (delete p)
                      (log e'' (log e' (set_files (insert p (Wav c)) w)))))
    = OPENAI_API_KEY (log e (set_files (delete p)
                        (log e'' (log e' (set_files (insert p (Wav c)) w'))))))
    by (intros e e' e''; exact Hk).
  rewrite <- Hk. pose proof (Hd i) as Hdi. fold p in Hdi. revert Hdi.
  destruct (files w !! p) as [[]|], (files w' !! p) as [[]|];
    intros [H1 H2]; try done;
    try (by specialize (H1 eq_refl)); try (by specialize (H2 eq_refl));
    (destruct (OPENAI_API_KEY w) as [[|a key]|];
     [apply IH; [apply Hkey|intros j; apply Hnext]
     |destruct (whisper ext (String a key) p);
        [done|apply IH; [apply Hkey2|intros j; apply Hnext2]..]
     |apply IH; [apply Hkey|intros j; apply Hnext]]).
Qed.

Lemma from_file_same {B} p (k : AudioSegment → M B) w w' :
  files w !! p = files w' !! p →
  (∀ a, (k a w).1 = (k a w').1) →
  (bind (from_file p) k w).1 = (bind (from_file p) k w').1.
Proof.
  intros Hf Hk. unfold bind, from_file, bind, Os.open_rb, ret, raise.
  rewrite Hf. by destruct (files w' !! p) as [[|a|]|].
Qed.

Lemma lift_same {A B} (r : Exn + A) (k : A → M B) w w' :
  (∀ a, (k a w).1 = (k a w').1) →
  (bind (lift r) k w).1 = (bind (lift r) k w').1.
Proof. intros Hk. unfold bind, lift. by destruct r. Qed.

(** What the client returns for a chunk depends on the credential, on
    the chunk file and on which of the sub-window paths are
    directories. *)
Lemma audio_to_text_single_call_same file_path temp_dir w w' :
  OPENAI_API_KEY w = OPENAI_API_KEY w' →
  files w !! file_path = files w' !! file_path →
  (∀ j, files w !! sub_window_path temp_dir file_path j = Some Directory
        ↔ files w' !! sub_window_path temp_dir file_path j = Some Directory) →
  (audio_to_text_single_call ext file_path temp_dir w).1
  = (audio_to_text_single_call ext file_path temp_dir w').1.
Proof.
  intros Hk Hf Hd.
  unfold audio_to_text_single_call, try_except.
  match goal with
  | |- (let (_, _) := ?m w in _).1 = _ =>
      assert (Hm : (m w).1 = (m w').1);
      [|destruct (m w) as [[e|c] w1], (m w') as [[e'|c'] w1'];
        simpl in Hm |- *; congruence]
  end.
  apply from_file_same; [done|]. intros a.
  destruct (LIMIT <? raw_len a).
  - apply lift_same. intros bpm. apply lift_same. intros d.
    apply lift_same. intros chunks.
    pose proof (transcribe_sub_windows_same temp_dir file_path chunks 0
                  EmptyString w w' Hk Hd) as H.
    unfold bind, ret.
    destruct (transcribe_sub_windows _ _ _ _ _ _ w) as [[e|t] w1],
      (transcribe_sub_windows _ _ _ _ _ _ w') as [[e'|t'] w1'];
      simpl in H |- *; congruence.
  - unfold bind, transcribe_with_openai_whisper, bind, Os.getenv_api_key.
    rewrite Hk.
    destruct (OPENAI_API_KEY w') as [[|c key]|]; try done.
    unfold Os.open_rb, emit, ret, raise. rewrite Hf.
    destruct (files w' !! file_path) as [[]|]; try done;
      by destruct (whisper ext (String c key) file_path).
Qed.

Lemma process_audio_chunk_same temp_dir chunk_path w w' :
  OPENAI_API_KEY w = OPENAI_API_KEY w' →
  files w !! chunk_path = files w' !! chunk_path →
  (∀ j, files w !! sub_window_path temp_dir chunk_path j = Some Directory
        ↔ files w' !! sub_window_path temp_dir chunk_path j = Some Directory) →
  (process_audio_chunk ext temp_dir chunk_path w).1
  = (process_audio_chunk ext temp_dir chunk_path w').1.
Proof.
  intros Hk Hf Hd.
  pose proof (audio_to_text_single_call_same chunk_path temp_dir w w' Hk Hf Hd)
    as H.
  unfold process_audio_chunk, bind, ret.
  destruct (audio_to_text_single_call _ _ _ w) as [[e|c] w1],
    (audio_to_text_single_call _ _ _ w') as [[e'|c'] w1'];
    simpl in H |- *; by simplify_eq.
Qed.

(** Exports and removals at paths that are no chunk files, and uploads,
    leave the chunks the same to read. *)
Section SameInputs.

Variables (audio_chunks : list string) (w0 : World).

Let I : World → Prop := same_inputs audio_chunks w0.
Let Q (p : string) : Prop := p ∉ audio_chunks.

Lemma same_inputs_write p a : Q p → preserves I (Os.write p (Wav a)).
Proof.
  intros Hp w (Hk & Hd & Hf). unfold Os.write.
  destruct (files w !! p) as [[]|] eqn:Hwp; cbn [snd]; [done|..];
    (split; [done|]; split; cbn [files set_files];
     [intros q; destruct (decide (q = p)) as [->|Hq];
      [rewrite lookup_insert_eq, <- Hd, Hwp; by split
      |by rewrite lookup_insert_ne]
     |intros q Hq; rewrite lookup_insert_ne by (by intros ->); by apply Hf]).
Qed.

Lemma same_inputs_remove p : Q p → preserves I (Os.remove p).
Proof.
  intros Hp w (Hk & Hd & Hf). unfold Os.remove.
  destruct (files w !! p) as [[]|] eqn:Hwp; cbn [snd]; try done;
    (split; [done|]; split; cbn [files set_files log];
     [intros q; destruct (decide (q = p)) as [->|Hq];
      [rewrite lookup_delete_eq, <- Hd, Hwp; by split
      |by rewrite lookup_delete_ne]
     |intros q Hq; rewrite lookup_delete_ne by (by intros ->); by apply Hf]).
Qed.

Lemma same_inputs_log_export p a w : Q p → I w → I (log (Export p a) w).
Proof. done. Qed.

Lemma same_inputs_whisper p :
  True → preserves I (transcribe_with_openai_whisper ext p).
Proof.
  intros _ w Hw.
  unfold transcribe_with_openai_whisper, bind, Os.getenv_api_key,
    Os.open_rb, emit, ret, raise.
  repeat case_match; simplify_eq; by simpl.
Qed.

End SameInputs.

(** The pool, started in a world that gives the chunks the same to read
    as [w0], returns for every settled future the result that its chunk
    has in [w0]. *)
Lemma collect_same_inputs temp_dir audio_chunks w0 completion :
  Forall (fun p => ∀ i, sub_window_path temp_dir p i ∉ audio_chunks)
    audio_chunks →
  ∀ w, same_inputs audio_chunks w0 w →
    ∃ rs w',
      collect ext temp_dir audio_chunks completion w = (inr rs, w')
      ∧ OPENAI_API_KEY w' = OPENAI_API_KEY w0
      ∧ Forall2 (fun p r =>
                   (process_audio_chunk ext temp_dir p w0).1 = inr r)
          (omap (audio_chunks !!.) completion) rs.
Proof.
  intros Hsub.
  induction completion as [|idx rest IH]; intros w Hw; cbn [collect].
  { exists [], w. split; [done|]. split; [by destruct Hw|constructor]. }
  cbn [omap list_omap].
  destruct (audio_chunks !! idx) as [p|] eqn:Hidx; [|by apply IH].
  assert (Hin : p ∈ audio_chunks) by (by eapply list_elem_of_lookup_2).
  unfold bind at 1, try_except, bind at 1.
  destruct (process_audio_chunk_returns ext temp_dir p w) as (x & w1 & Hx).
  rewrite Hx. unfold ret at 1. unfold bind.
  assert (Hw1 : same_inputs audio_chunks w0 w1).
  { eapply step_keeps; [|exact Hw|exact Hx].
    apply (confined_process_audio_chunk ext (same_inputs audio_chunks w0)
             (fun p => p ∉ audio_chunks) (fun _ => True)
             (same_inputs_write audio_chunks w0)
             (same_inputs_remove audio_chunks w0)
             (same_inputs_log_export audio_chunks w0)
             (same_inputs_whisper audio_chunks w0)); [done|].
    intros i. split; [|done].
    rewrite Forall_forall in Hsub. by apply Hsub. }
  destruct (IH w1 Hw1) as (rs & w' & -> & Hk' & Hrs). unfold ret.
  exists (x :: rs), w'. split; [done|]. split; [done|].
  constructor; [|done].
  destruct Hw as (Hk & Hd & Hf).
  rewrite <- (process_audio_chunk_same temp_dir p w w0), Hx; [done..| |].
  - by apply Hf.
  - intros j. apply Hd.
Qed.

(** The results that two orders of completion collect from the same world
    are the same up to their order. *)
Lemma collect_permutation temp_dir audio_chunks completion completion' w
    rs w1 rs' w1' :
  Forall (fun p => ∀ i, sub_window_path temp_dir p i ∉ audio_chunks)
    audio_chunks →
  completion' ≡ₚ completion →
  collect ext temp_dir audio_chunks completion w = (inr rs, w1) →
  collect ext temp_dir audio_chunks completion' w = (inr rs', w1') →
  rs' ≡ₚ rs
  ∧ OPENAI_API_KEY w1' = OPENAI_API_KEY w1
  ∧ Forall2 (fun p r => (process_audio_chunk ext temp_dir p w).1 = inr r)
      (omap (audio_chunks !!.) completion) rs.
Proof.
  intros Hsub Hperm Hrun Hrun'.
  assert (Hw : same_inputs audio_chunks w w) by done.
  destruct (collect_same_inputs temp_dir audio_chunks w completion Hsub w Hw)
    as (x & y & Hx & Hk & Hrs).
  destruct (collect_same_inputs temp_dir audio_chunks w completion' Hsub w Hw)
    as (x' & y' & Hx' & Hk' & Hrs').
  rewrite Hrun in Hx. rewrite Hrun' in Hx'.
  injection Hx as <- <-. injection Hx' as <- <-.
  split; [|split; [congruence|done]].
  set (g := fun p => match (process_audio_chunk ext temp_dir p w).1 with
                     | inr r => r
                     | inl _ => mkChunkResult EmptyString EmptyString None None
                     end).
  assert (Hg : ∀ ps l,
    Forall2 (fun p r => (process_audio_chunk ext temp_dir p w).1 = inr r) ps l →
    l = g <$> ps).
  { induction 1 as [|p r ps l Hr _ IH]; [done|].
    cbn [fmap list_fmap]. unfold g at 1. by rewrite Hr, IH. }
  rewrite (Hg _ _ Hrs), (Hg _ _ Hrs'). by rewrite Hperm.
Qed.

Lemma omap_lookup_fmap_seq {A} (f : nat → A) (n : nat) (l : list nat) :
  omap ((f <$> seq 0 n) !!.) l = f <$> filter (fun i => (i < n)%nat) l.
Proof.
  induction l as [|i l IH]; [done|]. cbn [omap list_omap].
  rewrite list_lookup_fmap. destruct (decide (i < n)%nat) as [Hi|Hi].
  - rewrite lookup_seq_lt, filter_cons_True by done. cbn. by rewrite IH.
  - rewrite lookup_seq_ge, filter_cons_False by lia. done.
Qed.

(** The results collected for the chunk files of a plain name carry the
    numbers of their chunks. *)
Lemma collected_numbers temp_dir chunks_dir v w numbers : ∀ rs,
  Path.rsplit1 "/" v = None →
  Path.rsplit1 "_" v = None →
  Forall2 (fun p r => (process_audio_chunk ext temp_dir p w).1 = inr r)
    (chunk_file chunks_dir v <$> numbers) rs →
  (∀ x, x ∈ rs →
        chunk_id x = v +:+ "_chunk_" +:+ Py.str (Z.to_nat (index x)))
  ∧ (fun x => Z.to_nat (index x)) <$> rs = numbers.
Proof.
  induction numbers as [|i numbers IH]; intros rs Hslash Hv H;
    cbn [fmap list_fmap] in H.
  { apply Forall2_nil_inv_l in H as ->. split; [|done].
    intros x Hx. by apply elem_of_nil in Hx. }
  apply Forall2_cons_inv_l in H as (r & rs' & Hr & Hrs & ->).
  destruct (IH rs' Hslash Hv Hrs) as [Hid Hn].
  assert (Hcid : chunk_id r = v +:+ "_chunk_" +:+ Py.str i).
  { destruct (process_audio_chunk ext temp_dir (chunk_file chunks_dir v i) w)
      as [x w'] eqn:Hx.
    simpl in Hr. subst x.
    apply process_audio_chunk_result in Hx as (_ & Hc & _).
    by rewrite Hc, chunk_id_of_chunk_file. }
  assert (Hi : Z.to_nat (index r) = i).
  { unfold index. rewrite (plain_name_sort_key v i r Hv Hcid).
    apply Nat2Z.id. }
  split.
  - intros x [->|Hx]%elem_of_cons; [by rewrite Hi|by apply Hid].
  - cbn [fmap list_fmap]. by rewrite Hi, Hn.
Qed.

(** For a plain name and one result per chunk, the merged transcript does
    not depend on the order of the results. *)
Lemma plain_merge_permutation v (rs rs' : list ChunkResult)
    (number : ChunkResult → nat) :
  Path.rsplit1 "_" v = None →
  (∀ x, x ∈ rs → chunk_id x = v +:+ "_chunk_" +:+ Py.str (number x)) →
  NoDup (number <$> rs) →
  rs' ≡ₚ rs →
  merge_transcripts (J:=J) rs' = merge_transcripts rs.
Proof.
  intros Hv Hid Hnd Hp.
  destruct (plain_recording_indexed v rs number Hv Hid Hnd) as [Hind Hndi].
  destruct (sorted_distinct rs Hind Hndi) as (s & Hs & Hps & Hsort).
  destruct (sorted_distinct rs') as (s2 & Hs2 & Hps2 & Hsort2).
  { intros x Hx. apply Hind. by rewrite <- Hp. }
  { by rewrite Hp. }
  assert (s2 = s) as ->.
  { apply strictly_sorted_unique; [done..|]. by rewrite Hps2, Hps. }
  by rewrite (merge_transcripts_sorted rs s), (merge_transcripts_sorted rs' s).
Qed.

(** What the last two steps return depends on the merged transcript and
    on the credential. *)
Lemma merge_and_summarize_same rs rs' cd ap w w' :
  merge_transcripts (J:=J) rs' = merge_transcripts rs →
  OPENAI_API_KEY w' = OPENAI_API_KEY w →
  (merge_and_summarize ext rs' cd ap w').1
  = (merge_and_summarize ext rs cd ap w).1.
Proof.
  intros Hm Hk. unfold merge_and_summarize. rewrite Hm.
  destruct (merge_transcripts rs) as [r|t]; [done|].
  unfold summarize.
  change (try_except (Os.rmtree cd ;; Os.remove ap) (fun _ => ret tt))
    with (clean_up cd ap).
  unfold try_except.
  match goal with
  | |- (let (_, _) := ?m w' in _).1 = _ =>
      assert (Hb : (m w').1 = (m w).1);
      [|destruct (m w') as [[e'|r'] w1'], (m w) as [[e|r] w1];
        simpl in Hb |- *; by simplify_eq]
  end.
  unfold bind, Os.getenv_api_key. rewrite Hk.
  destruct (OPENAI_API_KEY w) as [[|c key]|]; try done.
  unfold emit.
  destruct (chat ext (String c key) (chat_payload t)) as [e|text]; [done|].
  destruct (json_loads ext text) as [j| |e0]; [|done..].
  destruct (clean_up_returns cd ap
              (log (PostChatCompletion (String c key) (chat_payload t)) w'))
    as (x' & ->).
  by destruct (clean_up_returns cd ap
                 (log (PostChatCompletion (String c key) (chat_payload t)) w))
    as (x & ->).
Qed.

(** X24: for a recording with a plain name, the result does not depend on
    the order of completion. When the name of the input has no
    underscore and every future settles once, two calls that differ only
    in the order in which the futures settle return the same value: the
    same summary or the same failure. The services are taken to answer
    the same request in the same way. *)
Theorem result_is_independent_of_completion_order
    (video_path temp_dir : string) (concurrency_level chunk_length_sec : Z)
    (is_url : bool) (completion completion' : list nat) (w : World) :
  Path.rsplit1 "_"
    (video_name_of (input_path ext video_path temp_dir is_url)) = None →
  NoDup completion →
  completion' ≡ₚ completion →
  (transcribe_and_summarize_video ext video_path temp_dir concurrency_level
     chunk_length_sec is_url completion' w).1
  = (transcribe_and_summarize_video ext video_path temp_dir concurrency_level
       chunk_length_sec is_url completion w).1.
Proof.
  intros Hv Hnd Hperm.
  assert (Hbody :
    (pipeline_body ext video_path temp_dir concurrency_level chunk_length_sec
       is_url completion' w).1
    = (pipeline_body ext video_path temp_dir concurrency_level
         chunk_length_sec is_url completion w).1).
  { unfold pipeline_body. apply bind_same_result. intros [] w1 Hmk.
    assert (Htd : temp_dir ≠ EmptyString)
      by (by destruct (makedirs_establishes temp_dir w w1 Hmk)).
    apply returning_same_result. intros vp w2 Hres. cbv zeta.
    fold (video_name_of vp). fold (chunks_dir_of temp_dir vp).
    assert (vp = input_path ext video_path temp_dir is_url) as Hvp.
    { pose proof (resolve_input_cases ext video_path temp_dir is_url w1) as H.
      rewrite Hres in H. unfold input_path.
      destruct is_url; [|by destruct H].
      by destruct H as (n & body & -> & _ & -> & _). }
    rewrite <- Hvp in Hv.
    apply returning_same_result. intros ap w3 Hext.
    apply returning_same_result. intros chunks w4 Hsplit.
    unfold dispatch. destruct (concurrency_level <=? 0); [done|].
    destruct (collect_returns ext temp_dir chunks completion w4)
      as (rs & w5 & Hcol).
    destruct (collect_returns ext temp_dir chunks completion' w4)
      as (rs' & w5' & Hcol').
    unfold bind. rewrite Hcol, Hcol'.
    apply split_audio_paths in Hsplit.
    set (cd := chunks_dir_of temp_dir vp) in *.
    set (v := video_name_of vp) in *.
    destruct (collect_permutation temp_dir chunks completion completion' w4
                rs w5 rs' w5') as (Hrs & Hk & Hall); [|done..|].
    { rewrite Hsplit. apply Forall_fmap, Forall_forall. intros j _ i Hin.
      apply list_elem_of_fmap in Hin as (k & Heq & _). revert Heq.
      unfold cd, v.
      rewrite sub_window_path_text, chunk_file_text by done.
      intros Heq. apply append_inv_l, append_inv_l in Heq.
      discriminate Heq. }
    rewrite Hsplit, omap_lookup_fmap_seq in Hall.
    destruct (collected_numbers temp_dir cd v w4 _ rs
                (video_name_no_slash vp) Hv Hall) as [Hid Hn].
    assert (Hm : merge_transcripts (J:=J) rs' = merge_transcripts rs).
    { apply (plain_merge_permutation v rs rs'
               (fun x => Z.to_nat (index x))); [done..| |done].
      rewrite Hn. by apply NoDup_filter. }
    pose proof (merge_and_summarize_same rs rs' cd ap w5 w5' Hm Hk) as Hr.
    destruct (merge_and_summarize ext rs' cd ap w5') as [[e'|r'] w6'],
      (merge_and_summarize ext rs cd ap w5) as [[e|r] w6];
      simpl in Hr |- *; by simplify_eq. }
  unfold transcribe_and_summarize_video.
  destruct (pipeline_body _ _ _ _ _ _ completion' w) as [[e'|[r'|r']] w'],
    (pipeline_body _ _ _ _ _ _ completion w) as [[e|[r|r]] w''];
    simpl in Hbody |- *; by simplify_eq.
Qed.

End Schedule.

(** ** The page across reruns *)

Section PageReruns.

Context {J : Type} (ext : Externals J).

Lemma store_input_consistent input_method uploader url_field s :
  App.consistent s →
  App.consistent (App.store_input input_method uploader url_field s).
Proof.
  intros Hs. unfold App.store_input.
  destruct input_method.
  - destruct uploader as [f|]; [|done]. right. left. by repeat split.
  - destruct url_field as [|c url]; [done|]. right. right. by repeat split.
Qed.

Lemma reachable_consistent s : App.reachable s → App.consistent s.
Proof.
  induction 1 as [id|s id keys_set input_method uploader url_field _ IH].
  - by left.
  - by apply store_input_consistent.
Qed.

(** With the input in place, the [try] of the handler ends with an
    exception. *)
Lemma process_try_raises s secrets concurrency chunk_length completion w :
  App.consistent s →
  App.file_given s || App.url_given s = true →
  ∃ e w',
    App.process_try ext s secrets concurrency chunk_length completion w
    = (inl e, w').
Proof.
  intros Hs Hgiven. unfold App.process_try, bind at 1.
  destruct (Os.makedirs (App.temp_dir s) w) as [[e|[]] w1]; [eauto|].
  unfold bind at 1.
  destruct Hs as [(Hm & Hf & Hu)|[(Hm & [f Hf] & Hu)|(Hm & Hf & Hu)]].
  - revert Hgiven. unfold App.file_given, App.url_given. rewrite Hf, Hu.
    rewrite bool_decide_eq_false_2 by (by intros []). done.
  - rewrite Hm, Hf. rewrite bool_decide_eq_true_2 by done.
    rewrite process_file_raises.
    destruct (files w1 !! Path.join (App.temp_dir s) (App.name f)) as [[]|];
      eauto.
  - rewrite Hm. rewrite bool_decide_eq_false_2 by done.
    rewrite bool_decide_eq_true_2 by done.
    revert Hu. unfold App.url_given.
    destruct (App.video_url s) as [[|c url]|]; try done. intros _.
    rewrite process_url_raises. eauto.
Qed.

(** X25: the page never reports a missing input. In every session that
    reruns of the script can produce, the three entries of the input
    agree, so a click on the enabled button always takes the branch of the
    file or the branch of the URL: the page shows neither the message that
    no media input was found nor the result made for it, and it does not
    raise. Unless the button is clicked while the secrets hold the key and
    the session an input, the page leaves the world as it is. *)
Theorem page_never_reports_missing_input
    (s : App.SessionState) (secrets : App.Secrets) (clicked : bool)
    (concurrency chunk_length : Z) (completion : list nat) (w : World) :
  App.reachable s →
  let run := App.page ext s secrets clicked concurrency chunk_length
               completion w in
  ∃ shown,
    run.1 = inr shown
    ∧ (App.Error "No media input found. Please upload a file or provide a URL."
       ∉ shown)
    ∧ (App.ErrorBox "No media input provided" None ∉ shown)
    ∧ (clicked = false
       ∨ App.contains_key secrets ≠ inr true
       ∨ (App.file_given s = false ∧ App.url_given s = false) →
       run.2 = w).
Proof.
  intros Hs%reachable_consistent. cbn zeta. unfold App.page.
  assert (Hside : ∀ x : App.Shown J,
    x ∈ (App.check_api_keys secrets).1 →
    (∃ msg, x = App.SidebarSuccess msg) ∨ ∃ msg c, x = App.SidebarError msg c).
  { unfold App.check_api_keys.
    destruct (App.contains_key secrets) as [e|[]]; cbn [fst];
      intros x ->%list_elem_of_singleton; eauto. }
  assert (Hflag : (App.check_api_keys (J:=J) secrets).2 = true
                  ↔ App.contains_key secrets = inr true).
  { unfold App.check_api_keys.
    by destruct (App.contains_key secrets) as [e|[]]. }
  destruct (App.check_api_keys (J:=J) secrets) as [sidebar keys_set].
  cbn [fst snd] in Hside, Hflag.
  set (s' := App.mkSessionState _ _ _ _ keys_set).
  assert (Hs' : App.consistent s') by done.
  assert (Hdis : App.process_disabled s'
                 = (negb (App.file_given s) && negb (App.url_given s))
                   || negb keys_set) by done.
  assert (Hnotice : ∀ x : App.Shown J,
    x ∈ sidebar ++
        (if App.process_disabled s' then
           if negb (App.file_given s') && negb (App.url_given s')
           then [App.Warning
                   "Please provide a media file or URL before processing."]
           else [App.Error
                   "The OpenAI API key is not configured in your secrets.toml file."]
         else []) →
    x ≠ App.Error "No media input found. Please upload a file or provide a URL."
    ∧ x ≠ App.ErrorBox "No media input provided" None).
  { intros x [Hx|Hx]%elem_of_app.
    - by destruct (Hside x Hx) as [[msg ->]|(msg & c & ->)].
    - destruct (App.process_disabled s');
        [|by apply elem_of_nil in Hx].
      by destruct (negb _ && negb _);
        apply list_elem_of_singleton in Hx as ->. }
  destruct (clicked && negb (App.process_disabled s')) eqn:Hclick.
  - apply andb_true_iff in Hclick as [-> Hen].
    apply negb_true_iff in Hen. rewrite Hen in Hnotice |- *.
    rewrite Hdis in Hen. apply orb_false_iff in Hen as [Hmedia Hkeys].
    apply negb_false_iff in Hkeys.
    assert (Hgiven : App.file_given s' || App.url_given s' = true).
    { change (App.file_given s || App.url_given s = true).
      destruct (App.file_given s), (App.url_given s); done. }
    unfold bind at 1, App.process, bind at 1, try_except.
    destruct (process_try_raises s' secrets concurrency chunk_length
                completion w Hs' Hgiven) as (e & w1 & ->).
    unfold ret at 1. unfold bind at 1, App.clean_temp_dir.
    assert (Hout : ∀ warnings : list (App.Shown J),
      Forall (fun x => ∃ e', x = App.CleanupWarning e') warnings →
      (App.Error "No media input found. Please upload a file or provide a URL."
       ∉ sidebar ++ [] ++ [App.ApplicationError e] ++ warnings)
      ∧ (App.ErrorBox "No media input provided" None
         ∉ sidebar ++ [] ++ [App.ApplicationError e] ++ warnings)).
    { intros warnings Hwarn. rewrite Forall_forall in Hwarn.
      split; intros [Hx|Hx]%elem_of_app;
        try (by destruct (Hnotice _ (proj2 (elem_of_app _ _ _) (or_introl Hx))));
        cbn [app] in Hx; apply elem_of_cons in Hx as [Hx|Hx]; try done;
        by destruct (Hwarn _ Hx). }
    destruct (files w1 !! App.temp_dir s') as [d|].
    + destruct (Os.rmtree (App.temp_dir s') w1) as [[e'|[]] w2];
        unfold ret, bind; cbn [fst snd]; eexists; (split; [done|]).
      * destruct (Hout [App.CleanupWarning e']) as [H1 H2];
          [by repeat constructor; eexists|].
        split; [done|]. split; [done|].
        intros [Hc|[Hc|[Hf Hu]]]; [done|by apply Hflag in Hkeys|].
        by rewrite Hf, Hu in Hmedia.
      * destruct (Hout []) as [H1 H2]; [constructor|].
        split; [done|]. split; [done|].
        intros [Hc|[Hc|[Hf Hu]]]; [done|by apply Hflag in Hkeys|].
        by rewrite Hf, Hu in Hmedia.
    + unfold ret, bind; cbn [fst snd]. eexists. split; [done|].
      destruct (Hout []) as [H1 H2]; [constructor|].
      split; [done|]. split; [done|].
      intros [Hc|[Hc|[Hf Hu]]]; [done|by apply Hflag in Hkeys|].
      by rewrite Hf, Hu in Hmedia.
  - unfold ret. cbn [fst snd]. eexists. split; [done|].
    split; [intros Hx; by destruct (Hnotice _ Hx)|].
    split; [intros Hx; by destruct (Hnotice _ Hx)|done].
Qed.

End PageReruns.

(** ** The input file *)

Section InputKept.

Context {J : Type} (ext : Externals J).

(** The stem of a name is the name, or the name without its last dot and
    what follows. *)
Lemma splitext_stem_cases name :
  Path.rsplit1 "/" name = None →
  (Path.splitext name).1 = name
  ∨ ∃ e, name = (Path.splitext name).1 +:+ String "." e.
Proof.
  intros Hn. unfold Path.splitext. rewrite Hn.
  destruct (Path.rsplit1 "." name) as [[stem e]|] eqn:Hdot; [|by left].
  apply rsplit1_split in Hdot as [Hname _].
  destruct (Path.all_char "." stem); [by left|]. right. exists e.
  cbn [fst]. by rewrite append_nil_l.
Qed.

(** No file is named as its own stem followed by a text that neither is
    empty nor starts with a dot. *)
Lemma video_name_suffix vp x :
  x ≠ EmptyString → (∀ e, x ≠ String "." e) →
  Path.basename vp ≠ video_name_of vp +:+ x.
Proof.
  intros Hx Hdot Heq.
  destruct (splitext_stem_cases (Path.basename vp) (basename_no_slash vp))
    as [H|[e H]]; fold (video_name_of vp) in H.
  - rewrite H in Heq. apply (f_equal String.length) in Heq.
    rewrite length_append in Heq. destruct x; [done|]. simpl in Heq. lia.
  - rewrite H in Heq at 1. apply append_inv_l in Heq. by eapply Hdot.
Qed.

Lemma no_slash_append a b :
  Path.rsplit1 "/" a = None → Path.rsplit1 "/" b = None →
  Path.rsplit1 "/" (a +:+ b) = None.
Proof. intros Ha Hb. by rewrite rsplit1_append_none, Ha. Qed.

Lemma numbered_no_slash i :
  Path.rsplit1 "/" ("_chunk_" +:+ Py.str i +:+ ".wav") = None.
Proof.
  destruct (str_plain i) as [Hslash _].
  change ("_chunk_" +:+ Py.str i +:+ ".wav")
    with (String "_" (String "c" (String "h" (String "u" (String "n"
           (String "k" (String "_" (Py.str i +:+ ".wav")))))))).
  cbn [Path.rsplit1]. by rewrite rsplit1_append_none, Hslash.
Qed.

(** The chunk files, the files of the sub-windows and the chunks
    directory are not the input. *)
Lemma chunk_file_not_input chunks_dir vp i :
  chunk_file chunks_dir (video_name_of vp) i ≠ vp.
Proof.
  intros Heq. apply (f_equal Path.basename) in Heq. unfold chunk_file in Heq.
  rewrite basename_join in Heq
    by (apply no_slash_append;
        [apply video_name_no_slash|apply numbered_no_slash]).
  symmetry in Heq. revert Heq. apply video_name_suffix; [|done].
  change "_chunk_" with (String "_" "chunk_"). by rewrite append_cons.
Qed.

Lemma sub_window_path_not_input temp_dir chunks_dir vp i j :
  sub_window_path temp_dir (chunk_file chunks_dir (video_name_of vp) i) j ≠ vp.
Proof.
  intros Heq. apply (f_equal Path.basename) in Heq.
  unfold sub_window_path, chunk_file in Heq.
  rewrite (basename_join chunks_dir) in Heq
    by (apply no_slash_append;
        [apply video_name_no_slash|apply numbered_no_slash]).
  rewrite basename_join in Heq
    by (apply no_slash_append;
        [apply no_slash_append;
          [apply video_name_no_slash|apply numbered_no_slash]
        |apply numbered_no_slash]).
  rewrite !append_assoc in Heq.
  symmetry in Heq. revert Heq. apply video_name_suffix.
  - change "_chunk_" with (String "_" "chunk_") at 1. by rewrite append_cons.
  - intros e. change "_chunk_" with (String "_" "chunk_") at 1.
    by rewrite append_cons.
Qed.

Lemma chunks_dir_not_input temp_dir vp : chunks_dir_of temp_dir vp ≠ vp.
Proof.
  intros Heq. apply (f_equal Path.basename) in Heq.
  unfold chunks_dir_of in Heq.
  rewrite basename_join in Heq
    by (by apply no_slash_append; [apply video_name_no_slash|]).
  symmetry in Heq. revert Heq. by apply video_name_suffix.
Qed.

Lemma lower_append a b : Path.lower (a +:+ b) = Path.lower a +:+ Path.lower b.
Proof.
  induction a as [|c a IH]; [done|].
  rewrite append_cons. cbn [Path.lower]. by rewrite IH, append_cons.
Qed.

Lemma endswith_append a s : Path.endswith (a +:+ s) s = true.
Proof.
  induction a as [|c a IH].
  - rewrite append_nil_l. destruct s; cbn [Path.endswith];
      by rewrite String.eqb_refl.
  - rewrite append_cons. cbn [Path.endswith]. rewrite IH. apply orb_true_r.
Qed.

Lemma join_suffix a b : ∃ pre, Path.join a b = pre +:+ b.
Proof.
  unfold Path.join. destruct (String.prefix "/" b).
  { by exists EmptyString. }
  destruct a as [|c a]; [by exists EmptyString|].
  destruct (Path.ends_with_char "/" (String c a)); [by eexists|].
  exists (String c a +:+ "/"). by rewrite append_assoc.
Qed.

(** An input that lies at the path of the canonical audio file is a WAV
    file by its name. *)
Lemma input_at_audio_path temp_dir vp :
  vp = audio_path_of temp_dir vp →
  get_file_type ext vp = Audio
  ∧ Path.endswith (Path.lower vp) ".wav" = true.
Proof.
  intros Heq. set (v := video_name_of vp) in *.
  assert (Hv : Path.rsplit1 "/" (v +:+ ".wav") = None)
    by (by apply no_slash_append; [apply video_name_no_slash|]).
  assert (Hb : Path.basename vp = v +:+ ".wav").
  { rewrite Heq at 1. unfold audio_path_of. by apply basename_join. }
  assert (Hdots : Path.all_char "." v = false).
  { destruct (Path.all_char "." v) eqn:Hd; [|done].
    assert (Hs : video_name_of vp = v +:+ ".wav").
    { unfold video_name_of, Path.splitext. rewrite Hb, Hv.
      change (v +:+ ".wav") with (v +:+ String "." "wav").
      rewrite rsplit1_append_last by done. by rewrite Hd. }
    fold v in Hs. apply (f_equal String.length) in Hs.
    rewrite length_append in Hs. simpl in Hs. lia. }
  assert (He : (Path.splitext vp).2 = ".wav").
  { rewrite Heq at 1. unfold audio_path_of. fold v.
    rewrite splitext_join by done.
    unfold Path.splitext. rewrite Hv.
    change (v +:+ ".wav") with (v +:+ String "." "wav").
    rewrite rsplit1_append_last by done. by rewrite Hdots. }
  split.
  - unfold get_file_type. rewrite He. by vm_compute.
  - rewrite Heq at 1. unfold audio_path_of. fold v.
    destruct (join_suffix temp_dir (v +:+ ".wav")) as [pre ->].
    rewrite <- append_assoc, lower_append. apply endswith_append.
Qed.

(** What keeps the file at [q] as it is. *)
Section Kept.

Variables (q : string) (d0 : FileData).

Let I (w : World) : Prop := files w !! q = Some d0.

Lemma kept_makedirs p : preserves I (Os.makedirs p).
Proof.
  intros w Hw. unfold Os.makedirs. destruct p as [|c p]; [done|].
  destruct (files w !! String c p) as [[]|] eqn:Hp; try done.
  unfold I. cbn [snd files set_files].
  rewrite lookup_insert_ne; [done|]. intros Heq. unfold I in Hw. congruence.
Qed.

Lemma kept_write p d : p ≠ q → preserves I (Os.write p d).
Proof.
  intros Hp w Hw. unfold Os.write.
  destruct (files w !! p) as [[]|]; try done;
    unfold I; cbn [snd files set_files]; by rewrite lookup_insert_ne.
Qed.

Lemma kept_write_wav p a : p ≠ q → preserves I (Os.write p (Wav a)).
Proof. apply kept_write. Qed.

Lemma kept_remove p : p ≠ q → preserves I (Os.remove p).
Proof.
  intros Hp w Hw. unfold Os.remove.
  destruct (files w !! p) as [[]|]; try done;
    unfold I; cbn [snd files set_files log]; by rewrite lookup_delete_ne.
Qed.

Lemma kept_log_export p a w : p ≠ q → I w → I (log (Export p a) w).
Proof. done. Qed.

Lemma kept_whisper p :
  True → preserves I (transcribe_with_openai_whisper ext p).
Proof.
  intros _ w Hw.
  unfold transcribe_with_openai_whisper, bind, Os.getenv_api_key,
    Os.open_rb, emit, ret, raise.
  repeat case_match; simplify_eq; by simpl.
Qed.

End Kept.

(** Copying the file at [q] leaves it as it is, also when the copy lands
    on it. *)
Lemma kept_copy q d0 dst :
  dst ≠ q → preserves (fun w => files w !! q = Some d0) (Os.copy q dst).
Proof.
  intros Hd w Hw. unfold Os.copy, bind, Os.open_rb. rewrite Hw.
  destruct d0 as [|a|]; [done|..];
    (destruct (files w !! dst) as [[]|]; [|by apply kept_write..];
     destruct (decide (Path.join dst (Path.basename q) = q)) as [Heq|Hne];
       [|by apply kept_write];
     rewrite Heq; unfold Os.write; rewrite Hw;
     cbn [snd files set_files]; by rewrite lookup_insert_eq).
Qed.

(** The normalizer leaves the input as it is. *)
Lemma kept_extract_audio temp_dir vp d0 :
  preserves (fun w => files w !! vp = Some d0)
    (extract_audio (J:=J) ext vp temp_dir (video_name_of vp)).
Proof.
  unfold extract_audio. fold (audio_path_of temp_dir vp).
  destruct (get_file_type ext vp) eqn:Ht.
  - assert (Hne : audio_path_of temp_dir vp ≠ vp).
    { intros Heq. symmetry in Heq.
      apply input_at_audio_path in Heq as [Ha _]. congruence. }
    apply preserves_try_except; [|intros e; apply preserves_ret].
    apply preserves_bind; [apply kept_makedirs|]. intros _.
    apply preserves_bind; [|intros _; apply preserves_ret].
    unfold run_ffmpeg. apply preserves_bind; [apply preserves_lift|].
    intros d. by apply kept_write.
  - apply preserves_try_except; [|intros e; apply preserves_ret].
    apply preserves_bind; [apply kept_makedirs|]. intros _.
    destruct (negb (Path.endswith (Path.lower vp) ".wav")) eqn:He.
    + assert (Hne : audio_path_of temp_dir vp ≠ vp).
      { intros Heq. symmetry in Heq.
        apply input_at_audio_path in Heq as [_ Hw].
        by rewrite Hw in He. }
      apply preserves_bind; [|intros _; apply preserves_ret].
      unfold run_ffmpeg. apply preserves_bind; [apply preserves_lift|].
      intros d. by apply kept_write.
    + destruct (String.eqb_spec vp (audio_path_of temp_dir vp)) as [Heq|Hne];
        cbn [negb]; [apply preserves_ret|].
      apply preserves_bind; [|intros _; apply preserves_ret].
      apply kept_copy. congruence.
Qed.

(** The clean-up leaves a file as it is, or removes it because it is the
    chunks directory, lies under it, or is the audio file. *)
Lemma clean_up_keeps_or_removes cd ap w q :
  let w' := (clean_up cd ap w).2 in
  files w' !! q = files w !! q
  ∨ files w' !! q = None ∧ (q = cd ∨ Os.under cd q = true ∨ q = ap).
Proof.
  unfold clean_up, try_except, bind, Os.rmtree.
  destruct (files w !! cd) as [[]|] eqn:Hcd; cbn [snd]; try by left.
  set (w1 := log (Rmtree cd) _).
  assert (H1 : files w1 !! q = files w !! q
               ∨ files w1 !! q = None ∧ (q = cd ∨ Os.under cd q = true)).
  { unfold w1. cbn [files log set_files].
    destruct (decide (q = cd)) as [->|Hq].
    { right. split; [|by left]. apply map_lookup_filter_None. left.
      by rewrite lookup_delete_eq. }
    destruct (Os.under cd q) eqn:Hu.
    { right. split; [|by right]. apply map_lookup_filter_None. right.
      intros x _. simpl. rewrite Hu. by intros []. }
    left. destruct (files w !! q) as [x|] eqn:Hx.
    - apply map_lookup_filter_Some. split; [by rewrite lookup_delete_ne|].
      simpl. by rewrite Hu.
    - apply map_lookup_filter_None. left. by rewrite lookup_delete_ne. }
  unfold Os.remove.
  destruct (files w1 !! ap) as [[]|] eqn:Hap; unfold ret; cbn [snd];
    try (destruct H1 as [H1|[H1 H2]]; [by left|right; split; tauto]);
    (cbn [files log set_files];
     destruct (decide (q = ap)) as [->|Hq];
     [right; split; [by rewrite lookup_delete_eq|tauto]
     |rewrite lookup_delete_ne by done;
      destruct H1 as [H1|[H1 H2]]; [by left|right; split; tauto]]).
Qed.

(** X26: the call never alters its input. For an input file that exists
    (no URL), the file is untouched when the call ends in any failure;
    when the call returns a summary the file is untouched or removed, and
    it is removed only when it lies at the place of the canonical audio
    file or under the chunks directory. No export, conversion or copy of
    the call lands on the input. *)
Theorem call_never_alters_its_input
    (video_path temp_dir : string) (concurrency_level chunk_length_sec : Z)
    (completion : list nat) (w : World) :
  is_Some (files w !! video_path) →
  let run := transcribe_and_summarize_video ext video_path temp_dir
               concurrency_level chunk_length_sec false completion w in
  ((∀ j, run.1 ≠ Summary j) →
   files run.2 !! video_path = files w !! video_path)
  ∧ (files run.2 !! video_path = files w !! video_path
     ∨ files run.2 !! video_path = None
       ∧ (video_path = audio_path_of temp_dir video_path
          ∨ Os.under (chunks_dir_of temp_dir video_path) video_path = true)).
Proof.
  intros [d0 Hd0] run. rewrite Hd0.
  set (I := fun w' : World => files w' !! video_path = Some d0).
  unfold run.
  destruct (transcribe_and_summarize_video_unfolds ext video_path temp_dir
              concurrency_level chunk_length_sec false completion w)
    as [e Hmk|w1 r w2 Hmk Hres|w1 vp w2 r w3 Hmk Hres Hext
        |w1 vp w2 ap w3 r w4 Hmk Hres Hext Hsplit
        |w1 vp w2 ap w3 chunks w4 Hmk Hres Hext Hsplit Hc
        |w1 vp w2 ap w3 chunks w4 rs w5 r w6 Hmk Hres Hext Hsplit Hc Hcol Hms];
    cbn [fst snd]; [by auto|..].
  all: assert (H1 : I w1)
         by (eapply step_keeps; [apply kept_makedirs|exact Hd0|exact Hmk]).
  all: unfold resolve_input, ret in Hres; try discriminate Hres;
    injection Hres as <- <-.
  all: assert (H3 : I w3)
         by (eapply step_keeps; [apply kept_extract_audio|exact H1|exact Hext]).
  1: by auto.
  all: assert (H4 : I w4).
  1,3,5: eapply step_keeps; [|exact H3|exact Hsplit];
    unfold split_audio;
    (apply preserves_try_except; [|intros e; apply preserves_ret]);
    (apply preserves_bind; [apply kept_makedirs|]); intros _;
    (apply preserves_bind; [apply preserves_from_file|]); intros a;
    (apply preserves_bind; [apply preserves_lift|]); intros starts;
    (apply preserves_bind;
     [|intros l; destruct l; apply preserves_ret]);
    apply (confined_export_chunks I (fun p => p ≠ video_path)
             (kept_write_wav video_path d0) (kept_log_export video_path d0));
    intros i; apply chunk_file_not_input.
  1,2: by auto.
  assert (H5 : I w5).
  { eapply step_keeps; [|exact H4|exact Hcol].
    apply (confined_collect ext I (fun p => p ≠ video_path) (fun _ => True)
             (kept_write_wav video_path d0) (kept_remove video_path d0)
             (kept_log_export video_path d0) (kept_whisper video_path d0)).
    apply split_audio_chunk_files in Hsplit.
    eapply Forall_impl; [exact Hsplit|].
    intros p [i ->]. split; [done|]. intros k. split; [|done].
    apply sub_window_path_not_input. }
  assert (ap = audio_path_of temp_dir video_path) as ->.
  { pose proof (extract_audio_cases ext video_path temp_dir
                  (video_name_of video_path) w1) as H.
    rewrite Hext in H. by destruct H. }
  apply merge_and_summarize_cases in Hms
    as [[-> _]|(t & key & _ & _ & _ & Hcases)]; [by auto|].
  cbv zeta in Hcases.
  destruct Hcases as [(e & _ & -> & ->)|[(text & _ & _ & -> & ->)
                      |(text & j & _ & _ & -> & ->)]]; [by auto..|].
  split; [intros Hj; by destruct (Hj j)|].
  destruct (clean_up_keeps_or_removes (chunks_dir_of temp_dir video_path)
              (audio_path_of temp_dir video_path)
              (log (PostChatCompletion key (chat_payload t)) w5) video_path)
    as [Hk|[Hn [Hq|[Hq|Hq]]]]; cbv zeta in *.
  - left. by rewrite Hk.
  - by destruct (chunks_dir_not_input temp_dir video_path).
  - right. auto.
  - right. auto.
Qed.

End InputKept.

(** ** The files of the sub-windows do not collide *)

Section SubWindowFiles.

Lemma rsplit1_cons_none c a s :
  Path.rsplit1 c (String a s) = None → a ≠ c ∧ Path.rsplit1 c s = None.
Proof.
  cbn [Path.rsplit1]. destruct (Path.rsplit1 c s) as [[]|]; [done|].
  by destruct (Ascii.eqb_spec a c).
Qed.

(** A text is split at its first dot in one way only. *)
Lemma first_dot_split a : ∀ b x y,
  Path.rsplit1 "." a = None → Path.rsplit1 "." b = None →
  a +:+ String "." x = b +:+ String "." y → a = b ∧ x = y.
Proof.
  induction a as [|c a IH]; intros [|d b] x y Ha Hb H.
  - rewrite !append_nil_l in H. by injection H as ->.
  - rewrite append_nil_l, append_cons in H. injection H as <- _.
    by apply rsplit1_leading in Hb.
  - rewrite append_nil_l, append_cons in H. injection H as -> _.
    by apply rsplit1_leading in Ha.
  - rewrite !append_cons in H. injection H as -> H.
    apply rsplit1_cons_none in Ha as [_ Ha].
    apply rsplit1_cons_none in Hb as [_ Hb].
    by destruct (IH b x y Ha Hb H) as [-> ->].
Qed.

(** The name of a sub-window file: that of its chunk file, then the
    number of the sub-window. *)
Lemma sub_window_name video_path chunks_dir i j :
  Path.basename (chunk_file chunks_dir (video_name_of video_path) i)
    +:+ "_chunk_" +:+ Py.str j +:+ ".wav"
  = video_name_of video_path +:+ "_chunk_"
      +:+ Py.str i +:+ String "." ("wav_chunk_" +:+ Py.str j +:+ ".wav").
Proof.
  unfold chunk_file.
  rewrite basename_join
    by (apply no_slash_append;
        [apply video_name_no_slash|apply numbered_no_slash]).
  by rewrite !append_assoc.
Qed.

Lemma sub_window_name_relative video_path i x :
  String.prefix "/"
    (video_name_of video_path +:+ "_chunk_" +:+ Py.str i +:+ x) = false.
Proof. apply prefix_append_relative; [apply video_name_relative|done]. Qed.

(** X27: the files of the sub-windows are private to their chunk. For
    the chunk files of one recording, the sub-window [j] of chunk [i] and
    the sub-window [j'] of chunk [i'] are written to the same path only
    when [i = i'] and [j = j'], and no sub-window is written to the path
    of a chunk file: the clients of different chunks never overwrite or
    remove each other's files, and never a chunk that is still to be
    read. *)
Theorem sub_window_files_are_private
    (temp_dir video_path : string) (i j i' j' : nat) :
  let v := video_name_of video_path in
  let chunks_dir := chunks_dir_of temp_dir video_path in
  (sub_window_path temp_dir (chunk_file chunks_dir v i) j
   = sub_window_path temp_dir (chunk_file chunks_dir v i') j'
   ↔ i = i' ∧ j = j')
  ∧ sub_window_path temp_dir (chunk_file chunks_dir v i) j
    ≠ chunk_file chunks_dir v i'.
Proof.
  intros v chunks_dir. split.
  - split; [|by intros [-> ->]]. unfold sub_window_path. intros H.
    apply join_inv in H.
    + unfold v in H. rewrite !sub_window_name in H.
      apply append_inv_l, append_inv_l in H.
      destruct (str_plain i) as [_ Hi]. destruct (str_plain i') as [_ Hi'].
      apply first_dot_split in H as [Hii H]; [|done..].
      apply str_inj in Hii.
      change "wav_chunk_" with ("wav_chunk_" +:+ EmptyString) in H.
      apply append_inv_l, append_inv_r in H. apply str_inj in H. done.
    + unfold v. rewrite !sub_window_name.
      by rewrite !sub_window_name_relative.
  - intros H. apply (f_equal Path.basename) in H.
    unfold sub_window_path in H. unfold v in H.
    rewrite sub_window_name in H.
    rewrite basename_join in H.
    2: { apply no_slash_append; [apply video_name_no_slash|].
         replace ("_chunk_" +:+ Py.str i
                  +:+ String "." ("wav_chunk_" +:+ Py.str j +:+ ".wav"))
           with (("_chunk_" +:+ Py.str i +:+ ".wav")
                 +:+ ("_chunk_" +:+ Py.str j +:+ ".wav"))
           by (by rewrite !append_assoc).
         apply no_slash_append; apply numbered_no_slash. }
    unfold chunk_file in H.
    rewrite basename_join in H
      by (apply no_slash_append;
          [apply video_name_no_slash|apply numbered_no_slash]).
    apply append_inv_l, append_inv_l in H.
    destruct (str_plain i) as [_ Hi]. destruct (str_plain i') as [_ Hi'].
    change ".wav" with (String "." "wav") in H.
    apply first_dot_split in H as [_ H]; [|done..].
    apply (f_equal String.length) in H. rewrite !length_append in H.
    simpl in H. lia.
Qed.

End SubWindowFiles.

(** ** Runs of the further samples *)

Lemma invalid_settings_stop_early_witness :
  stops_early
    (transcribe_and_summarize_video sample_services "in/talk.mp4" "tmp" 0 60
       false [0; 1; 2]%nat (sample_world "in/talk.mp4" (Some "sk"))).1.
Proof.
  apply (invalid_settings_stop_early sample_services "in/talk.mp4" "tmp" 0 60
           false [0; 1; 2]%nat (sample_world "in/talk.mp4" (Some "sk"))).
  left. lia.
Defined.

Lemma split_audio_without_windows_witness :
  let w := chunk_world "tmp/talk.wav" (mkAudio 16000 2 2400000) None in
  split_audio (J:=string) "tmp/talk.wav" "tmp/talk_chunks" "talk" 0 w
  = (inr (inl (if decide (0 = 0)
               then Err "Audio chunking failed: "
                      (Some (ValueError "range() arg 3 must not be zero"))
               else EmptyAudioError)),
     set_files (fun _ => <["tmp/talk_chunks" := Directory]> (files w)) w).
Proof.
  apply (split_audio_without_windows (J:=string)
           (chunk_world "tmp/talk.wav" (mkAudio 16000 2 2400000) None)
           "tmp/talk.wav" "tmp/talk_chunks" "talk" (mkAudio 16000 2 2400000) 0).
  - lia.
  - vm_compute. reflexivity.
  - discriminate.
  - left. vm_compute. reflexivity.
Defined.

Lemma raising_upload_is_reported_witness :
  let path := "tmp/talk_chunks/talk_chunk_1.wav" in
  let w := chunk_world path (mkAudio 16000 2 960000) (Some "sk") in
  process_audio_chunk raising_services "tmp" path w
  = (inr (mkChunkResult (Path.splitext (Path.basename path)).1
            (Path.basename path) (Some (ExternalError "ConnectionError")) None),
     log (PostTranscription "sk" path) w).
Proof.
  apply (raising_upload_is_reported raising_services "tmp"
           "tmp/talk_chunks/talk_chunk_1.wav" "sk"
           (chunk_world "tmp/talk_chunks/talk_chunk_1.wav"
              (mkAudio 16000 2 960000) (Some "sk"))
           (mkAudio 16000 2 960000) (ExternalError "ConnectionError")).
  - vm_compute. reflexivity.
  - vm_compute. discriminate.
  - reflexivity.
  - discriminate.
  - vm_compute. reflexivity.
Defined.

Lemma raising_sub_window_leaves_file_witness :
  let path := "tmp/talk_chunks/talk_chunk_0.wav" in
  let w := chunk_world path oversized (Some "sk") in
  let pre := take 1 oversized_windows in
  let c := default oversized (oversized_windows !! 1%nat) in
  ∃ w',
    audio_to_text_single_call raising_services path "tmp" w
    = (inr (ContentError (ExternalError "ConnectionError")), w')
    ∧ files w' !! sub_window_path "tmp" path (length pre) = Some (Wav c)
    ∧ trace w' = trace w
        ++ concat (imap (sub_window_events "tmp" path "sk") pre)
        ++ [Export (sub_window_path "tmp" path (length pre)) c;
            PostTranscription "sk" (sub_window_path "tmp" path (length pre))].
Proof.
  apply (raising_sub_window_leaves_file raising_services
           "tmp/talk_chunks/talk_chunk_0.wav" "tmp" "sk"
           (chunk_world "tmp/talk_chunks/talk_chunk_0.wav" oversized (Some "sk"))
           oversized (take 1 oversized_windows) (drop 2 oversized_windows)
           (default oversized (oversized_windows !! 1%nat))
           (ExternalError "ConnectionError")).
  - vm_compute. reflexivity.
  - vm_compute. reflexivity.
  - reflexivity.
  - discriminate.
  - intros k. unfold chunk_world. simpl. rewrite lookup_singleton.
    case_decide; discriminate.
  - vm_compute. reflexivity.
  - intros k Hk. assert (k = 0%nat) as -> by (vm_compute in Hk; lia).
    vm_compute. tauto.
  - vm_compute. reflexivity.
Defined.

Lemma oversized_chunk_without_credential_witness :
  let path := "tmp/talk_chunks/talk_chunk_0.wav" in
  let w := chunk_world path oversized None in
  let transcript := spaced (replicate (length oversized_windows) EmptyString) in
  ∃ w',
    audio_to_text_single_call sample_services path "tmp" w
    = (inr (ContentTranscript transcript), w')
    ∧ String.length transcript = length oversized_windows
    ∧ (oversized_windows ≠ [] → truthy (Some transcript) = true)
    ∧ trace w' = trace w
        ++ concat (imap (fun k c =>
                           [Export (sub_window_path "tmp" path k) c;
                            Remove (sub_window_path "tmp" path k)])
                     oversized_windows).
Proof.
  apply (oversized_chunk_without_credential sample_services
           "tmp/talk_chunks/talk_chunk_0.wav" "tmp"
           (chunk_world "tmp/talk_chunks/talk_chunk_0.wav" oversized None)
           oversized oversized_windows).
  - vm_compute. reflexivity.
  - vm_compute. reflexivity.
  - left. reflexivity.
  - intros k. unfold chunk_world. simpl. rewrite lookup_singleton.
    case_decide; discriminate.
  - vm_compute. reflexivity.
Defined.

Lemma pool_keeps_every_chunk_witness :
  let audio_chunks := chunk_file "tmp/talk_chunks" "talk" <$> seq 0 2 in
  let completion := [1; 0]%nat in
  ∃ rs w',
    dispatch sample_services "tmp" audio_chunks 5 completion
      (sample_world "in/talk.mp4" (Some "sk")) = (inr rs, w')
    ∧ Forall2 result_of (omap (audio_chunks !!.) completion) rs
    ∧ (completion ≡ₚ seq 0 (length audio_chunks) →
       file_name <$> rs ≡ₚ Path.basename <$> audio_chunks).
Proof.
  apply (pool_keeps_every_chunk sample_services "tmp"
           (chunk_file "tmp/talk_chunks" "talk" <$> seq 0 2) 5 [1; 0]%nat
           (sample_world "in/talk.mp4" (Some "sk"))).
  lia.
Defined.

Lemma chunk_ids_number_the_chunks_witness :
  ∃ rs w',
    dispatch sample_services "tmp"
      (chunk_file "tmp/talk_chunks" "talk" <$> seq 0 3) 5 [2; 0; 1]%nat
      (sample_world "in/talk.mp4" (Some "sk")) = (inr rs, w')
    ∧ chunk_id <$> rs
      = (fun i => "talk" +:+ "_chunk_" +:+ Py.str i) <$> [2; 0; 1]%nat.
Proof.
  apply (chunk_ids_number_the_chunks sample_services "tmp" "tmp/talk_chunks"
           "talk" 3 5 [2; 0; 1]%nat (sample_world "in/talk.mp4" (Some "sk"))).
  - lia.
  - vm_compute. reflexivity.
  - repeat constructor.
Defined.

Lemma plain_names_merge_in_chunk_order_witness :
  let rs := [cr "talk_chunk_2" (Some "c"); cr "talk_chunk_0" (Some "a");
             cr "talk_chunk_1" None] in
  let number := fun x => Z.to_nat (index x) in
  (∀ x, x ∈ rs → sort_key x = inr (Z.of_nat (number x)))
  ∧ (∃ s, s ≡ₚ rs
       ∧ StronglySorted (fun x y => (number x < number y)%nat) s
       ∧ merge_transcripts (J:=unit) rs =
           match Py.join " " (transcripts s) with
           | EmptyString => inl NoTranscriptError
           | String c t => inr (String c t)
           end)
  ∧ ∀ rs', rs' ≡ₚ rs →
      merge_transcripts (J:=unit) rs' = merge_transcripts rs.
Proof.
  apply (plain_names_merge_in_chunk_order (J:=unit) "talk"
           [cr "talk_chunk_2" (Some "c"); cr "talk_chunk_0" (Some "a");
            cr "talk_chunk_1" None]
           (fun x => Z.to_nat (index x))).
  - vm_compute. reflexivity.
  - intros x Hx.
    repeat (apply elem_of_cons in Hx as [->|Hx]; [vm_compute; reflexivity|]).
    by apply elem_of_nil in Hx.
  - apply (bool_decide_unpack _). vm_compute. exact I.
Defined.

Lemma delimited_names_merge_in_completion_order_witness :
  let rs := [cr "a_chunk_5_chunk_1" (Some "y");
             cr "a_chunk_5_chunk_0" (Some "x")] in
  sorted rs = inr rs
  ∧ merge_transcripts (J:=unit) rs =
      match Py.join " " (transcripts rs) with
      | EmptyString => inl NoTranscriptError
      | String c t => inr (String c t)
      end.
Proof.
  apply (delimited_names_merge_in_completion_order (J:=unit) "a" "5" 5
           [cr "a_chunk_5_chunk_1" (Some "y");
            cr "a_chunk_5_chunk_0" (Some "x")]).
  - vm_compute. reflexivity.
  - vm_compute. reflexivity.
  - vm_compute. reflexivity.
  - intros x Hx. apply elem_of_cons in Hx as [->|Hx].
    { exists 1%nat. vm_compute. reflexivity. }
    apply elem_of_cons in Hx as [->|Hx].
    { exists 0%nat. vm_compute. reflexivity. }
    by apply elem_of_nil in Hx.
Defined.

Lemma failed_chunks_leave_no_mark_witness :
  let rs := [cr "v_chunk_2" (Some "c"); cr "v_chunk_1" None;
             cr "v_chunk_0" (Some "a")] in
  merge_transcripts (J:=unit)
    (filter (fun x => truthy (transcript x) = true) rs)
  = merge_transcripts rs.
Proof.
  apply (failed_chunks_leave_no_mark (J:=unit)
           [cr "v_chunk_2" (Some "c"); cr "v_chunk_1" None;
            cr "v_chunk_0" (Some "a")]).
  intros x Hx.
  repeat (apply elem_of_cons in Hx as [->|Hx];
          [eexists; vm_compute; reflexivity|]).
  by apply elem_of_nil in Hx.
Defined.

Lemma summary_cleans_up_witness :
  let w := summarizer_world in
  let run := summarize sample_services "hello" "tmp/talk_chunks"
               "tmp/talk.wav" w in
  run.1 = inr (Summary "{}")
  ∧ (∀ q, files run.2 !! q
          = if decide (q = "tmp/talk_chunks" ∨ q = "tmp/talk.wav"
                       ∨ Os.under "tmp/talk_chunks" q = true)
            then None else files w !! q)
  ∧ trace run.2
    = trace w ++ [PostChatCompletion "sk" (chat_payload "hello");
                  Rmtree "tmp/talk_chunks"; Remove "tmp/talk.wav"].
Proof.
  apply (summary_cleans_up sample_services "hello" "tmp/talk_chunks"
           "tmp/talk.wav" "sk" "{}" "{}" summarizer_world
           (Wav (mkAudio 16000 2 2400000))).
  - reflexivity.
  - discriminate.
  - reflexivity.
  - vm_compute. reflexivity.
  - vm_compute. reflexivity.
  - vm_compute. reflexivity.
  - discriminate.
  - vm_compute. reflexivity.
Defined.

Lemma click_shows_the_type_error_witness :
  App.process sample_services upload_session (App.SecretsToml (Some "sk"))
    10 120 [0; 1; 2]%nat empty_world
  = (inr [App.ApplicationError (App.TypeError "api_key")],
     log (Rmtree (App.temp_dir upload_session)) empty_world).
Proof.
  apply (click_shows_the_type_error sample_services upload_session "sk" 10 120
           [0; 1; 2]%nat empty_world).
  - apply lookup_empty.
  - intros q _. apply lookup_empty.
  - left. split; [reflexivity|].
    exists (App.mkUploadedFile "Talk.MP3" Blob).
    split; [reflexivity|]. split; [discriminate|reflexivity].
Defined.

Lemma process_removes_temp_dir_witness :
  let run := App.process sample_services upload_session
               (App.SecretsToml (Some "sk")) 10 120 [0; 1; 2]%nat empty_world in
  files run.2 !! App.temp_dir upload_session = None
  ∧ (∀ q, Os.under (App.temp_dir upload_session) q = true →
          files run.2 !! q = None)
  ∧ trace run.2
    = trace empty_world ++ [Rmtree (App.temp_dir upload_session)].
Proof.
  apply (process_removes_temp_dir sample_services upload_session
           (App.SecretsToml (Some "sk")) 10 120 [0; 1; 2]%nat empty_world).
  left. apply lookup_empty.
Defined.

Lemma preview_agrees_with_get_file_type_witness :
  get_file_type sample_services
    (Path.join (App.temp_dir upload_session) "Talk.MP3")
  = Audio.
Proof.
  apply (preview_agrees_with_get_file_type sample_services upload_session
           (App.mkUploadedFile "Talk.MP3" Blob) Audio).
  - vm_compute. reflexivity.
  - vm_compute. discriminate.
  - vm_compute. reflexivity.
Defined.

Lemma summary_removes_chunks_and_audio_witness :
  let w := chunk_world "tmp/talk.wav" (mkAudio 16000 2 2400000) (Some "sk") in
  let run := transcribe_and_summarize_video sample_services "tmp/talk.wav"
               "tmp" 5 60 false [0; 1; 2]%nat w in
  run.1 = Summary "{}"
  ∧ files run.2 !! "tmp/talk_chunks" = None
  ∧ files run.2 !! "tmp/talk.wav" = None
  ∧ ∀ q, Os.under "tmp/talk_chunks" q = true → files run.2 !! q = None.
Proof.
  intros w run.
  assert (Hrun : run.1 = Summary "{}") by (vm_compute; reflexivity).
  split; [exact Hrun|].
  exact (summary_removes_chunks_and_audio sample_services "tmp/talk.wav"
           "tmp" 5 60 false [0; 1; 2]%nat w "{}" Hrun).
Defined.

Lemma result_is_independent_of_completion_order_witness :
  (transcribe_and_summarize_video sample_services "in/talk.mp4" "tmp" 5 60
     false [2; 0; 1]%nat (sample_world "in/talk.mp4" (Some "sk"))).1
  = (transcribe_and_summarize_video sample_services "in/talk.mp4" "tmp" 5 60
       false [0; 1; 2]%nat (sample_world "in/talk.mp4" (Some "sk"))).1.
Proof.
  apply (result_is_independent_of_completion_order sample_services
           "in/talk.mp4" "tmp" 5 60 false [0; 1; 2]%nat [2; 0; 1]%nat
           (sample_world "in/talk.mp4" (Some "sk"))).
  - vm_compute. reflexivity.
  - apply (bool_decide_unpack _). vm_compute. reflexivity.
  - apply (Permutation_cons_append [0; 1]%nat 2%nat).
Defined.

Lemma page_never_reports_missing_input_witness :
  let run := App.page sample_services upload_session
               (App.SecretsToml (Some "sk")) true 10 120 [0; 1; 2]%nat
               empty_world in
  ∃ shown,
    run.1 = inr shown
    ∧ (App.Error "No media input found. Please upload a file or provide a URL."
       ∉ shown)
    ∧ (App.ErrorBox "No media input provided" None ∉ shown)
    ∧ (true = false
       ∨ App.contains_key (App.SecretsToml (Some "sk")) ≠ inr true
       ∨ (App.file_given upload_session = false
          ∧ App.url_given upload_session = false) →
       run.2 = empty_world).
Proof.
  apply (page_never_reports_missing_input sample_services upload_session
           (App.SecretsToml (Some "sk")) true 10 120 [0; 1; 2]%nat
           empty_world).
  exact (App.reachable_rerun (App.new_session "ab12cd34") "ab12cd34" true
           App.UploadFile (Some (App.mkUploadedFile "Talk.MP3" Blob))
           EmptyString (App.reachable_new "ab12cd34")).
Defined.

Lemma call_never_alters_its_input_witness :
  let w := sample_world "in/talk.mp4" (Some "sk") in
  let run := transcribe_and_summarize_video sample_services "in/talk.mp4"
               "tmp" 5 60 false [0; 1; 2]%nat w in
  ((∀ j, run.1 ≠ Summary j) →
   files run.2 !! "in/talk.mp4" = files w !! "in/talk.mp4")
  ∧ (files run.2 !! "in/talk.mp4" = files w !! "in/talk.mp4"
     ∨ files run.2 !! "in/talk.mp4" = None
       ∧ ("in/talk.mp4" = audio_path_of "tmp" "in/talk.mp4"
          ∨ Os.under (chunks_dir_of "tmp" "in/talk.mp4") "in/talk.mp4" = true)).
Proof.
  apply (call_never_alters_its_input sample_services "in/talk.mp4" "tmp" 5 60
           [0; 1; 2]%nat (sample_world "in/talk.mp4" (Some "sk"))).
  exists Blob. vm_compute. reflexivity.
Defined.
